(** * drcachesim tracer (clients/drcachesim/tracer/instrument.cpp)

    A shallow embedding of the tracing client: the per-thread trace buffer,
    the flush routine [memtrace], the instrumentation that
    [event_app_instruction] inserts in front of every application
    instruction, the thread life cycle and the global reference counter.

    Layers, bottom up:
    - machine words and the trace entry record (../common/trace_entry.h is
      not part of this file and is taken as a parameter);
    - the named pipe, with the return value of every [write] chosen by the
      environment;
    - [memtrace], [clean_call];
    - the instrumentation routines ([insert_save_type], ..., [instrument_mem],
      [event_app_instruction]) as generators of meta instructions, and an
      interpreter for those meta instructions;
    - [event_thread_init], [event_thread_exit] and the interleaving of
      threads that share the pipe, the mutex and the global [num_refs];
    - [options_init], over the tokens of the client's option string. *)

From Stdlib Require Import ZArith Lia List Bool.
From stdpp Require Import base option list gmap fin_maps strings.
Import ListNotations.

Local Open Scope Z_scope.

(** ** Machine words *)

(** [ushort]: assignments to a 16 bit field keep the low 16 bits. *)
Definition wrap16 (z : Z) : Z := z mod 65536.

(** [uint64] and [addr_t]. *)
Definition wrap64 (z : Z) : Z := z mod 18446744073709551616.

(** ** Outcomes

    A routine returns ([Done]), aborts the process on a failed assertion
    ([Aborted]), or, for the inserted code, stores outside the thread's
    trace buffer ([Fault]). *)
Inductive outcome (A : Type) : Type :=
| Done (a : A)
| Aborted
| Fault.
Arguments Done {A} a.
Arguments Aborted {A}.
Arguments Fault {A}.

Definition obind {A B} (x : outcome A) (f : A -> outcome B) : outcome B :=
  match x with
  | Done a => f a
  | Aborted => Aborted
  | Fault => Fault
  end.

#[global] Instance outcome_bind : MBind outcome := fun A B f x => obind x f.
#[global] Instance outcome_ret : MRet outcome := fun A a => Done a.

(** Modelled from the spec: the macro [DR_ASSERT] of dr_api.h, which is not
    among the sources at hand; a failed assertion is fatal and aborts the
    session at once (sections 7 and 9). *)
Definition DR_ASSERT (c : bool) : outcome unit :=
  if c then Done tt else Aborted.

(** ** Constants of this file *)

Definition MAX_NUM_MEM_REFS : Z := 4096.
Definition BUF_HDR_SLOTS : Z := 1.

(** ** ../common/trace_entry.h

    The header is not part of the sources at hand.  What the tracer uses of
    it is collected in one record: the size of [trace_entry_t], the offsets
    of its three fields, the [TRACE_TYPE_*] constants it writes, and the
    sizes of [thread_id_t] and [process_id_t]. *)
Class trace_entry_h : Type := {
  sizeof_trace_entry_t : Z;
  offsetof_type : Z;
  offsetof_size : Z;
  offsetof_addr : Z;
  TRACE_TYPE_READ : Z;
  TRACE_TYPE_WRITE : Z;
  TRACE_TYPE_THREAD : Z;
  TRACE_TYPE_PID : Z;
  sizeof_thread_id_t : Z;
  sizeof_process_id_t : Z
}.

(** The three fields of an entry lie inside the entry, at different
    offsets. *)
Definition layout_ok (H : trace_entry_h) : Prop :=
  (0 <= offsetof_type < sizeof_trace_entry_t) /\
  (0 <= offsetof_size < sizeof_trace_entry_t) /\
  (0 <= offsetof_addr < sizeof_trace_entry_t) /\
  offsetof_type <> offsetof_size /\
  offsetof_type <> offsetof_addr /\
  offsetof_size <> offsetof_addr.

(** The enumerators fit the [ushort] type field and differ from each other. *)
Definition enum_ok (H : trace_entry_h) : Prop :=
  Forall (fun c => 0 <= c < 65536)
         [TRACE_TYPE_READ; TRACE_TYPE_WRITE; TRACE_TYPE_THREAD; TRACE_TYPE_PID] /\
  NoDup [TRACE_TYPE_READ; TRACE_TYPE_WRITE; TRACE_TYPE_THREAD; TRACE_TYPE_PID].

(** A packed layout: two [ushort] fields and a 64 bit address. *)
Definition packed_trace_entry_h : trace_entry_h := {|
  sizeof_trace_entry_t := 12;
  offsetof_type := 0;
  offsetof_size := 2;
  offsetof_addr := 4;
  TRACE_TYPE_READ := 0;
  TRACE_TYPE_WRITE := 1;
  TRACE_TYPE_THREAD := 2;
  TRACE_TYPE_PID := 3;
  sizeof_thread_id_t := 4;
  sizeof_process_id_t := 4
|}.

(** [trace_entry_t] *)
Record trace_entry_t : Type := mk_entry {
  type : Z;   (* unsigned short *)
  size : Z;   (* unsigned short *)
  addr : Z    (* addr_t *)
}.

(** ** Memory

    The trace buffer lives in a memory of cells addressed by byte address;
    a store to a field writes the cell at the field's address. *)
Definition memory : Type := Z -> Z.

Definition mem_store (m : memory) (a v : Z) : memory :=
  fun x => if x =? a then v else m x.

(** ** The named pipe

    [written] is what has been handed over in full, message by message, with
    the thread that wrote it; [returns] holds the values the next calls of
    [write] will return, as far as the environment has decided them (a call
    beyond them transfers everything). *)
Record named_pipe_t : Type := mk_pipe {
  written : list (Z * list trace_entry_t);
  returns : list Z
}.

(** Modelled from the spec: [named_pipe_t::write] of ../common/named_pipe.h,
    which is not among the sources at hand; one operation, send(bytes), over
    the one ordered channel, with no framing beyond the byte range handed
    over (section 4.3).  [ipc_pipe.write(buf, sz)] gives the value
    returned, never more than [sz], and the pipe afterwards; [msg] is what
    the [sz] bytes at [buf] hold. *)
Definition pipe_write (p : named_pipe_t) (who : Z) (msg : list trace_entry_t)
    (sz : Z) : Z * named_pipe_t :=
  match returns p with
  | [] => (sz, mk_pipe (written p ++ [(who, msg)]) [])
  | r :: rs =>
      let ret := Z.min r sz in
      (ret, mk_pipe (if ret <? sz then written p else written p ++ [(who, msg)]) rs)
  end.

(** ** Registers and spill slots of the host *)

Inductive reg_id_t : Type :=
| DR_REG_NULL
| DR_REG_XAX | DR_REG_XCX | DR_REG_XDX | DR_REG_XBX
| DR_REG_XSP | DR_REG_XBP | DR_REG_XSI | DR_REG_XDI
| DR_REG_R0 | DR_REG_R1 | DR_REG_R2 | DR_REG_R3.

#[global] Instance reg_id_eq_dec : EqDecision reg_id_t.
Proof. solve_decision. Defined.

Inductive dr_spill_slot_t : Type :=
| SPILL_SLOT_1 | SPILL_SLOT_2 | SPILL_SLOT_3.

#[global] Instance spill_slot_eq_dec : EqDecision dr_spill_slot_t.
Proof. solve_decision. Defined.

Definition slot_ptr : dr_spill_slot_t := SPILL_SLOT_2.
Definition slot_tmp : dr_spill_slot_t := SPILL_SLOT_3.

Definition regfile : Type := reg_id_t -> Z.

Definition set_reg (rs : regfile) (r : reg_id_t) (v : Z) : regfile :=
  fun x => if decide (x = r) then v else rs x.

Definition set_slot (ss : dr_spill_slot_t -> Z) (s : dr_spill_slot_t) (v : Z)
    : dr_spill_slot_t -> Z :=
  fun x => if decide (x = s) then v else ss x.

(** ** Per-thread data *)

(** [per_thread_t] *)
Record per_thread_t : Type := mk_per_thread {
  seg_base : Z;
  buf_base : Z;
  num_refs : Z;             (* uint64 *)
  thread_registered : bool
}.

(** What [drcontext] gives access to: the thread's identifier, its registers
    and spill slots, the raw TLS slot [BUF_PTR(seg_base)], the memory that
    holds its trace buffer, and the drmgr TLS field with its
    [per_thread_t]. *)
Record dcontext : Type := mk_dcontext {
  thread_id : Z;
  regs : regfile;
  spill : dr_spill_slot_t -> Z;
  BUF_PTR : Z;
  mem : memory;
  tls_field : per_thread_t
}.

Definition set_BUF_PTR (dc : dcontext) (p : Z) : dcontext :=
  mk_dcontext (thread_id dc) (regs dc) (spill dc) p (mem dc) (tls_field dc).

Definition set_mem (dc : dcontext) (m : memory) : dcontext :=
  mk_dcontext (thread_id dc) (regs dc) (spill dc) (BUF_PTR dc) m (tls_field dc).

Definition set_regs (dc : dcontext) (rs : regfile) : dcontext :=
  mk_dcontext (thread_id dc) rs (spill dc) (BUF_PTR dc) (mem dc) (tls_field dc).

Definition set_spill (dc : dcontext) (ss : dr_spill_slot_t -> Z) : dcontext :=
  mk_dcontext (thread_id dc) (regs dc) ss (BUF_PTR dc) (mem dc) (tls_field dc).

Definition set_tls_field (dc : dcontext) (d : per_thread_t) : dcontext :=
  mk_dcontext (thread_id dc) (regs dc) (spill dc) (BUF_PTR dc) (mem dc) d.

Definition set_num_refs (d : per_thread_t) (n : Z) : per_thread_t :=
  mk_per_thread (seg_base d) (buf_base d) n (thread_registered d).

Definition set_thread_registered (d : per_thread_t) (b : bool) : per_thread_t :=
  mk_per_thread (seg_base d) (buf_base d) (num_refs d) b.

Section Tracer.

Context {H : trace_entry_h}.

(** The process identifier, [dr_get_process_id()]. *)
Variable process_id : Z.

(** ** Entries in memory *)

Definition store_entry (m : memory) (a : Z) (e : trace_entry_t) : memory :=
  mem_store
    (mem_store
       (mem_store m (a + offsetof_type) (wrap16 (type e)))
       (a + offsetof_size) (wrap16 (size e)))
    (a + offsetof_addr) (wrap64 (addr e)).

Definition load_entry (m : memory) (a : Z) : trace_entry_t :=
  mk_entry (m (a + offsetof_type)) (m (a + offsetof_size)) (m (a + offsetof_addr)).

(** The [n] entries that start at address [a]. *)
Fixpoint load_entries (m : memory) (a : Z) (n : nat) : list trace_entry_t :=
  match n with
  | O => []
  | S k => load_entry m a :: load_entries m (a + sizeof_trace_entry_t) k
  end.

(** The header [memtrace] writes, and the second entry of [pid_info]. *)
Definition thread_entry (tid : Z) : trace_entry_t :=
  mk_entry (wrap16 TRACE_TYPE_THREAD) (wrap16 sizeof_thread_id_t) (wrap64 tid).

Definition pid_entry : trace_entry_t :=
  mk_entry (wrap16 TRACE_TYPE_PID) (wrap16 sizeof_process_id_t) (wrap64 process_id).

(** ** memtrace *)

(** The loop [for (mem_ref = buf_base; mem_ref < buf_ptr; mem_ref++)
    data->num_refs++;].  It makes at most [buf_ptr - buf_base] rounds, which
    is the fuel [memtrace] gives it. *)
Fixpoint count_refs (fuel : nat) (mem_ref buf_ptr n : Z) : Z :=
  match fuel with
  | O => n
  | S f =>
      if mem_ref <? buf_ptr
      then count_refs f (mem_ref + sizeof_trace_entry_t) buf_ptr (wrap64 (n + 1))
      else n
  end.

(** [buf_ptr - data->buf_base], a difference of [trace_entry_t] pointers. *)
Definition ptr_diff (buf_ptr base : Z) : Z :=
  (buf_ptr - base) / sizeof_trace_entry_t.

Definition memtrace (dc : dcontext) (pipe : named_pipe_t) (delay : bool)
    : outcome (dcontext * named_pipe_t) :=
  let data := tls_field dc in
  let buf_ptr := BUF_PTR dc in
  (* delay dumping the buffer until it is half-filled *)
  if delay && (ptr_diff buf_ptr (buf_base data) <? MAX_NUM_MEM_REFS / 2)
  then Done (dc, pipe)
  else
    (* the initial slot is left empty for the thread entry *)
    let header := buf_base data in
    let m := store_entry (mem dc) header
               (mk_entry TRACE_TYPE_THREAD sizeof_thread_id_t (thread_id dc)) in
    '(data, pipe) ←
      (if negb (thread_registered data)
       then
         let pid_info :=
           [load_entry m header;
            mk_entry (wrap16 TRACE_TYPE_PID) (wrap16 sizeof_process_id_t)
                     (wrap64 process_id)] in
         let data := set_thread_registered data true in
         let '(ret, pipe) :=
           pipe_write pipe (thread_id dc) pid_info (2 * sizeof_trace_entry_t) in
         _ ← DR_ASSERT (negb (ret <? 2 * sizeof_trace_entry_t));
         Done (data, pipe)
       else Done (data, pipe));
    let data :=
      set_num_refs data
        (count_refs (Z.to_nat (buf_ptr - buf_base data)) (buf_base data) buf_ptr
                    (num_refs data)) in
    let towrite := buf_ptr - buf_base data in
    let '(ret, pipe) :=
      pipe_write pipe (thread_id dc)
        (load_entries m (buf_base data) (Z.to_nat (towrite / sizeof_trace_entry_t)))
        towrite in
    _ ← DR_ASSERT (negb (ret <? towrite));
    Done (mk_dcontext (thread_id dc) (regs dc) (spill dc)
            (buf_base data + BUF_HDR_SLOTS * sizeof_trace_entry_t) m data,
          pipe).

(** [clean_call] *)
Definition clean_call (dc : dcontext) (pipe : named_pipe_t)
    : outcome (dcontext * named_pipe_t) :=
  memtrace dc pipe true.

End Tracer.

(** ** Operands and instructions of the host

    The tracer sees operands and instructions through the queries of
    dr_api.h and drutil.h only, which are not among the sources at hand.
    An operand is a register, an immediate or one of two kinds of memory
    reference, with one of a few widths; an instruction is described by the
    answers to the queries the tracer makes about it. *)

Inductive opnd_size_t : Type :=
| OPSZ_1 | OPSZ_2 | OPSZ_4 | OPSZ_8 | OPSZ_10 | OPSZ_16 | OPSZ_32 | OPSZ_64.

Definition opnd_size_in_bytes (s : opnd_size_t) : Z :=
  match s with
  | OPSZ_1 => 1 | OPSZ_2 => 2 | OPSZ_4 => 4 | OPSZ_8 => 8
  | OPSZ_10 => 10 | OPSZ_16 => 16 | OPSZ_32 => 32 | OPSZ_64 => 64
  end.

Inductive opnd_t : Type :=
| opnd_create_reg (r : reg_id_t)
| opnd_create_immed_int (v : Z)
| opnd_create_base_disp (base index : reg_id_t) (scale disp : Z) (sz : opnd_size_t)
| opnd_create_abs_addr (a : Z) (sz : opnd_size_t).

Definition opnd_is_memory_reference (o : opnd_t) : bool :=
  match o with
  | opnd_create_base_disp _ _ _ _ _ | opnd_create_abs_addr _ _ => true
  | _ => false
  end.

Definition opnd_uses_reg (o : opnd_t) (r : reg_id_t) : bool :=
  match o with
  | opnd_create_reg r' => bool_decide (r = r')
  | opnd_create_base_disp b i _ _ _ => bool_decide (r = b) || bool_decide (r = i)
  | _ => false
  end.

(** Modelled from the spec: [drutil_opnd_mem_size_in_bytes] of drutil.h,
    the operand's byte width (section 4.1, step 4). *)
Definition drutil_opnd_mem_size_in_bytes (o : opnd_t) : Z :=
  match o with
  | opnd_create_base_disp _ _ _ _ sz | opnd_create_abs_addr _ sz =>
      opnd_size_in_bytes sz
  | _ => 0
  end.

Definition reg_get_value (rs : regfile) (r : reg_id_t) : Z :=
  match r with
  | DR_REG_NULL => 0
  | _ => rs r
  end.

(** Modelled from the spec: the effective address computed from the
    operand (section 4.1, step 4), under the register values [rs]. *)
Definition opnd_compute_address (o : opnd_t) (rs : regfile) : Z :=
  match o with
  | opnd_create_base_disp b i sc d _ =>
      wrap64 (reg_get_value rs b + reg_get_value rs i * sc + d)
  | opnd_create_abs_addr a _ => wrap64 a
  | _ => 0
  end.

Record instr_t : Type := mk_instr {
  instr_is_app : bool;
  instr_reads_memory : bool;
  instr_writes_memory : bool;
  instr_srcs : list opnd_t;
  instr_dsts : list opnd_t;
  instr_is_predicated : bool;
  instr_is_exclusive_store : bool;
  instr_get_opcode : Z;
  instr_length : Z;
  instr_get_app_pc : Z
}.

Inductive arch_t : Type := X86 | ARM.

Definition IF_X86_ELSE {A} (arch : arch_t) (x y : A) : A :=
  match arch with X86 => x | ARM => y end.

(** ** Meta instructions

    What the tracer asks the host to insert in front of an application
    instruction, one constructor per insertion routine or instruction
    creation macro it calls.  The raw TLS slot read and written is always
    [tls_offs + MEMTRACE_TLS_OFFS_BUF_PTR]. *)
Inductive minstr : Type :=
| dr_save_reg (r : reg_id_t) (s : dr_spill_slot_t)
| dr_restore_reg (r : reg_id_t) (s : dr_spill_slot_t)
| dr_insert_read_raw_tls (r : reg_id_t)
| dr_insert_write_raw_tls (r : reg_id_t)
| XINST_CREATE_add (r : reg_id_t) (imm : Z)
| XINST_CREATE_load_int (r : reg_id_t) (imm : Z)      (* into the 2 byte part of r *)
| XINST_CREATE_store_2bytes (base : reg_id_t) (disp : Z) (r : reg_id_t)
| XINST_CREATE_store (base : reg_id_t) (disp : Z) (r : reg_id_t)
| drutil_insert_get_mem_addr (ref : opnd_t) (dst scratch : reg_id_t)
| instrlist_insert_mov_immed_ptrsz (v : Z) (dst : reg_id_t)
| dr_insert_clean_call.

(** [user_data_t] *)
Record user_data_t : Type := mk_user_data {
  clean_call_inserted : bool
}.

Section Instrumentation.

Context {H : trace_entry_h}.
Variable process_id : Z.

(** What [drutil_insert_get_mem_addr] leaves in its scratch register. *)
Variable scratch_value : opnd_t -> regfile -> Z.

(** ** The insertion routines

    Every routine inserts in front of the same instruction [where], so what
    it inserts runs in the order of insertion: each routine returns the
    meta instructions it inserts, in that order. *)

Definition insert_load_buf_ptr (reg_ptr : reg_id_t) : list minstr :=
  [dr_insert_read_raw_tls reg_ptr].

Definition insert_update_buf_ptr (reg_ptr : reg_id_t) (adjust : Z) : list minstr :=
  [XINST_CREATE_add reg_ptr adjust; dr_insert_write_raw_tls reg_ptr].

Definition insert_save_type (base scratch : reg_id_t) (ty : Z) (adjust : Z)
    : list minstr :=
  let disp := adjust + offsetof_type in
  [XINST_CREATE_load_int scratch ty; XINST_CREATE_store_2bytes base disp scratch].

Definition insert_save_size (base scratch : reg_id_t) (sz : Z) (adjust : Z)
    : list minstr :=
  let disp := adjust + offsetof_size in
  [XINST_CREATE_load_int scratch sz; XINST_CREATE_store_2bytes base disp scratch].

(** [insert_save_addr].  [drutil_insert_get_mem_addr] is asked for memory
    references only, which it handles: the [DR_ASSERT(ok)] holds. *)
Definition insert_save_addr (ref : opnd_t) (reg_ptr reg_addr : reg_id_t)
    (adjust : Z) : list minstr :=
  let disp := adjust + offsetof_addr in
  (if opnd_uses_reg ref reg_ptr then [dr_restore_reg reg_ptr slot_ptr] else []) ++
  (if opnd_uses_reg ref reg_addr then [dr_restore_reg reg_addr slot_tmp] else []) ++
  (* we use reg_ptr as scratch to get addr *)
  [drutil_insert_get_mem_addr ref reg_addr reg_ptr] ++
  insert_load_buf_ptr reg_ptr ++
  [XINST_CREATE_store reg_ptr disp reg_addr].

(** [insert_save_pc].  The host moves the pointer-sized immediate with one
    instruction or two, [mov1] and [mov2], of which the first is always
    there: the [DR_ASSERT(mov1 != NULL)] holds. *)
Definition insert_save_pc (base scratch : reg_id_t) (pc : Z) (adjust : Z)
    : list minstr :=
  let disp := adjust + offsetof_addr in
  [instrlist_insert_mov_immed_ptrsz pc scratch;
   XINST_CREATE_store base disp scratch].

(** [instrument_instr]: an entry for the instruction itself. *)
Definition instrument_instr (instr : instr_t) (reg_ptr reg_tmp : reg_id_t)
    (adjust : Z) : list minstr :=
  insert_save_type reg_ptr reg_tmp (wrap16 (instr_get_opcode instr)) adjust ++
  insert_save_size reg_ptr reg_tmp (wrap16 (instr_length instr)) adjust ++
  insert_save_pc reg_ptr reg_tmp (instr_get_app_pc instr) adjust.

(** [instrument_mem] *)
Definition instrument_mem (ref : opnd_t) (write : bool)
    (reg_ptr reg_tmp : reg_id_t) (adjust : Z) : list minstr :=
  insert_save_type reg_ptr reg_tmp
    (if write then TRACE_TYPE_WRITE else TRACE_TYPE_READ) adjust ++
  insert_save_size reg_ptr reg_tmp
    (wrap16 (drutil_opnd_mem_size_in_bytes ref)) adjust ++
  insert_save_addr ref reg_ptr reg_tmp adjust.

(** One of the two loops of [event_app_instruction] over the operands
    [ops], from the running [adjust]: the code inserted and the [adjust]
    reached. *)
Fixpoint instrument_opnds (ops : list opnd_t) (write : bool)
    (reg_ptr reg_tmp : reg_id_t) (adjust : Z) : list minstr * Z :=
  match ops with
  | [] => ([], adjust)
  | o :: rest =>
      if opnd_is_memory_reference o
      then
        let c := instrument_mem o write reg_ptr reg_tmp adjust in
        let '(cs, adjust) :=
          instrument_opnds rest write reg_ptr reg_tmp (adjust + sizeof_trace_entry_t) in
        (c ++ cs, adjust)
      else instrument_opnds rest write reg_ptr reg_tmp adjust
  end.

Definition reg_ptr_of (arch : arch_t) : reg_id_t := IF_X86_ELSE arch DR_REG_XCX DR_REG_R1.
Definition reg_tmp_of (arch : arch_t) : reg_id_t := IF_X86_ELSE arch DR_REG_XBX DR_REG_R2.

(** The condition under which [event_app_instruction] inserts the clean
    call. *)
Definition clean_call_wanted (arch : arch_t) (instr : instr_t)
    (user_data : user_data_t) : bool :=
  negb (clean_call_inserted user_data) &&
  IF_X86_ELSE arch true (negb (instr_is_predicated instr)) &&
  match arch with
  | X86 => true
  | ARM => negb (instr_is_exclusive_store instr)
  end.

(** [event_app_instruction]: the code inserted in front of [instr] and the
    block's user data afterwards. *)
Definition event_app_instruction (arch : arch_t) (instr : instr_t)
    (user_data : user_data_t) : list minstr * user_data_t :=
  let reg_ptr := reg_ptr_of arch in
  let reg_tmp := reg_tmp_of arch in
  if negb (instr_is_app instr) then ([], user_data)
  else if negb (instr_reads_memory instr) && negb (instr_writes_memory instr)
  then ([], user_data)
  else
    (* we need two scratch registers *)
    let c0 :=
      [dr_save_reg reg_ptr slot_ptr; dr_save_reg reg_tmp slot_tmp] ++
      insert_load_buf_ptr reg_ptr in
    let adjust := 0 in
    (* an entry for the app instruction: disabled, if (false) *)
    let '(ci, adjust) :=
      if false
      then (instrument_instr instr reg_ptr reg_tmp adjust,
            adjust + sizeof_trace_entry_t)
      else ([], adjust) in
    (* an entry for each memory reference opnd *)
    let '(c1, adjust) := instrument_opnds (instr_srcs instr) false reg_ptr reg_tmp adjust in
    let '(c2, adjust) := instrument_opnds (instr_dsts instr) true reg_ptr reg_tmp adjust in
    (* update buf ptr once per instr, restore scratch registers *)
    let c3 :=
      insert_update_buf_ptr reg_ptr adjust ++
      [dr_restore_reg reg_ptr slot_ptr; dr_restore_reg reg_tmp slot_tmp] in
    if clean_call_wanted arch instr user_data
    then (c0 ++ ci ++ c1 ++ c2 ++ c3 ++ [dr_insert_clean_call], mk_user_data true)
    else (c0 ++ ci ++ c1 ++ c2 ++ c3, user_data).

(** [event_bb_app2app]: the user data a block starts with.  The expansion
    of string loops it also asks of the host changes the block before its
    instructions are visited; it is taken to succeed, so that the
    [DR_ASSERT(false)] behind a failed [drutil_expand_rep_string] is not
    reached. *)
Definition event_bb_app2app : user_data_t := mk_user_data false.

(** The host calls [event_bb_app2app] once for a block and then
    [event_app_instruction] for each of its instructions in order, handing
    the block's user data along: every instruction with the code inserted
    in front of it. *)
Fixpoint instrument_instrs (arch : arch_t) (bb : list instr_t)
    (user_data : user_data_t) : list (instr_t * list minstr) :=
  match bb with
  | [] => []
  | i :: rest =>
      let '(c, user_data) := event_app_instruction arch i user_data in
      (i, c) :: instrument_instrs arch rest user_data
  end.

Definition instrument_bb (arch : arch_t) (bb : list instr_t)
    : list (instr_t * list minstr) :=
  instrument_instrs arch bb event_bb_app2app.

(** ** Running the inserted code

    The inserted code works on the buffer pointer: it adds to it and stores
    relative to it.  These are pointers into one allocated block, and
    their arithmetic is that of addresses, without wrap-around; a store
    that leaves the block is a [Fault].  What the code stores are 16 bit
    and 64 bit values.  The immediates of the inserted instructions are
    taken as they are: displacements and adjustments stay far below the
    16 bits of [OPND_CREATE_INT16] for the operand counts of an
    instruction. *)

Definition MEM_BUF_SIZE : Z := sizeof_trace_entry_t * MAX_NUM_MEM_REFS.

(** Is address [a] inside the thread's trace buffer? *)
Definition in_buffer (dc : dcontext) (a : Z) : bool :=
  (buf_base (tls_field dc) <=? a) && (a <? buf_base (tls_field dc) + MEM_BUF_SIZE).

Definition store_checked (dc : dcontext) (a v : Z) : outcome dcontext :=
  if in_buffer dc a then Done (set_mem dc (mem_store (mem dc) a v)) else Fault.

(** The low 16 bits of [old] replaced by those of [v]. *)
Definition set_low16 (old v : Z) : Z := old - wrap16 old + wrap16 v.

(** Modelled from the spec: what the host makes of the meta instructions
    (dr_api.h, drmgr.h and drutil.h are not among the sources at hand):
    scratch registers are saved to and restored from spill slots, the
    thread-local pointer to the next free slot is read and written, 16 bit
    and pointer-sized stores go to base plus displacement, the effective
    address of an operand is computed from the registers' current values
    into [dst] with [scratch] left undetermined, and the clean call runs
    [clean_call] with the application's registers preserved (section 4.1,
    steps 2 to 7). *)
Definition exec_minstr (i : minstr) (st : dcontext * named_pipe_t)
    : outcome (dcontext * named_pipe_t) :=
  let '(dc, pipe) := st in
  match i with
  | dr_save_reg r s =>
      Done (set_spill dc (set_slot (spill dc) s (regs dc r)), pipe)
  | dr_restore_reg r s =>
      Done (set_regs dc (set_reg (regs dc) r (spill dc s)), pipe)
  | dr_insert_read_raw_tls r =>
      Done (set_regs dc (set_reg (regs dc) r (BUF_PTR dc)), pipe)
  | dr_insert_write_raw_tls r =>
      Done (set_BUF_PTR dc (regs dc r), pipe)
  | XINST_CREATE_add r imm =>
      Done (set_regs dc (set_reg (regs dc) r (regs dc r + imm)), pipe)
  | XINST_CREATE_load_int r imm =>
      Done (set_regs dc (set_reg (regs dc) r (set_low16 (regs dc r) imm)), pipe)
  | XINST_CREATE_store_2bytes base disp r =>
      dc ← store_checked dc (regs dc base + disp) (wrap16 (regs dc r));
      Done (dc, pipe)
  | XINST_CREATE_store base disp r =>
      dc ← store_checked dc (regs dc base + disp) (wrap64 (regs dc r));
      Done (dc, pipe)
  | drutil_insert_get_mem_addr ref dst scratch =>
      let a := opnd_compute_address ref (regs dc) in
      let g := scratch_value ref (regs dc) in
      Done (set_regs dc (set_reg (set_reg (regs dc) scratch g) dst a), pipe)
  | instrlist_insert_mov_immed_ptrsz v dst =>
      Done (set_regs dc (set_reg (regs dc) dst (wrap64 v)), pipe)
  | dr_insert_clean_call =>
      clean_call process_id dc pipe
  end.

Fixpoint exec_code (c : list minstr) (st : dcontext * named_pipe_t)
    : outcome (dcontext * named_pipe_t) :=
  match c with
  | [] => Done st
  | i :: rest => st ← exec_minstr i st; exec_code rest st
  end.

End Instrumentation.

(** ** Threads and the process *)

(** The statements of [event_thread_exit], one by one.  The update
    [num_refs += data->num_refs] of the global counter is a read of the
    counter followed by a write of the sum. *)
Inductive exit_stmt : Type :=
| stmt_memtrace           (* memtrace(drcontext, false) *)
| stmt_mutex_lock         (* dr_mutex_lock(mutex) *)
| stmt_load_num_refs      (* num_refs += data->num_refs, the read *)
| stmt_store_num_refs     (* num_refs += data->num_refs, the write *)
| stmt_mutex_unlock       (* dr_mutex_unlock(mutex) *)
| stmt_raw_mem_free       (* dr_raw_mem_free(data->buf_base, MEM_BUF_SIZE) *)
| stmt_thread_free.       (* dr_thread_free(drcontext, data, ...) *)

Definition exit_stmt_eqb (a b : exit_stmt) : bool :=
  match a, b with
  | stmt_memtrace, stmt_memtrace
  | stmt_mutex_lock, stmt_mutex_lock
  | stmt_load_num_refs, stmt_load_num_refs
  | stmt_store_num_refs, stmt_store_num_refs
  | stmt_mutex_unlock, stmt_mutex_unlock
  | stmt_raw_mem_free, stmt_raw_mem_free
  | stmt_thread_free, stmt_thread_free => true
  | _, _ => false
  end.

#[global] Instance exit_stmt_eq_dec : EqDecision exit_stmt.
Proof. solve_decision. Defined.

(** [event_thread_exit] *)
Definition event_thread_exit : list exit_stmt :=
  [stmt_memtrace; stmt_mutex_lock; stmt_load_num_refs; stmt_store_num_refs;
   stmt_mutex_unlock; stmt_raw_mem_free; stmt_thread_free].

(** A thread runs instrumented code ([Active]), is inside
    [event_thread_exit] with the statements in [Exiting] still to run, or
    is gone. *)
Inductive thread_status : Type :=
| Active
| Exiting (todo : list exit_stmt)
| Exited.

#[global] Instance thread_status_eq_dec : EqDecision thread_status.
Proof. solve_decision. Defined.

Record thread : Type := mk_thread {
  status : thread_status;
  ctx : dcontext;
  loaded : Z;            (* the global num_refs as read by stmt_load_num_refs *)
  buffer_live : bool     (* false once dr_raw_mem_free has run *)
}.

Record process : Type := mk_process {
  threads : gmap Z thread;
  g_num_refs : Z;              (* static uint64 num_refs *)
  mutex : option Z;            (* the thread that holds the mutex *)
  ipc_pipe : named_pipe_t
}.

(** [dr_init]: no thread yet, counter zero, mutex free, pipe open. *)
Definition dr_init (pipe_returns : list Z) : process :=
  mk_process ∅ 0 None (mk_pipe [] pipe_returns).

(** What the scheduler and the environment choose. *)
Inductive event : Type :=
| ev_thread_init (tid seg buf : Z) (rs : regfile) (ss : dr_spill_slot_t -> Z)
                 (m : memory)
| ev_instr (tid : Z) (instr : instr_t) (user_data : user_data_t) (rs : regfile)
| ev_exit_step (tid : Z).

Section Process.

Context {H : trace_entry_h}.
Variable process_id : Z.
Variable scratch_value : opnd_t -> regfile -> Z.
Variable arch : arch_t.

(** [event_thread_init], for the thread [tid] whose TLS segment is at [seg]
    and to which [dr_raw_mem_alloc] hands the block at [buf]; registers,
    spill slots and memory hold what they hold.  [dr_thread_alloc] is taken
    to give the block for the [per_thread_t]: the [DR_ASSERT(data != NULL)]
    holds, and the assertion left is the one on [seg_base] and
    [buf_base]. *)
Definition event_thread_init (tid seg buf : Z) (rs : regfile)
    (ss : dr_spill_slot_t -> Z) (m : memory) : outcome dcontext :=
  _ ← DR_ASSERT (negb (seg =? 0) && negb (buf =? 0));
  Done (mk_dcontext tid rs ss (buf + BUF_HDR_SLOTS * sizeof_trace_entry_t) m
          (mk_per_thread seg buf 0 false)).

(** One statement of [event_thread_exit] run by thread [tid], whose record
    is [th] and which has [rest] left to do afterwards.  A thread that finds
    the mutex taken waits: nothing changes. *)
Definition exit_step (p : process) (tid : Z) (th : thread) (s : exit_stmt)
    (rest : list exit_stmt) : outcome process :=
  let next := match rest with [] => Exited | _ => Exiting rest end in
  match s with
  | stmt_memtrace =>
      '(dc, pipe) ← memtrace process_id (ctx th) (ipc_pipe p) false;
      Done (mk_process
              (<[tid := mk_thread next dc (loaded th) (buffer_live th)]> (threads p))
              (g_num_refs p) (mutex p) pipe)
  | stmt_mutex_lock =>
      match mutex p with
      | Some _ => Done p
      | None =>
          Done (mk_process
                  (<[tid := mk_thread next (ctx th) (loaded th) (buffer_live th)]>
                     (threads p))
                  (g_num_refs p) (Some tid) (ipc_pipe p))
      end
  | stmt_load_num_refs =>
      Done (mk_process
              (<[tid := mk_thread next (ctx th) (g_num_refs p) (buffer_live th)]>
                 (threads p))
              (g_num_refs p) (mutex p) (ipc_pipe p))
  | stmt_store_num_refs =>
      Done (mk_process
              (<[tid := mk_thread next (ctx th) (loaded th) (buffer_live th)]>
                 (threads p))
              (wrap64 (loaded th + num_refs (tls_field (ctx th))))
              (mutex p) (ipc_pipe p))
  | stmt_mutex_unlock =>
      Done (mk_process
              (<[tid := mk_thread next (ctx th) (loaded th) (buffer_live th)]>
                 (threads p))
              (g_num_refs p) None (ipc_pipe p))
  | stmt_raw_mem_free =>
      Done (mk_process
              (<[tid := mk_thread next (ctx th) (loaded th) false]> (threads p))
              (g_num_refs p) (mutex p) (ipc_pipe p))
  | stmt_thread_free =>
      Done (mk_process
              (<[tid := mk_thread next (ctx th) (loaded th) (buffer_live th)]>
                 (threads p))
              (g_num_refs p) (mutex p) (ipc_pipe p))
  end.

(** One step of the process.  An event that cannot happen in the state at
    hand (a thread identifier in use or unknown, an instruction of a thread
    that has left its code) changes nothing. *)
Definition step (p : process) (e : event) : outcome process :=
  match e with
  | ev_thread_init tid seg buf rs ss m =>
      match threads p !! tid with
      | Some _ => Done p
      | None =>
          dc ← event_thread_init tid seg buf rs ss m;
          Done (mk_process (<[tid := mk_thread Active dc 0 true]> (threads p))
                  (g_num_refs p) (mutex p) (ipc_pipe p))
      end
  | ev_instr tid instr user_data rs =>
      match threads p !! tid with
      | Some th =>
          match status th with
          | Active =>
              let code := fst (event_app_instruction arch instr user_data) in
              '(dc, pipe) ←
                exec_code process_id scratch_value code
                  (set_regs (ctx th) rs, ipc_pipe p);
              Done (mk_process
                      (<[tid := mk_thread Active dc (loaded th) (buffer_live th)]>
                         (threads p))
                      (g_num_refs p) (mutex p) pipe)
          | _ => Done p
          end
      | None => Done p
      end
  | ev_exit_step tid =>
      match threads p !! tid with
      | Some th =>
          match status th with
          | Active =>
              match event_thread_exit with
              | s :: rest => exit_step p tid th s rest
              | [] => Done p
              end
          | Exiting (s :: rest) => exit_step p tid th s rest
          | _ => Done p
          end
      | None => Done p
      end
  end.

Fixpoint run (es : list event) (p : process) : outcome process :=
  match es with
  | [] => Done p
  | e :: es => p ← step p e; run es p
  end.

End Process.

(** ** Options

    [options_init] reads the client's option string with [dr_get_options]
    and [dr_get_token] of dr_api.h, which are the host's.  The option
    string is taken as the tokens that successive calls of [dr_get_token]
    give, each as it is left in a buffer of [MAXIMUM_PATH] characters (the
    size of [token] and of [options.ipc_name] alike); [dr_get_token]
    returns [NULL] when no token is left. *)

(** [options_t] *)
Record options_t : Type := mk_options {
  ipc_name : string
}.

(** [static options_t options], zero-initialised. *)
Definition options : options_t := mk_options EmptyString.

(** What the client reports: a line printed to [STDERR], or the message of
    a failed [DR_ASSERT_MSG]. *)
Inductive report : Type :=
| dr_fprintf_STDERR (text : string)
| DR_ASSERT_MSG (msg : string).

(** [static int verbose], never assigned. *)
Definition verbose : Z := 0.

Definition NOTIFY (level : Z) (text : string) (out : list report) : list report :=
  if level <=? verbose then out ++ [dr_fprintf_STDERR text] else out.

(** Modelled from the spec: [USAGE_CHECK(x, msg)] is [DR_ASSERT_MSG(x, msg)]
    of dr_api.h, which is not among the sources at hand; a failed check is a
    fatal configuration error and aborts at startup (section 7).  The
    message is kept among what is reported. *)
Definition USAGE_CHECK (x : bool) (msg : string) (out : list report)
    : list report * outcome unit :=
  if x then (out, Done tt) else (out ++ [DR_ASSERT_MSG msg], Aborted).

(** The line [UNRECOGNIZED OPTION: "%s"\n]. *)
Definition unrecognized_option (token : string) : string :=
  let quote := String (Ascii.ascii_of_nat 34) EmptyString in
  let newline := String (Ascii.ascii_of_nat 10) EmptyString in
  String.append "UNRECOGNIZED OPTION: "
    (String.append quote (String.append token (String.append quote newline))).

(** The loop of [options_init] over the tokens [s] still to read. *)
Fixpoint options_tokens (s : list string) (o : options_t) (out : list report)
    : list report * outcome options_t :=
  match s with
  | [] => (out, Done o)
  | token :: s =>
      if String.eqb token "-ipc"
      then
        (* s = dr_get_token(s, options.ipc_name, ...); USAGE_CHECK(s != NULL, ...) *)
        match s with
        | name :: s => options_tokens s (mk_options name) out
        | [] => (fst (USAGE_CHECK false "missing ipc name" out), Aborted)
        end
      else
        let out := NOTIFY 0 (unrecognized_option token) out in
        (fst (USAGE_CHECK false "invalid option" out), Aborted)
  end.

(** [options_init]: what is reported, and the options if it returns. *)
Definition options_init (opstr : list string) : list report * outcome options_t :=
  let '(out, r) := options_tokens opstr options [] in
  match r with
  | Done o =>
      let '(out, r) :=
        USAGE_CHECK (negb (String.eqb (ipc_name o) EmptyString))
                    "-ipc <name> is required" out in
      (out, _ ← r; Done o)
  | Aborted => (out, Aborted)
  | Fault => (out, Fault)
  end.

(** ** Vocabulary of the statements *)

Section Vocabulary.

Context {H : trace_entry_h}.
Variable process_id : Z.

(** The cells of the entry at [a]. *)
Definition entry_cell (a x : Z) : Prop :=
  x = a + offsetof_type \/ x = a + offsetof_size \/ x = a + offsetof_addr.

(** The write cursor stands [k] entries past the buffer base. *)
Definition cursor_at (dc : dcontext) (k : Z) : Prop :=
  BUF_PTR dc = buf_base (tls_field dc) + k * sizeof_trace_entry_t.

(** The entries between the header slot and a cursor at [k]. *)
Definition buffered (dc : dcontext) (k : Z) : list trace_entry_t :=
  load_entries (mem dc) (buf_base (tls_field dc) + sizeof_trace_entry_t)
               (Z.to_nat (k - 1)).

(** Does [memtrace] return without doing anything? *)
Definition deferred (dc : dcontext) (delay : bool) : bool :=
  delay && (ptr_diff (BUF_PTR dc) (buf_base (tls_field dc)) <? MAX_NUM_MEM_REFS / 2).

(** The sizes of the writes a flush asks of the pipe, in order. *)
Definition flush_writes (dc : dcontext) : list Z :=
  (if thread_registered (tls_field dc) then [] else [2 * sizeof_trace_entry_t]) ++
  [BUF_PTR dc - buf_base (tls_field dc)].

(** Do the values the pipe is going to return cover the sizes asked, one
    write after the other? *)
Fixpoint all_full (rets sizes : list Z) {struct sizes} : bool :=
  match sizes, rets with
  | [], _ => true
  | _ :: _, [] => true
  | s :: sizes, r :: rets => (s <=? r) && all_full rets sizes
  end.

(** The registration message. *)
Definition pid_info (tid : Z) : list trace_entry_t :=
  [thread_entry tid; pid_entry process_id].

(** What a flush by thread [tid] hands to the pipe: the registration
    message if the thread is not registered yet, then the buffer from the
    header up to the cursor. *)
Definition flush_messages (dc : dcontext) (k : Z) : list (Z * list trace_entry_t) :=
  (if thread_registered (tls_field dc) then []
   else [(thread_id dc, pid_info (thread_id dc))]) ++
  [(thread_id dc, thread_entry (thread_id dc) :: buffered dc k)].

(** The thread's context after a flush from a cursor at [k]. *)
Definition flushed (dc : dcontext) (k : Z) : dcontext :=
  mk_dcontext (thread_id dc) (regs dc) (spill dc)
    (buf_base (tls_field dc) + BUF_HDR_SLOTS * sizeof_trace_entry_t)
    (store_entry (mem dc) (buf_base (tls_field dc))
       (mk_entry TRACE_TYPE_THREAD sizeof_thread_id_t (thread_id dc)))
    (mk_per_thread (seg_base (tls_field dc)) (buf_base (tls_field dc))
       (wrap64 (num_refs (tls_field dc) + k)) true).

(** The entry [instrument_mem] makes the inserted code write for the
    memory operand [o], when the application's registers hold [rs]. *)
Definition mem_entry (write : bool) (rs : regfile) (o : opnd_t) : trace_entry_t :=
  mk_entry (wrap16 (if write then TRACE_TYPE_WRITE else TRACE_TYPE_READ))
           (drutil_opnd_mem_size_in_bytes o)
           (opnd_compute_address o rs).

(** Does [event_app_instruction] instrument the instruction? *)
Definition instrumented (instr : instr_t) : bool :=
  instr_is_app instr && (instr_reads_memory instr || instr_writes_memory instr).

(** The memory operands among [ops], in order. *)
Definition mem_opnds (ops : list opnd_t) : list opnd_t :=
  List.filter opnd_is_memory_reference ops.

(** The entries of an instruction: a READ per memory source, then a WRITE
    per memory destination. *)
Definition instr_entries (instr : instr_t) (rs : regfile) : list trace_entry_t :=
  map (mem_entry false rs) (mem_opnds (instr_srcs instr)) ++
  map (mem_entry true rs) (mem_opnds (instr_dsts instr)).

(** While the inserted code runs: [reg_ptr] holds the buffer pointer, the
    two spill slots hold the application's values of the two scratch
    registers, every other register holds the application's value. *)
Definition scratch_inv (rs0 : regfile) (reg_ptr reg_tmp : reg_id_t)
    (dc : dcontext) : Prop :=
  regs dc reg_ptr = BUF_PTR dc /\
  spill dc slot_ptr = rs0 reg_ptr /\
  spill dc slot_tmp = rs0 reg_tmp /\
  forall r, r <> reg_ptr -> r <> reg_tmp -> regs dc r = rs0 r.

(** Nothing of the thread but registers and memory has changed. *)
Definition same_thread (dc dc' : dcontext) : Prop :=
  thread_id dc' = thread_id dc /\ spill dc' = spill dc /\
  BUF_PTR dc' = BUF_PTR dc /\ tls_field dc' = tls_field dc.

(** The code [event_app_instruction] inserts for the entries of an
    instruction, that is, all of it but the clean call. *)
Definition entry_code (arch : arch_t) (instr : instr_t) : list minstr :=
  fst (event_app_instruction arch instr (mk_user_data true)).

(** *** Blocks *)

Definition is_clean_call (i : minstr) : bool :=
  match i with dr_insert_clean_call => true | _ => false end.

(** The clean calls in the code inserted for a block. *)
Definition bb_clean_calls (ibb : list (instr_t * list minstr)) : nat :=
  length (List.filter is_clean_call (concat (map snd ibb))).

(** An instrumented instruction in front of which the clean call may go. *)
Definition tolerates_clean_call (arch : arch_t) (instr : instr_t) : bool :=
  match arch with
  | X86 => true
  | ARM => negb (instr_is_predicated instr) && negb (instr_is_exclusive_store instr)
  end.

Definition eligible (arch : arch_t) (instr : instr_t) : bool :=
  instrumented instr && tolerates_clean_call arch instr.

(** The code in front of an instruction that does not get the clean
    call. *)
Definition plain_code (arch : arch_t) (instr : instr_t) : list minstr :=
  if instrumented instr then entry_code arch instr else [].

(** *** The stream of a thread *)

(** The messages thread [t] has handed to the pipe, in order. *)
Definition msgs_of (t : Z) (log : list (Z * list trace_entry_t))
    : list (list trace_entry_t) :=
  map snd (List.filter (fun x => fst x =? t) log).

Definition is_memref_entry (e : trace_entry_t) : bool :=
  (type e =? wrap16 TRACE_TYPE_READ) || (type e =? wrap16 TRACE_TYPE_WRITE).

Definition is_pid_entry (e : trace_entry_t) : bool :=
  type e =? wrap16 TRACE_TYPE_PID.

(** The READ and WRITE entries among the records thread [t] has sent. *)
Definition recorded_of (t : Z) (log : list (Z * list trace_entry_t)) : Z :=
  Z.of_nat (length (List.filter is_memref_entry (concat (msgs_of t log)))).

(** The flushes thread [t] has performed: each hands one message with the
    buffer to the pipe, and the first of them is preceded by the
    registration message. *)
Definition flushes_of (t : Z) (log : list (Z * list trace_entry_t)) : Z :=
  Z.of_nat (length (tail (msgs_of t log))).

(** A message with a buffer of thread [t]: the header and entries of
    memory references. *)
Definition payload_ok (t : Z) (m : list trace_entry_t) : Prop :=
  exists es, m = thread_entry t :: es /\
             Forall (fun e => is_memref_entry e = true) es.

(** What holds of a thread [t] with context [dc] when the pipe has seen
    [log]: the cursor is inside the buffer, behind it are entries of memory
    references, the thread's messages are the registration (once it is
    registered) and buffers, and its counter is the number of records in
    these buffers. *)
Definition thread_inv (log : list (Z * list trace_entry_t)) (t : Z) (dc : dcontext)
    : Prop :=
  thread_id dc = t /\
  (exists k, cursor_at dc k /\ 1 <= k <= MAX_NUM_MEM_REFS /\
             Forall (fun e => is_memref_entry e = true) (buffered dc k)) /\
  exists payloads,
    msgs_of t log
    = (if thread_registered (tls_field dc) then [pid_info t] else []) ++ payloads /\
    (thread_registered (tls_field dc) = false -> payloads = []) /\
    Forall (payload_ok t) payloads /\
    num_refs (tls_field dc) = wrap64 (Z.of_nat (length (concat payloads))).

(** [dc1] is [dc] with [n] entries of memory references appended behind a
    cursor at [k]. *)
Definition appended (dc dc1 : dcontext) (k : Z) (n : nat) : Prop :=
  thread_id dc1 = thread_id dc /\ tls_field dc1 = tls_field dc /\
  cursor_at dc1 (k + Z.of_nat n) /\
  exists es, length es = n /\
             Forall (fun e => is_memref_entry e = true) es /\
             buffered dc1 (k + Z.of_nat n) = buffered dc k ++ es.

(** *** The global counter *)

Definition has_stmt (s : exit_stmt) (todo : list exit_stmt) : bool :=
  existsb (fun x => exit_stmt_eqb x s) todo.

(** Has the thread added its counter to the global one? *)
Definition folded (th : thread) : bool :=
  match status th with
  | Active => false
  | Exiting todo => negb (has_stmt stmt_store_num_refs todo)
  | Exited => true
  end.

(** Is the thread between [dr_mutex_lock] and [dr_mutex_unlock]? *)
Definition holds_mutex (th : thread) : bool :=
  match status th with
  | Exiting todo => has_stmt stmt_mutex_unlock todo && negb (has_stmt stmt_mutex_lock todo)
  | _ => false
  end.

(** A thread inside [event_thread_exit] has a tail of it left to run. *)
Definition todo_ok (th : thread) : Prop :=
  match status th with
  | Exiting todo =>
      exists n, (1 <= n <= 6)%nat /\ todo = drop n event_thread_exit
  | _ => True
  end.

(** A thread about to write the global counter has read its current
    value. *)
Definition loaded_ok (g : Z) (th : thread) : Prop :=
  match status th with
  | Exiting (stmt_store_num_refs :: _) => loaded th = g
  | _ => True
  end.

Definition sum_threads (f : thread -> Z) (m : gmap Z thread) : Z :=
  map_fold (fun _ th acc => f th + acc) 0 m.

Definition final_num_refs (th : thread) : Z := num_refs (tls_field (ctx th)).

Definition folded_num_refs (th : thread) : Z :=
  if folded th then final_num_refs th else 0.

Definition process_inv (p : process) : Prop :=
  (forall t th, threads p !! t = Some th ->
     thread_inv (written (ipc_pipe p)) t (ctx th) /\ todo_ok th /\
     loaded_ok (g_num_refs p) th /\
     (holds_mutex th = true -> mutex p = Some t)) /\
  (forall t, threads p !! t = None -> msgs_of t (written (ipc_pipe p)) = []) /\
  (forall t, mutex p = Some t ->
     exists th, threads p !! t = Some th /\ holds_mutex th = true) /\
  g_num_refs p = wrap64 (sum_threads folded_num_refs (threads p)).

(** *** Appends between flush checks *)

(** The entries the code in front of an instruction appends. *)
Definition appended_by (instr : instr_t) : Z :=
  if instrumented instr
  then Z.of_nat (length (mem_opnds (instr_srcs instr))
                 + length (mem_opnds (instr_dsts instr)))
  else 0.

Definition event_tid (e : event) : Z :=
  match e with
  | ev_thread_init tid _ _ _ _ _ => tid
  | ev_instr tid _ _ _ => tid
  | ev_exit_step tid => tid
  end.

End Vocabulary.

Section Monitor.

Variable arch : arch_t.

(** Does thread [t], all along the events [es], append at most
    [MAX_NUM_MEM_REFS / 2] entries in every stretch without a clean call
    of its own, that is before its first clean call, between two clean
    calls, and after its last, when it has appended [c] entries since the
    last one (or since its start)? *)
Fixpoint bounded_appends (t : Z) (es : list event) (c : Z) : bool :=
  match es with
  | [] => true
  | ev_instr tid instr ud _ :: es =>
      if tid =? t
      then
        let n := c + appended_by instr in
        (n <=? MAX_NUM_MEM_REFS / 2) &&
        bounded_appends t es
          (if instrumented instr && clean_call_wanted arch instr ud then 0 else n)
      else bounded_appends t es c
  | _ :: es => bounded_appends t es c
  end.

(** The condition in the words of the claim on the append path: does
    thread [t] append at most [MAX_NUM_MEM_REFS / 2] entries between
    consecutive executions of its flush check?  [c] is the number of
    entries appended since its last clean call, if it has executed one;
    what it appends before its first clean call and after its last is not
    between two of them, and is not looked at. *)
Fixpoint appends_between_flush_checks (t : Z) (es : list event) (c : option Z)
    : bool :=
  match es with
  | [] => true
  | ev_instr tid instr ud _ :: es =>
      if tid =? t
      then
        let n := (fun c => c + appended_by instr) <$> c in
        if instrumented instr && clean_call_wanted arch instr ud
        then
          match n with
          | Some n => n <=? MAX_NUM_MEM_REFS / 2
          | None => true
          end
          && appends_between_flush_checks t es (Some 0)
        else appends_between_flush_checks t es n
      else appends_between_flush_checks t es c
  | _ :: es => appends_between_flush_checks t es c
  end.

End Monitor.

(** What the bound on the appends of thread [t] keeps true: while [t] is
    active, its cursor is at most [MAX_NUM_MEM_REFS / 2 - 1] slots, plus
    the [c] entries appended since its last clean call, past the buffer
    base. *)
Definition bound_inv {H : trace_entry_h} (t : Z) (p : process) (c : Z) : Prop :=
  0 <= c /\
  forall th,
    threads p !! t = Some th -> status th = Active ->
    exists k, cursor_at (ctx th) k /\ 1 <= k <= MAX_NUM_MEM_REFS / 2 - 1 + c.

(** *** The trace of a thread

    What thread [t] issues along the events of a run.  The thread starts
    with its first [ev_thread_init] and leaves its code with its first
    [ev_exit_step]; in between, each of its instructions that
    [event_app_instruction] instruments issues the entries of its memory
    operands under the registers the application has at that point. *)

Inductive life : Type := Unborn | Alive | Gone.

Definition life_step (t : Z) (l : life) (e : event) : life :=
  if event_tid e =? t
  then
    match e, l with
    | ev_thread_init _ _ _ _ _ _, Unborn => Alive
    | ev_exit_step _, Alive => Gone
    | _, _ => l
    end
  else l.

Section Trace.

Context {H : trace_entry_h}.

Definition issue (t : Z) (l : life) (e : event) : list trace_entry_t :=
  match e, l with
  | ev_instr tid instr _ rs, Alive =>
      if (tid =? t) && instrumented instr then instr_entries instr rs else []
  | _, _ => []
  end.

Fixpoint issued (t : Z) (l : life) (es : list event) : list trace_entry_t :=
  match es with
  | [] => []
  | e :: es => issue t l e ++ issued t (life_step t l e) es
  end.

(** The READ and WRITE entries thread [t] has handed to the pipe, in
    order. *)
Definition sent_refs (t : Z) (log : list (Z * list trace_entry_t))
    : list trace_entry_t :=
  List.filter is_memref_entry (concat (msgs_of t log)).

(** The entries thread [t] holds in its buffer, between the header slot
    and the cursor. *)
Definition pending (p : process) (t : Z) : list trace_entry_t :=
  match threads p !! t with
  | Some th =>
      buffered (ctx th)
        (ptr_diff (BUF_PTR (ctx th)) (buf_base (tls_field (ctx th))))
  | None => []
  end.

(** Where the process has thread [t] when the events have taken it to
    [l]. *)
Definition life_ok (l : life) (p : process) (t : Z) : Prop :=
  match l with
  | Unborn => threads p !! t = None
  | Alive => exists th, threads p !! t = Some th /\ status th = Active
  | Gone =>
      exists th, threads p !! t = Some th /\ status th <> Active /\
                 cursor_at (ctx th) 1
  end.

(** A message as the consumer may find it on the pipe: the registration
    of its thread, or a buffer, which starts with the header of its
    thread, holds entries of memory references behind it and is no longer
    than the buffer. *)
Definition message_ok (process_id : Z) (x : Z * list trace_entry_t) : Prop :=
  snd x = pid_info process_id (fst x) \/
  (exists es, snd x = thread_entry (fst x) :: es /\
              Forall (fun e => is_memref_entry e = true) es /\
              Z.of_nat (length (snd x)) <= MAX_NUM_MEM_REFS).

(** The entry [instrument_instr] makes the inserted code write for an
    instruction. *)
Definition instr_entry (instr : instr_t) : trace_entry_t :=
  mk_entry (wrap16 (instr_get_opcode instr)) (wrap16 (instr_length instr))
           (wrap64 (instr_get_app_pc instr)).

End Trace.

(** Does the thread still run instrumented code? *)
Definition is_active (th : thread) : bool := bool_decide (status th = Active).

(** What thread [t] has got to in process [p]: its context (registers, spill
    slots, cursor, the memory with its buffer, counter and registered
    flag), whether it still runs instrumented code, and the messages it has
    handed to the pipe, one by one. *)
Definition thread_view (p : process) (t : Z)
    : option (dcontext * bool) * list (list trace_entry_t) :=
  ((fun th => (ctx th, is_active th)) <$> threads p !! t,
   msgs_of t (written (ipc_pipe p))).

(** The events in which a thread goes on with [event_thread_exit]. *)
Definition is_exit_step (e : event) : bool :=
  match e with
  | ev_exit_step _ => true
  | _ => false
  end.

(** Does the meta instruction write the spill slot [s]? *)
Definition saves_slot (s : dr_spill_slot_t) (i : minstr) : bool :=
  match i with
  | dr_save_reg _ s' => bool_decide (s' = s)
  | _ => false
  end.

(** The option string that gives the pipe's name once for each of
    [names]. *)
Definition ipc_options (names : list string) : list string :=
  flat_map (fun name => ["-ipc"%string; name]) names.

(** ** A small run

    One thread on x86 under the packed layout: it starts, executes
    [mov 8(%rcx) <- (%rbx,%rax,4)], which carries the clean call of its
    block, and leaves. *)
Module Example.

Definition layout : trace_entry_h := packed_trace_entry_h.

Definition pid : Z := 4242.
Definition tid : Z := 7.

Definition scratch (_ : opnd_t) (_ : regfile) : Z := 0.

Definition app_regs : regfile :=
  fun r =>
    match r with
    | DR_REG_XCX => 4096
    | DR_REG_XBX => 8192
    | DR_REG_XAX => 3
    | _ => 0
    end.

Definition no_slots (_ : dr_spill_slot_t) : Z := 0.
Definition blank : memory := fun _ => 0.

Definition mov : instr_t :=
  mk_instr true true true
    [opnd_create_base_disp DR_REG_XBX DR_REG_XAX 4 0 OPSZ_4]
    [opnd_create_base_disp DR_REG_XCX DR_REG_NULL 0 8 OPSZ_8]
    false false 56 3 4198400.

(** [add %rax, 1]: no memory operand. *)
Definition add : instr_t :=
  mk_instr true false false
    [opnd_create_reg DR_REG_XAX; opnd_create_immed_int 1]
    [opnd_create_reg DR_REG_XAX]
    false false 4 3 4198403.

(** A predicated load on ARM. *)
Definition ldrne : instr_t :=
  mk_instr true true false
    [opnd_create_base_disp DR_REG_R1 DR_REG_NULL 0 4 OPSZ_4]
    [opnd_create_reg DR_REG_R0]
    true false 100 4 65536.

(** A thread with two entries in its buffer at address 1000. *)
Definition dc : dcontext :=
  mk_dcontext tid app_regs no_slots (1000 + 3 * 12) blank
    (mk_per_thread 500 1000 0 false).

Definition pipe : named_pipe_t := mk_pipe [] [].

Definition start : list event :=
  [ev_thread_init tid 500 1000 app_regs no_slots blank;
   ev_instr tid mov (mk_user_data false) app_regs].

Definition whole : list event := start ++ replicate 7 (ev_exit_step tid).

Definition outcome_process (o : outcome process) : process :=
  match o with
  | Done p => p
  | _ => dr_init []
  end.

(** The process after the instruction and after the thread has left. *)
Definition running : process :=
  outcome_process (run (H := layout) pid scratch X86 start (dr_init [])).

Definition finished : process :=
  outcome_process (run (H := layout) pid scratch X86 whole (dr_init [])).

Definition the_thread (p : process) : thread :=
  default (mk_thread Exited dc 0 false) (threads p !! tid).

(** The thread of [dc] inside the inserted code, with the buffer pointer
    in [%rcx]. *)
Definition dc_inside : dcontext :=
  mk_dcontext tid
    (fun r => match r with DR_REG_XCX => 1000 + 3 * 12 | _ => app_regs r end)
    no_slots (1000 + 3 * 12) blank (mk_per_thread 500 1000 0 false).

Definition outcome_state (o : outcome (dcontext * named_pipe_t))
    : dcontext * named_pipe_t :=
  match o with
  | Done st => st
  | _ => (dc, pipe)
  end.

(** The thread of [dc] and the pipe after the code in front of [mov],
    clean call included. *)
Definition after_mov : dcontext :=
  fst (outcome_state
         (exec_code (H := layout) pid scratch
            (fst (event_app_instruction (H := layout) X86 mov (mk_user_data false)))
            (dc, pipe))).

Definition pipe_after_mov : named_pipe_t :=
  snd (outcome_state
         (exec_code (H := layout) pid scratch
            (fst (event_app_instruction (H := layout) X86 mov (mk_user_data false)))
            (dc, pipe))).

(** A thread on ARM that executes 4096 predicated loads, none of which
    gets a clean call. *)
Definition predicated_loads : list event :=
  ev_thread_init tid 500 1000 app_regs no_slots blank
  :: replicate 4096 (ev_instr tid ldrne (mk_user_data false) app_regs).

(** The same run of thread 7 with a second thread, 8, in between. *)
Definition crowded : list event :=
  [ev_thread_init 8 600 100000 app_regs no_slots blank;
   ev_thread_init tid 500 1000 app_regs no_slots blank;
   ev_instr 8 mov (mk_user_data true) app_regs;
   ev_instr tid mov (mk_user_data false) app_regs;
   ev_exit_step 8; ev_exit_step 8]
  ++ replicate 7 (ev_exit_step tid) ++ replicate 5 (ev_exit_step 8).

Definition finished_crowded : process :=
  outcome_process (run (H := layout) pid scratch X86 crowded (dr_init [])).

End Example.

(** * Properties *)

Section Properties.

Context {H : trace_entry_h}.
Variable process_id : Z.
Variable scratch_value : opnd_t -> regfile -> Z.
Variable arch : arch_t.

Hypothesis Hlayout : layout_ok H.
Hypothesis Henum : enum_ok H.

Local Arguments set_reg : simpl never.
Local Arguments set_slot : simpl never.

Lemma set_reg_eq rs r v : set_reg rs r v r = v.
Proof. unfold set_reg. rewrite decide_True by reflexivity. reflexivity. Qed.

Lemma set_reg_ne rs r v x : x <> r -> set_reg rs r v x = rs x.
Proof. intros. unfold set_reg. rewrite decide_False by assumption. reflexivity. Qed.

Lemma sizeof_pos : 0 < sizeof_trace_entry_t.
Proof. destruct Hlayout as [? _]. lia. Qed.

Lemma wrap16_wrap16 z : wrap16 (wrap16 z) = wrap16 z.
Proof. unfold wrap16. apply Z.mod_mod. lia. Qed.

Lemma wrap64_wrap64 z : wrap64 (wrap64 z) = wrap64 z.
Proof. unfold wrap64. apply Z.mod_mod. lia. Qed.

Lemma wrap64_add_l a b : wrap64 (wrap64 a + b) = wrap64 (a + b).
Proof. unfold wrap64. apply Z.add_mod_idemp_l. lia. Qed.

Lemma wrap64_add_r a b : wrap64 (a + wrap64 b) = wrap64 (a + b).
Proof. unfold wrap64. apply Z.add_mod_idemp_r. lia. Qed.

Lemma wrap64_small z : 0 <= z < 18446744073709551616 -> wrap64 z = z.
Proof. intros. unfold wrap64. apply Z.mod_small. lia. Qed.

Lemma mem_store_eq m a v : mem_store m a v a = v.
Proof. unfold mem_store. rewrite Z.eqb_refl. reflexivity. Qed.

Lemma mem_store_ne m a v x : x <> a -> mem_store m a v x = m x.
Proof. intros. unfold mem_store. destruct (Z.eqb_spec x a); congruence. Qed.

Lemma store_entry_other m a e x :
  ~ entry_cell a x -> store_entry m a e x = m x.
Proof.
  intros Hx. unfold entry_cell in Hx. unfold store_entry.
  rewrite !mem_store_ne; auto.
Qed.

Lemma load_store_entry m a e :
  load_entry (store_entry m a e) a
  = mk_entry (wrap16 (type e)) (wrap16 (size e)) (wrap64 (addr e)).
Proof.
  destruct Hlayout as (_ & _ & _ & Hts & Hta & Hsa).
  unfold load_entry, store_entry. f_equal.
  - rewrite mem_store_ne by lia. rewrite mem_store_ne by lia. apply mem_store_eq.
  - rewrite mem_store_ne by lia. apply mem_store_eq.
  - apply mem_store_eq.
Qed.

(** Cells of different slots are different cells. *)
Lemma entry_cell_slots a i j x :
  i <> j ->
  entry_cell (a + i * sizeof_trace_entry_t) x ->
  entry_cell (a + j * sizeof_trace_entry_t) x -> False.
Proof.
  destruct Hlayout as (Ht & Hs & Ha & _).
  unfold entry_cell. intros Hij Hi Hj.
  assert (i < j \/ j < i) as [Hlt | Hlt] by lia;
    destruct Hi as [-> | [-> | ->]]; destruct Hj as [Hj | [Hj | Hj]]; nia.
Qed.

Lemma load_entry_ext m m' a :
  (forall x, entry_cell a x -> m' x = m x) -> load_entry m' a = load_entry m a.
Proof.
  intros Hx. unfold load_entry.
  rewrite !Hx; unfold entry_cell; auto.
Qed.

Lemma load_entries_ext m m' a n :
  (forall i x, 0 <= i < Z.of_nat n ->
     entry_cell (a + i * sizeof_trace_entry_t) x -> m' x = m x) ->
  load_entries m' a n = load_entries m a n.
Proof.
  revert a. induction n as [| n IH]; intros a Hx; simpl; [reflexivity |].
  f_equal.
  - apply load_entry_ext. intros x Hc. apply (Hx 0); [lia |].
    replace (a + 0 * sizeof_trace_entry_t) with a by lia. exact Hc.
  - apply IH. intros i x Hi Hc. apply (Hx (i + 1)); [lia |].
    replace (a + (i + 1) * sizeof_trace_entry_t)
      with (a + sizeof_trace_entry_t + i * sizeof_trace_entry_t) by lia.
    exact Hc.
Qed.

Lemma load_entries_length m a n : length (load_entries m a n) = n.
Proof. revert a. induction n; intros; simpl; auto. Qed.

(** Writing the header leaves the entries behind it alone. *)
Lemma load_entries_store_header m base e n :
  load_entries (store_entry m base e) (base + sizeof_trace_entry_t) n
  = load_entries m (base + sizeof_trace_entry_t) n.
Proof.
  apply load_entries_ext. intros i x Hi Hc.
  apply store_entry_other. intros Hb.
  apply (entry_cell_slots base (i + 1) 0 x); [lia | |].
  - replace (base + (i + 1) * sizeof_trace_entry_t)
      with (base + sizeof_trace_entry_t + i * sizeof_trace_entry_t) by lia.
    exact Hc.
  - replace (base + 0 * sizeof_trace_entry_t) with base by lia. exact Hb.
Qed.

(** The counting loop, in closed form. *)
Lemma count_refs_closed fuel a k n :
  0 <= k -> (Z.to_nat k <= fuel)%nat ->
  count_refs fuel a (a + k * sizeof_trace_entry_t) n
  = if k =? 0 then n else wrap64 (n + k).
Proof.
  pose proof sizeof_pos as Hs.
  revert a k n. induction fuel as [| fuel IH]; intros a k n Hk Hf.
  - assert (k = 0) as -> by lia. reflexivity.
  - simpl. destruct (Z.ltb_spec a (a + k * sizeof_trace_entry_t)) as [Hlt | Hge].
    + assert (1 <= k) by nia.
      replace (a + k * sizeof_trace_entry_t)
        with (a + sizeof_trace_entry_t + (k - 1) * sizeof_trace_entry_t) by lia.
      rewrite IH by lia.
      destruct (Z.eqb_spec k 0); [lia |].
      destruct (Z.eqb_spec (k - 1) 0) as [Heq | Hne].
      * f_equal. lia.
      * rewrite wrap64_add_l. f_equal. lia.
    + assert (k = 0) as -> by nia. reflexivity.
Qed.

Lemma ptr_diff_slots base k :
  ptr_diff (base + k * sizeof_trace_entry_t) base = k.
Proof.
  pose proof sizeof_pos. unfold ptr_diff.
  replace (base + k * sizeof_trace_entry_t - base) with (k * sizeof_trace_entry_t) by lia.
  apply Z.div_mul. lia.
Qed.

(** *** The pipe *)

Lemma pipe_write_full p who msg sz :
  all_full (returns p) [sz] = true ->
  pipe_write p who msg sz
  = (sz, mk_pipe (written p ++ [(who, msg)]) (tail (returns p))).
Proof.
  unfold pipe_write. destruct (returns p) as [| r rs]; simpl; [reflexivity |].
  rewrite andb_true_r. intros Hle. apply Z.leb_le in Hle.
  rewrite Z.min_r by lia. rewrite Z.ltb_irrefl. reflexivity.
Qed.

Lemma pipe_write_short p who msg sz r rs :
  returns p = r :: rs -> r < sz ->
  pipe_write p who msg sz = (r, mk_pipe (written p) rs).
Proof.
  intros Hr Hlt. unfold pipe_write. rewrite Hr. simpl.
  rewrite Z.min_l by lia.
  destruct (Z.ltb_spec r sz); [reflexivity | lia].
Qed.

Lemma all_full_cons_inv rets s sizes :
  all_full rets (s :: sizes) = true ->
  all_full rets [s] = true /\ all_full (tail rets) sizes = true.
Proof.
  destruct rets as [| r rets]; simpl.
  - intros _. split; [reflexivity |]. destruct sizes; reflexivity.
  - rewrite andb_true_r. intros Hb. apply andb_true_iff in Hb. tauto.
Qed.

(** *** memtrace *)

Lemma memtrace_deferred dc pipe delay :
  deferred dc delay = true ->
  memtrace process_id dc pipe delay = Done (dc, pipe).
Proof.
  unfold deferred, memtrace. intros ->. reflexivity.
Qed.

Lemma load_buffer_after_header dc k :
  1 <= k ->
  load_entries
    (store_entry (mem dc) (buf_base (tls_field dc))
       (mk_entry TRACE_TYPE_THREAD sizeof_thread_id_t (thread_id dc)))
    (buf_base (tls_field dc)) (Z.to_nat k)
  = thread_entry (thread_id dc) :: buffered dc k.
Proof.
  intros Hk. replace (Z.to_nat k) with (S (Z.to_nat (k - 1))) by lia.
  simpl. f_equal.
  - apply load_store_entry.
  - apply load_entries_store_header.
Qed.

(** A flush whose writes go through in full. *)
Lemma memtrace_flush dc pipe delay k :
  cursor_at dc k -> 1 <= k ->
  deferred dc delay = false ->
  all_full (returns pipe) (flush_writes dc) = true ->
  memtrace process_id dc pipe delay
  = Done (flushed dc k,
          mk_pipe (written pipe ++ flush_messages process_id dc k)
                  (drop (length (flush_writes dc)) (returns pipe))).
Proof.
  pose proof sizeof_pos as Hs.
  intros Hcur Hk Hdef Hfull.
  pose proof (load_buffer_after_header dc k Hk) as Hload.
  unfold memtrace. unfold deferred in Hdef. rewrite Hdef.
  unfold flush_writes, flush_messages, flushed, buffered, cursor_at in *.
  destruct dc as [tid rs ss bp m [seg base n reg]]; simpl in *. subst bp.
  assert (Hdiff : base + k * sizeof_trace_entry_t - base = k * sizeof_trace_entry_t)
    by lia.
  assert (Hcount : count_refs (Z.to_nat (k * sizeof_trace_entry_t)) base
                     (base + k * sizeof_trace_entry_t) n = wrap64 (n + k)).
  { rewrite count_refs_closed by nia. destruct (Z.eqb_spec k 0); [lia | reflexivity]. }
  destruct reg; cbn [app] in Hfull; simpl; rewrite ?Hdiff in Hfull |- *.
  - rewrite Z.div_mul by lia. rewrite Hload, Hcount.
    rewrite pipe_write_full by exact Hfull.
    rewrite Z.ltb_irrefl. reflexivity.
  - apply all_full_cons_inv in Hfull as [Hf1 Hf2].
    rewrite load_store_entry. simpl.
    rewrite pipe_write_full by exact Hf1.
    rewrite Z.ltb_irrefl. simpl. rewrite ?Hdiff in Hf2 |- *.
    rewrite Z.div_mul by lia. rewrite Hload, Hcount.
    rewrite pipe_write_full by exact Hf2. simpl.
    rewrite Z.ltb_irrefl. simpl.
    rewrite <- app_assoc. simpl.
    destruct (returns pipe) as [| r rs']; reflexivity.
Qed.

(** A flush one of whose writes falls short. *)
Lemma memtrace_short dc pipe delay :
  deferred dc delay = false ->
  all_full (returns pipe) (flush_writes dc) = false ->
  memtrace process_id dc pipe delay = Aborted.
Proof.
  intros Hdef Hfull.
  unfold memtrace. unfold deferred in Hdef. rewrite Hdef.
  unfold flush_writes in Hfull.
  destruct (thread_registered (tls_field dc)) eqn:Hreg; simpl in Hfull |- *.
  - destruct (returns pipe) as [| r rs] eqn:Hr; [discriminate |].
    rewrite andb_true_r in Hfull. apply Z.leb_gt in Hfull.
    erewrite pipe_write_short by eauto.
    destruct (Z.ltb_spec r (BUF_PTR dc - buf_base (tls_field dc))); [reflexivity | lia].
  - destruct (returns pipe) as [| r rs] eqn:Hr; [discriminate |].
    destruct (Z.leb_spec (2 * sizeof_trace_entry_t) r) as [Hle | Hgt].
    + simpl in Hfull.
      rewrite pipe_write_full by (rewrite Hr; simpl; rewrite andb_true_r; lia).
      rewrite Z.ltb_irrefl. simpl. rewrite Hr. simpl.
      destruct rs as [| r2 rs2]; [discriminate |].
      rewrite andb_true_r in Hfull. apply Z.leb_gt in Hfull.
      erewrite pipe_write_short by (simpl; eauto).
      destruct (Z.ltb_spec r2 (BUF_PTR dc - buf_base (tls_field dc))); [reflexivity | lia].
    + erewrite pipe_write_short by eauto.
      destruct (Z.ltb_spec r (2 * sizeof_trace_entry_t)); [reflexivity | lia].
Qed.

(** *** The inserted code *)

Lemma exec_code_app c1 c2 st :
  exec_code process_id scratch_value (c1 ++ c2) st
  = (st ← exec_code process_id scratch_value c1 st;
     exec_code process_id scratch_value c2 st).
Proof.
  revert st. induction c1 as [| i c1 IH]; intros st; simpl; [reflexivity |].
  destruct (exec_minstr process_id scratch_value i st); simpl; auto.
Qed.

Lemma wrap16_set_low16 old v : wrap16 (set_low16 old v) = wrap16 v.
Proof.
  unfold set_low16, wrap16.
  rewrite <- Z.add_mod_idemp_l by lia.
  rewrite Zminus_mod_idemp_r. rewrite Z.sub_diag. simpl.
  apply Z.mod_mod. lia.
Qed.

Lemma wrap16_opnd_size o :
  wrap16 (drutil_opnd_mem_size_in_bytes o) = drutil_opnd_mem_size_in_bytes o.
Proof. destruct o as [| | ? ? ? ? sz | ? sz]; try reflexivity; destruct sz; reflexivity. Qed.

Lemma wrap64_opnd_compute_address o rs :
  wrap64 (opnd_compute_address o rs) = opnd_compute_address o rs.
Proof. destruct o; simpl; try reflexivity; apply wrap64_wrap64. Qed.

(** The address of an operand depends on the registers it uses only. *)
Lemma opnd_compute_address_ext o rs rs' :
  (forall r, opnd_uses_reg o r = true -> rs r = rs' r) ->
  opnd_compute_address o rs = opnd_compute_address o rs'.
Proof.
  destruct o as [| | b i sc d sz |]; simpl; intros Hr; try reflexivity.
  assert (Hb : reg_get_value rs b = reg_get_value rs' b).
  { assert (rs b = rs' b).
    { apply Hr. rewrite bool_decide_eq_true_2 by reflexivity. reflexivity. }
    destruct b; simpl; auto. }
  assert (Hi : reg_get_value rs i = reg_get_value rs' i).
  { assert (rs i = rs' i).
    { apply Hr. rewrite (bool_decide_eq_true_2 (i = i)) by reflexivity.
      apply orb_true_r. }
    destruct i; simpl; auto. }
  rewrite Hb, Hi. reflexivity.
Qed.

(** The cells of the slots of the buffer are inside the buffer, those of
    the slots past its end are not. *)
Lemma in_buffer_slot dc j x :
  0 <= j < MAX_NUM_MEM_REFS ->
  entry_cell (buf_base (tls_field dc) + j * sizeof_trace_entry_t) x ->
  in_buffer dc x = true.
Proof.
  destruct Hlayout as (Ht & Hs & Ha & _).
  unfold entry_cell, in_buffer, MEM_BUF_SIZE, MAX_NUM_MEM_REFS.
  intros Hj Hx. apply andb_true_iff. split; [apply Z.leb_le | apply Z.ltb_lt];
    destruct Hx as [-> | [-> | ->]]; nia.
Qed.

Lemma in_buffer_past dc j x :
  MAX_NUM_MEM_REFS <= j ->
  entry_cell (buf_base (tls_field dc) + j * sizeof_trace_entry_t) x ->
  in_buffer dc x = false.
Proof.
  destruct Hlayout as (Ht & Hs & Ha & _).
  unfold entry_cell, in_buffer, MEM_BUF_SIZE, MAX_NUM_MEM_REFS.
  intros Hj Hx. apply andb_false_iff. right. apply Z.ltb_ge.
  destruct Hx as [-> | [-> | ->]]; nia.
Qed.

Lemma store_checked_ok dc a v :
  in_buffer dc a = true ->
  store_checked dc a v = Done (set_mem dc (mem_store (mem dc) a v)).
Proof. unfold store_checked. intros ->. reflexivity. Qed.

Lemma store_checked_fault dc a v :
  in_buffer dc a = false -> store_checked dc a v = Fault.
Proof. unfold store_checked. intros ->. reflexivity. Qed.

(** The registers from which [insert_save_addr] computes the address hold
    the application's values where the operand looks. *)
Lemma restored_regs_agree rs0 reg_ptr reg_tmp dc o r :
  reg_ptr <> reg_tmp ->
  spill dc slot_ptr = rs0 reg_ptr ->
  spill dc slot_tmp = rs0 reg_tmp ->
  (forall r, r <> reg_ptr -> r <> reg_tmp -> regs dc r = rs0 r) ->
  opnd_uses_reg o r = true ->
  (let rs1 := if opnd_uses_reg o reg_ptr
              then set_reg (regs dc) reg_ptr (spill dc slot_ptr) else regs dc in
   if opnd_uses_reg o reg_tmp
   then set_reg rs1 reg_tmp (spill dc slot_tmp) else rs1) r = rs0 r.
Proof.
  intros Hne Hsp Hst Hothers Hr. simpl.
  destruct (decide (r = reg_tmp)) as [-> | Hrt].
  - rewrite Hr. rewrite set_reg_eq. exact Hst.
  - destruct (decide (r = reg_ptr)) as [-> | Hrp].
    + rewrite Hr.
      destruct (opnd_uses_reg o reg_tmp);
        rewrite ?(set_reg_ne _ reg_tmp) by exact Hne;
        rewrite set_reg_eq; exact Hsp.
    + destruct (opnd_uses_reg o reg_tmp), (opnd_uses_reg o reg_ptr);
        rewrite ?(set_reg_ne _ reg_tmp) by exact Hrt;
        rewrite ?(set_reg_ne _ reg_ptr) by exact Hrp;
        apply Hothers; assumption.
Qed.

(** Saving a 16 bit field: [insert_save_type], [insert_save_size]. *)
Lemma exec_save16 base scratch v disp dc pipe :
  base <> scratch ->
  in_buffer dc (regs dc base + disp) = true ->
  exec_code process_id scratch_value
    [XINST_CREATE_load_int scratch v; XINST_CREATE_store_2bytes base disp scratch]
    (dc, pipe)
  = Done (mk_dcontext (thread_id dc)
            (set_reg (regs dc) scratch (set_low16 (regs dc scratch) v))
            (spill dc) (BUF_PTR dc)
            (mem_store (mem dc) (regs dc base + disp) (wrap16 v))
            (tls_field dc), pipe).
Proof.
  intros Hne Hin. simpl.
  rewrite set_reg_ne by exact Hne. rewrite set_reg_eq.
  rewrite store_checked_ok by exact Hin. simpl.
  rewrite wrap16_set_low16. reflexivity.
Qed.

Lemma exec_save16_fault base scratch v disp dc pipe c :
  base <> scratch ->
  in_buffer dc (regs dc base + disp) = false ->
  exec_code process_id scratch_value
    (XINST_CREATE_load_int scratch v :: XINST_CREATE_store_2bytes base disp scratch :: c)
    (dc, pipe)
  = Fault.
Proof.
  intros Hne Hin. simpl.
  rewrite set_reg_ne by exact Hne.
  rewrite store_checked_fault by exact Hin. reflexivity.
Qed.

Lemma bind_Done {A B} (a : A) (f : A -> outcome B) : (Done a ≫= f) = f a.
Proof. reflexivity. Qed.

Lemma bind_Fault {A B} (f : A -> outcome B) : (Fault ≫= f) = Fault.
Proof. reflexivity. Qed.

Ltac exec_simpl :=
  cbn [exec_code exec_minstr mbind outcome_bind obind app
       set_regs set_mem set_spill set_BUF_PTR
       regs spill BUF_PTR mem tls_field thread_id].

Ltac regs_simpl :=
  repeat (rewrite set_reg_eq || rewrite set_reg_ne by (assumption || congruence)).

(** [insert_save_addr]: the address stored is the one the operand has
    under the application's registers, also when the operand uses one of
    the two scratch registers. *)
Lemma exec_insert_save_addr rs0 reg_ptr reg_addr o adjust dc pipe :
  reg_ptr <> reg_addr ->
  spill dc slot_ptr = rs0 reg_ptr ->
  spill dc slot_tmp = rs0 reg_addr ->
  (forall r, r <> reg_ptr -> r <> reg_addr -> regs dc r = rs0 r) ->
  in_buffer dc (BUF_PTR dc + (adjust + offsetof_addr)) = true ->
  exists rs',
    exec_code process_id scratch_value
      (insert_save_addr o reg_ptr reg_addr adjust) (dc, pipe)
    = Done (mk_dcontext (thread_id dc) rs' (spill dc) (BUF_PTR dc)
              (mem_store (mem dc) (BUF_PTR dc + (adjust + offsetof_addr))
                 (opnd_compute_address o rs0))
              (tls_field dc), pipe) /\
    rs' reg_ptr = BUF_PTR dc /\
    (forall r, r <> reg_ptr -> r <> reg_addr -> rs' r = rs0 r).
Proof.
  intros Hne Hsp Hst Hothers Hin.
  assert (Hne' : reg_addr <> reg_ptr) by congruence.
  pose proof (fun r => restored_regs_agree rs0 reg_ptr reg_addr dc o r
                         Hne Hsp Hst Hothers) as Hagree.
  apply opnd_compute_address_ext in Hagree.
  unfold insert_save_addr, insert_load_buf_ptr.
  destruct (opnd_uses_reg o reg_ptr), (opnd_uses_reg o reg_addr);
    exec_simpl; regs_simpl; cbv zeta in Hagree;
    rewrite store_checked_ok by exact Hin; exec_simpl;
    rewrite wrap64_opnd_compute_address, Hagree;
    (eexists; split; [reflexivity | split; [apply set_reg_eq |]]);
    intros r Hr1 Hr2; exec_simpl; regs_simpl; auto.
Qed.

Lemma exec_instrument_mem rs0 reg_ptr reg_tmp o write adjust dc pipe j :
  reg_ptr <> reg_tmp ->
  scratch_inv rs0 reg_ptr reg_tmp dc ->
  BUF_PTR dc + adjust = buf_base (tls_field dc) + j * sizeof_trace_entry_t ->
  0 <= j < MAX_NUM_MEM_REFS ->
  exists dc',
    exec_code process_id scratch_value
      (instrument_mem o write reg_ptr reg_tmp adjust) (dc, pipe) = Done (dc', pipe) /\
    scratch_inv rs0 reg_ptr reg_tmp dc' /\
    same_thread dc dc' /\
    mem dc' = store_entry (mem dc) (BUF_PTR dc + adjust) (mem_entry write rs0 o).
Proof.
  intros Hne Hinv Ha Hj.
  assert (Hne' : reg_tmp <> reg_ptr) by congruence.
  pose proof (fun x => in_buffer_slot dc j x Hj) as Hin. rewrite <- Ha in Hin.
  destruct Hinv as (Hp & Hsp & Hst & Hothers).
  unfold instrument_mem, insert_save_type, insert_save_size.
  rewrite exec_code_app.
  rewrite exec_save16; [| exact Hne | rewrite Hp; apply Hin; left; lia].
  rewrite bind_Done. rewrite exec_code_app.
  rewrite exec_save16;
    [| exact Hne | exec_simpl; regs_simpl; rewrite Hp; apply Hin; right; left; lia].
  rewrite bind_Done. exec_simpl. regs_simpl.
  match goal with
  | |- context [exec_code _ _ _ (?d, _)] =>
      destruct (exec_insert_save_addr rs0 reg_ptr reg_tmp o adjust d pipe)
        as (rs' & Hex & Hrp & Hro)
  end; exec_simpl;
    [exact Hne | exact Hsp | exact Hst
    | intros r Hr1 Hr2; regs_simpl; auto
    | apply Hin; right; right; lia | ].
  rewrite Hex. exec_simpl. eexists. split; [reflexivity |].
  split; [| split].
  - repeat split; assumption.
  - repeat split.
  - exec_simpl. unfold store_entry, mem_entry. cbn [type size addr].
    rewrite Hp, !wrap16_wrap16, wrap16_opnd_size, wrap64_opnd_compute_address.
    rewrite !Z.add_assoc. reflexivity.
Qed.

Lemma exec_instrument_mem_fault reg_ptr reg_tmp o write adjust dc pipe j c :
  reg_ptr <> reg_tmp ->
  regs dc reg_ptr = BUF_PTR dc ->
  BUF_PTR dc + adjust = buf_base (tls_field dc) + j * sizeof_trace_entry_t ->
  MAX_NUM_MEM_REFS <= j ->
  exec_code process_id scratch_value
    (instrument_mem o write reg_ptr reg_tmp adjust ++ c) (dc, pipe) = Fault.
Proof.
  intros Hne Hp Ha Hj.
  unfold instrument_mem, insert_save_type. cbn [app].
  apply exec_save16_fault; [exact Hne |].
  rewrite Hp. apply (in_buffer_past dc j); [exact Hj |].
  rewrite <- Ha. left. lia.
Qed.

Lemma load_mem_entry m a write rs o :
  load_entry (store_entry m a (mem_entry write rs o)) a = mem_entry write rs o.
Proof.
  rewrite load_store_entry. unfold mem_entry. cbn [type size addr].
  rewrite wrap16_wrap16, wrap16_opnd_size, wrap64_opnd_compute_address.
  reflexivity.
Qed.

(** The [adjust] a loop of [event_app_instruction] ends with. *)
Lemma instrument_opnds_adjust ops write reg_ptr reg_tmp adjust :
  snd (instrument_opnds ops write reg_ptr reg_tmp adjust)
  = adjust + Z.of_nat (length (mem_opnds ops)) * sizeof_trace_entry_t.
Proof.
  revert adjust. induction ops as [| o ops IH]; intros adjust.
  - simpl. lia.
  - cbn [instrument_opnds mem_opnds List.filter].
    destruct (opnd_is_memory_reference o); [| apply IH].
    fold (mem_opnds ops). specialize (IH (adjust + sizeof_trace_entry_t)).
    destruct (instrument_opnds ops write reg_ptr reg_tmp (adjust + sizeof_trace_entry_t)).
    cbn [snd length] in *. lia.
Qed.

(** One loop of [event_app_instruction], run from a state in which the
    next free slot is slot [j] of the buffer: what it writes if the buffer
    has room, and the fault if it has not. *)
Lemma exec_instrument_opnds rs0 reg_ptr reg_tmp write :
  reg_ptr <> reg_tmp ->
  forall ops adjust dc pipe j c,
    scratch_inv rs0 reg_ptr reg_tmp dc ->
    BUF_PTR dc + adjust = buf_base (tls_field dc) + j * sizeof_trace_entry_t ->
    0 <= j <= MAX_NUM_MEM_REFS ->
    let n := length (mem_opnds ops) in
    (j + Z.of_nat n <= MAX_NUM_MEM_REFS ->
     exists dc',
       exec_code process_id scratch_value
         (fst (instrument_opnds ops write reg_ptr reg_tmp adjust)) (dc, pipe)
         = Done (dc', pipe) /\
       scratch_inv rs0 reg_ptr reg_tmp dc' /\
       same_thread dc dc' /\
       load_entries (mem dc') (BUF_PTR dc + adjust) n
         = map (mem_entry write rs0) (mem_opnds ops) /\
       (forall x,
          (forall i, 0 <= i < Z.of_nat n ->
             ~ entry_cell (BUF_PTR dc + adjust + i * sizeof_trace_entry_t) x) ->
          mem dc' x = mem dc x)) /\
    (MAX_NUM_MEM_REFS < j + Z.of_nat n ->
     exec_code process_id scratch_value
       (fst (instrument_opnds ops write reg_ptr reg_tmp adjust) ++ c) (dc, pipe)
       = Fault).
Proof.
  intros Hne. induction ops as [| o ops IH]; intros adjust dc pipe j c Hinv Ha Hj.
  - simpl. split.
    + intros _. exists dc. split; [reflexivity |]. split; [exact Hinv |].
      split; [repeat split |]. split; [reflexivity | auto].
    + lia.
  - cbn [instrument_opnds mem_opnds List.filter].
    destruct (opnd_is_memory_reference o) eqn:Ho.
    2:{ apply IH; assumption. }
    fold (mem_opnds ops).
    destruct (instrument_opnds ops write reg_ptr reg_tmp (adjust + sizeof_trace_entry_t))
      as [cs adj'] eqn:Hrest.
    cbn [fst snd length].
    assert (Hstep : forall dc1, same_thread dc dc1 ->
              BUF_PTR dc1 + (adjust + sizeof_trace_entry_t)
              = buf_base (tls_field dc1) + (j + 1) * sizeof_trace_entry_t).
    { intros dc1 (_ & _ & Hb & Ht). rewrite Hb, Ht. lia. }
    split.
    + intros Hroom.
      destruct (exec_instrument_mem rs0 reg_ptr reg_tmp o write adjust dc pipe j
                  Hne Hinv Ha ltac:(lia)) as (dc1 & Hex1 & Hinv1 & Hsame1 & Hmem1).
      destruct (IH (adjust + sizeof_trace_entry_t) dc1 pipe (j + 1) c Hinv1
                  (Hstep dc1 Hsame1) ltac:(lia)) as (Hdone & _).
      rewrite Hrest in Hdone. cbn [fst] in Hdone.
      destruct Hdone as (dc' & Hex & Hinv' & Hsame' & Hload & Hframe); [lia |].
      destruct Hsame1 as (Ht1 & Hs1 & Hb1 & Hf1).
      destruct Hsame' as (Ht' & Hs' & Hb' & Hf').
      exists dc'. split; [| split; [| split; [| split]]].
      * rewrite exec_code_app, Hex1, bind_Done. exact Hex.
      * exact Hinv'.
      * repeat split; congruence.
      * cbn [load_entries map]. f_equal.
        -- rewrite <- (load_mem_entry (mem dc) (BUF_PTR dc + adjust) write rs0 o).
           rewrite <- Hmem1. apply load_entry_ext. intros x Hx.
           apply Hframe. intros i Hi Hc.
           apply (entry_cell_slots (BUF_PTR dc + adjust) (i + 1) 0 x); [lia | |].
           ++ rewrite Hb1 in Hc.
              replace (BUF_PTR dc + adjust + (i + 1) * sizeof_trace_entry_t)
                with (BUF_PTR dc + (adjust + sizeof_trace_entry_t)
                      + i * sizeof_trace_entry_t) by lia.
              exact Hc.
           ++ replace (BUF_PTR dc + adjust + 0 * sizeof_trace_entry_t)
                with (BUF_PTR dc + adjust) by lia.
              exact Hx.
        -- rewrite <- Hload. rewrite Hb1. f_equal. lia.
      * intros x Hx. rewrite Hframe.
        -- rewrite Hmem1. apply store_entry_other. intros Hc.
           apply (Hx 0); [lia |].
           replace (BUF_PTR dc + adjust + 0 * sizeof_trace_entry_t)
             with (BUF_PTR dc + adjust) by lia.
           exact Hc.
        -- intros i Hi Hc. apply (Hx (i + 1)); [lia |].
           rewrite Hb1 in Hc.
           replace (BUF_PTR dc + adjust + (i + 1) * sizeof_trace_entry_t)
             with (BUF_PTR dc + (adjust + sizeof_trace_entry_t)
                   + i * sizeof_trace_entry_t) by lia.
           exact Hc.
    + intros Hfull. rewrite <- app_assoc.
      destruct (Z_lt_le_dec j MAX_NUM_MEM_REFS) as [Hlt | Hge].
      * destruct (exec_instrument_mem rs0 reg_ptr reg_tmp o write adjust dc pipe j
                    Hne Hinv Ha ltac:(lia)) as (dc1 & Hex1 & Hinv1 & Hsame1 & Hmem1).
        destruct (IH (adjust + sizeof_trace_entry_t) dc1 pipe (j + 1) c Hinv1
                    (Hstep dc1 Hsame1) ltac:(lia)) as (_ & Hfault).
        rewrite Hrest in Hfault. cbn [fst] in Hfault.
        rewrite exec_code_app, Hex1, bind_Done. apply Hfault. lia.
      * apply (exec_instrument_mem_fault reg_ptr reg_tmp o write adjust dc pipe j);
          auto. apply Hinv.
Qed.

Lemma load_entries_app m a n1 n2 :
  load_entries m a (n1 + n2)
  = load_entries m a n1
    ++ load_entries m (a + Z.of_nat n1 * sizeof_trace_entry_t) n2.
Proof.
  revert a. induction n1 as [| n1 IH]; intros a.
  - simpl. f_equal. lia.
  - cbn [load_entries Nat.add app]. f_equal. rewrite IH. do 2 f_equal. lia.
Qed.

Lemma reg_ptr_tmp_distinct a : reg_ptr_of a <> reg_tmp_of a.
Proof. destruct a; discriminate. Qed.

(** [event_app_instruction] leaves the instructions alone that are not the
    application's or that touch no memory. *)
Lemma event_app_instruction_skip a instr ud :
  instrumented instr = false ->
  event_app_instruction a instr ud = ([], ud).
Proof.
  unfold instrumented, event_app_instruction.
  destruct (instr_is_app instr), (instr_reads_memory instr),
    (instr_writes_memory instr); simpl; intros; congruence.
Qed.

(** For the others it inserts the code of the entries and, if wanted, the
    clean call behind it. *)
Lemma event_app_instruction_code a instr ud :
  instrumented instr = true ->
  event_app_instruction a instr ud
  = (entry_code a instr ++
       (if clean_call_wanted a instr ud then [dr_insert_clean_call] else []),
     if clean_call_wanted a instr ud then mk_user_data true else ud).
Proof.
  unfold instrumented, entry_code, event_app_instruction. intros Hi.
  assert (Hw : clean_call_wanted a instr (mk_user_data true) = false) by reflexivity.
  rewrite Hw.
  destruct (instr_is_app instr); [| discriminate]. cbn [negb].
  destruct (negb (instr_reads_memory instr) && negb (instr_writes_memory instr)) eqn:Hg.
  { destruct (instr_reads_memory instr), (instr_writes_memory instr); discriminate. }
  destruct (instrument_opnds (instr_srcs instr) false (reg_ptr_of a) (reg_tmp_of a) 0)
    as [c1 adj1].
  destruct (instrument_opnds (instr_dsts instr) true (reg_ptr_of a) (reg_tmp_of a) adj1)
    as [c2 adj2].
  destruct (clean_call_wanted a instr ud); cbn [fst].
  - rewrite <- !app_assoc. reflexivity.
  - rewrite app_nil_r. reflexivity.
Qed.

Lemma entry_code_eq a instr :
  instrumented instr = true ->
  let rp := reg_ptr_of a in
  let rt := reg_tmp_of a in
  let n1 := Z.of_nat (length (mem_opnds (instr_srcs instr))) in
  let n2 := Z.of_nat (length (mem_opnds (instr_dsts instr))) in
  entry_code a instr
  = [dr_save_reg rp slot_ptr; dr_save_reg rt slot_tmp; dr_insert_read_raw_tls rp] ++
    fst (instrument_opnds (instr_srcs instr) false rp rt 0) ++
    fst (instrument_opnds (instr_dsts instr) true rp rt (n1 * sizeof_trace_entry_t)) ++
    [XINST_CREATE_add rp ((n1 + n2) * sizeof_trace_entry_t);
     dr_insert_write_raw_tls rp;
     dr_restore_reg rp slot_ptr; dr_restore_reg rt slot_tmp].
Proof.
  unfold instrumented, entry_code, event_app_instruction. intros Hi.
  assert (Hw : clean_call_wanted a instr (mk_user_data true) = false) by reflexivity.
  rewrite Hw.
  destruct (instr_is_app instr); [| discriminate]. cbn [negb].
  destruct (negb (instr_reads_memory instr) && negb (instr_writes_memory instr)) eqn:Hg.
  { destruct (instr_reads_memory instr), (instr_writes_memory instr); discriminate. }
  pose proof (instrument_opnds_adjust (instr_srcs instr) false
                (reg_ptr_of a) (reg_tmp_of a) 0) as H1.
  destruct (instrument_opnds (instr_srcs instr) false (reg_ptr_of a) (reg_tmp_of a) 0)
    as [c1 adj1].
  cbn [snd] in H1. rewrite Z.add_0_l in H1. subst adj1.
  pose proof (instrument_opnds_adjust (instr_dsts instr) true (reg_ptr_of a) (reg_tmp_of a)
                (Z.of_nat (length (mem_opnds (instr_srcs instr))) * sizeof_trace_entry_t))
    as H2.
  destruct (instrument_opnds (instr_dsts instr) true (reg_ptr_of a) (reg_tmp_of a) _)
    as [c2 adj2].
  cbn [snd] in H2. subst adj2. cbn [fst].
  unfold insert_load_buf_ptr, insert_update_buf_ptr. cbn [app].
  rewrite Z.mul_add_distr_r. reflexivity.
Qed.

(** Running the code of the entries with the cursor at [k]: with room for
    them the entries land behind the cursor, which moves past them, and
    the application's registers are back; without room, a store faults. *)
Lemma exec_entry_code a instr dc pipe k c :
  instrumented instr = true ->
  cursor_at dc k -> 0 <= k <= MAX_NUM_MEM_REFS ->
  let es := instr_entries instr (regs dc) in
  let n := length es in
  (k + Z.of_nat n <= MAX_NUM_MEM_REFS ->
   exists dc',
     exec_code process_id scratch_value (entry_code a instr) (dc, pipe)
       = Done (dc', pipe) /\
     (forall r, regs dc' r = regs dc r) /\
     thread_id dc' = thread_id dc /\
     tls_field dc' = tls_field dc /\
     BUF_PTR dc' = BUF_PTR dc + Z.of_nat n * sizeof_trace_entry_t /\
     load_entries (mem dc') (BUF_PTR dc) n = es /\
     (forall x,
        (forall i, 0 <= i < Z.of_nat n ->
           ~ entry_cell (BUF_PTR dc + i * sizeof_trace_entry_t) x) ->
        mem dc' x = mem dc x)) /\
  (MAX_NUM_MEM_REFS < k + Z.of_nat n ->
   exec_code process_id scratch_value (entry_code a instr ++ c) (dc, pipe) = Fault).
Proof.
  intros Hi Hcur Hk es n.
  pose proof (reg_ptr_tmp_distinct a) as Hne.
  assert (Hne' : reg_tmp_of a <> reg_ptr_of a) by congruence.
  rewrite (entry_code_eq a instr Hi). cbv zeta.
  set (rp := reg_ptr_of a) in *. set (rt := reg_tmp_of a) in *.
  set (srcs := mem_opnds (instr_srcs instr)).
  set (dsts := mem_opnds (instr_dsts instr)).
  assert (Hn : n = (length srcs + length dsts)%nat).
  { unfold n, es, instr_entries. rewrite length_app, !length_map. reflexivity. }
  (* the prologue *)
  set (dc0 := mk_dcontext (thread_id dc)
                (set_reg (regs dc) rp (BUF_PTR dc))
                (set_slot (set_slot (spill dc) slot_ptr (regs dc rp))
                   slot_tmp (regs dc rt))
                (BUF_PTR dc) (mem dc) (tls_field dc)).
  assert (Hinv0 : scratch_inv (regs dc) rp rt dc0).
  { unfold scratch_inv, dc0. cbn [regs spill BUF_PTR].
    split; [apply set_reg_eq |]. split; [reflexivity |]. split; [reflexivity |].
    intros r Hr _. apply set_reg_ne. exact Hr. }
  assert (Ha0 : BUF_PTR dc0 + 0
                = buf_base (tls_field dc0) + k * sizeof_trace_entry_t).
  { unfold dc0. cbn [BUF_PTR tls_field]. red in Hcur. lia. }
  assert (Hpro : forall rest,
            exec_code process_id scratch_value
              ([dr_save_reg rp slot_ptr; dr_save_reg rt slot_tmp;
                dr_insert_read_raw_tls rp] ++ rest) (dc, pipe)
            = exec_code process_id scratch_value rest (dc0, pipe)).
  { intros rest. reflexivity. }
  split.
  - intros Hroom. rewrite Hpro.
    destruct (exec_instrument_opnds (regs dc) rp rt false Hne (instr_srcs instr)
                0 dc0 pipe k [] Hinv0 Ha0 Hk) as (Hdone1 & _).
    destruct Hdone1 as (dc1 & Hex1 & Hinv1 & Hsame1 & Hload1 & Hframe1);
      [fold srcs; lia |].
    fold srcs in Hload1, Hframe1.
    destruct Hsame1 as (Ht1 & Hs1 & Hb1 & Hf1).
    assert (Ha1 : BUF_PTR dc1 + Z.of_nat (length srcs) * sizeof_trace_entry_t
                  = buf_base (tls_field dc1)
                    + (k + Z.of_nat (length srcs)) * sizeof_trace_entry_t).
    { rewrite Hb1, Hf1. lia. }
    destruct (exec_instrument_opnds (regs dc) rp rt true Hne (instr_dsts instr)
                _ dc1 pipe _ [] Hinv1 Ha1 ltac:(lia)) as (Hdone2 & _).
    destruct Hdone2 as (dc2 & Hex2 & Hinv2 & Hsame2 & Hload2 & Hframe2);
      [fold dsts; lia |].
    fold dsts in Hload2, Hframe2.
    destruct Hsame2 as (Ht2 & Hs2 & Hb2 & Hf2).
    destruct Hinv2 as (Hp2 & Hsp2 & Hst2 & Hothers2).
    rewrite exec_code_app, Hex1, bind_Done.
    rewrite exec_code_app, Hex2, bind_Done.
    exec_simpl. regs_simpl.
    eexists. split; [reflexivity |]. exec_simpl.
    assert (Hbp : BUF_PTR dc1 = BUF_PTR dc) by exact Hb1.
    split; [| split; [| split; [| split; [| split]]]].
    + intros r. destruct (decide (r = rt)) as [-> | Hrt]; regs_simpl; [exact Hst2 |].
      destruct (decide (r = rp)) as [-> | Hrp]; regs_simpl; [exact Hsp2 |].
      apply Hothers2; assumption.
    + rewrite Ht2, Ht1. reflexivity.
    + rewrite Hf2, Hf1. reflexivity.
    + rewrite Hp2, Hb2, Hbp, Hn. lia.
    + unfold es, instr_entries. fold srcs dsts. rewrite Hn, load_entries_app.
      f_equal.
      * rewrite <- Hload1. unfold dc0. cbn [BUF_PTR]. rewrite Z.add_0_r.
        apply load_entries_ext. intros i x Hi' Hc.
        apply Hframe2. intros i2 Hi2 Hc2. rewrite Hbp in Hc2.
        apply (entry_cell_slots (BUF_PTR dc) i (Z.of_nat (length srcs) + i2) x);
          [lia | exact Hc |].
        replace (BUF_PTR dc + (Z.of_nat (length srcs) + i2) * sizeof_trace_entry_t)
          with (BUF_PTR dc + Z.of_nat (length srcs) * sizeof_trace_entry_t
                + i2 * sizeof_trace_entry_t) by lia.
        exact Hc2.
      * rewrite <- Hload2, Hbp. reflexivity.
    + intros x Hx. rewrite Hframe2.
      * rewrite Hframe1; [reflexivity |].
        intros i Hi' Hc. unfold dc0 in Hc. cbn [BUF_PTR] in Hc.
        rewrite Z.add_0_r in Hc. apply (Hx i); [lia | exact Hc].
      * intros i Hi' Hc. rewrite Hbp in Hc.
        apply (Hx (Z.of_nat (length srcs) + i)); [lia |].
        replace (BUF_PTR dc + (Z.of_nat (length srcs) + i) * sizeof_trace_entry_t)
          with (BUF_PTR dc + Z.of_nat (length srcs) * sizeof_trace_entry_t
                + i * sizeof_trace_entry_t) by lia.
        exact Hc.
  - intros Hfull. rewrite <- !app_assoc. rewrite Hpro.
    destruct (Z_le_gt_dec (k + Z.of_nat (length srcs)) MAX_NUM_MEM_REFS) as [Hle | Hgt].
    + destruct (exec_instrument_opnds (regs dc) rp rt false Hne (instr_srcs instr)
                  0 dc0 pipe k [] Hinv0 Ha0 Hk) as (Hdone1 & _).
      destruct Hdone1 as (dc1 & Hex1 & Hinv1 & Hsame1 & _); [fold srcs; lia |].
      destruct Hsame1 as (Ht1 & Hs1 & Hb1 & Hf1).
      assert (Ha1 : BUF_PTR dc1 + Z.of_nat (length srcs) * sizeof_trace_entry_t
                    = buf_base (tls_field dc1)
                      + (k + Z.of_nat (length srcs)) * sizeof_trace_entry_t).
      { rewrite Hb1, Hf1. unfold dc0. cbn [BUF_PTR tls_field]. red in Hcur. lia. }
      rewrite exec_code_app, Hex1, bind_Done.
      eapply exec_instrument_opnds; eauto; fold dsts; lia.
    + eapply exec_instrument_opnds; eauto. fold srcs. lia.
Qed.

(** *** Blocks and their clean call *)

Lemma no_clean_call_instrument_opnds ops write rp rt adjust :
  List.filter is_clean_call (fst (instrument_opnds ops write rp rt adjust)) = [].
Proof.
  revert adjust. induction ops as [| o ops IH]; intros adjust; [reflexivity |].
  cbn [instrument_opnds]. destruct (opnd_is_memory_reference o); [| apply IH].
  specialize (IH (adjust + sizeof_trace_entry_t)).
  destruct (instrument_opnds ops write rp rt (adjust + sizeof_trace_entry_t)) as [cs adj].
  cbn [fst] in *. rewrite List.filter_app, IH, app_nil_r.
  unfold instrument_mem, insert_save_type, insert_save_size, insert_save_addr,
    insert_load_buf_ptr.
  destruct (opnd_uses_reg o rp), (opnd_uses_reg o rt); reflexivity.
Qed.

Lemma no_clean_call_entry_code a instr :
  List.filter is_clean_call (entry_code a instr) = [].
Proof.
  destruct (instrumented instr) eqn:Hi.
  - rewrite (entry_code_eq a instr Hi). cbv zeta.
    rewrite !List.filter_app, !no_clean_call_instrument_opnds. reflexivity.
  - unfold entry_code. rewrite event_app_instruction_skip by exact Hi. reflexivity.
Qed.

Lemma no_clean_call_plain_code a instr :
  List.filter is_clean_call (plain_code a instr) = [].
Proof.
  unfold plain_code. destruct (instrumented instr); [| reflexivity].
  apply no_clean_call_entry_code.
Qed.

Lemma clean_call_wanted_eligible a instr ud :
  instrumented instr && clean_call_wanted a instr ud
  = negb (clean_call_inserted ud) && eligible a instr.
Proof.
  unfold clean_call_wanted, eligible, tolerates_clean_call, IF_X86_ELSE.
  destruct (instrumented instr), (clean_call_inserted ud), a; simpl;
    try reflexivity; rewrite ?andb_true_r; reflexivity.
Qed.

(** What [event_app_instruction] does, by cases. *)
Lemma event_app_instruction_cases a instr ud :
  event_app_instruction a instr ud
  = if negb (clean_call_inserted ud) && eligible a instr
    then (entry_code a instr ++ [dr_insert_clean_call], mk_user_data true)
    else (plain_code a instr, ud).
Proof.
  rewrite <- clean_call_wanted_eligible. unfold plain_code.
  destruct (instrumented instr) eqn:Hi.
  - rewrite event_app_instruction_code by exact Hi. cbn [andb].
    destruct (clean_call_wanted a instr ud); [reflexivity |].
    rewrite app_nil_r. reflexivity.
  - rewrite event_app_instruction_skip by exact Hi. reflexivity.
Qed.

(** Once the clean call is in, the rest of the block gets plain code. *)
Lemma instrument_instrs_inserted a bb :
  instrument_instrs a bb (mk_user_data true)
  = map (fun i => (i, plain_code a i)) bb.
Proof.
  induction bb as [| i bb IH]; [reflexivity |].
  cbn [instrument_instrs map]. rewrite event_app_instruction_cases.
  cbn [clean_call_inserted negb andb]. rewrite IH. reflexivity.
Qed.

(** Up to the first instruction that can take it, too. *)
Lemma instrument_instrs_first a pre i post :
  forallb (fun x => negb (eligible a x)) pre = true ->
  eligible a i = true ->
  instrument_instrs a (pre ++ i :: post) (mk_user_data false)
  = map (fun x => (x, plain_code a x)) pre
    ++ (i, entry_code a i ++ [dr_insert_clean_call])
    :: map (fun x => (x, plain_code a x)) post.
Proof.
  intros Hpre Hi. induction pre as [| x pre IH].
  - cbn [app map instrument_instrs]. rewrite event_app_instruction_cases.
    cbn [clean_call_inserted negb andb]. rewrite Hi.
    rewrite instrument_instrs_inserted. reflexivity.
  - cbn [forallb] in Hpre. apply andb_true_iff in Hpre as [Hx Hpre].
    apply negb_true_iff in Hx.
    cbn [app map instrument_instrs]. rewrite event_app_instruction_cases.
    cbn [clean_call_inserted negb andb]. rewrite Hx.
    rewrite (IH Hpre). reflexivity.
Qed.

Lemma instrument_instrs_none a bb :
  existsb (eligible a) bb = false ->
  instrument_instrs a bb (mk_user_data false)
  = map (fun x => (x, plain_code a x)) bb.
Proof.
  induction bb as [| x bb IH]; [reflexivity |].
  cbn [existsb]. intros Hx. apply orb_false_iff in Hx as [Hx Hbb].
  cbn [map instrument_instrs]. rewrite event_app_instruction_cases.
  cbn [clean_call_inserted negb andb]. rewrite Hx, (IH Hbb). reflexivity.
Qed.

Lemma existsb_first {A} (f : A -> bool) (l : list A) :
  existsb f l = true ->
  exists pre x post,
    l = pre ++ x :: post /\ forallb (fun y => negb (f y)) pre = true /\ f x = true.
Proof.
  induction l as [| y l IH]; [discriminate |].
  cbn [existsb]. destruct (f y) eqn:Hy.
  - intros _. exists [], y, l. repeat split; assumption.
  - cbn [orb]. intros Hl. destruct (IH Hl) as (pre & x & post & -> & Hpre & Hx).
    exists (y :: pre), x, post. cbn [forallb]. rewrite Hy, Hpre. repeat split; auto.
Qed.

Lemma bb_clean_calls_plain a bb :
  bb_clean_calls (map (fun x => (x, plain_code a x)) bb) = O.
Proof.
  unfold bb_clean_calls. induction bb as [| x bb IH]; [reflexivity |].
  cbn [map snd concat]. rewrite List.filter_app, length_app.
  rewrite no_clean_call_plain_code. exact IH.
Qed.

Lemma bb_clean_calls_app l1 l2 :
  bb_clean_calls (l1 ++ l2) = (bb_clean_calls l1 + bb_clean_calls l2)%nat.
Proof.
  unfold bb_clean_calls.
  rewrite map_app, concat_app, List.filter_app, length_app. reflexivity.
Qed.

(** *** The stream of a thread *)

Lemma cursor_at_inj dc k k' : cursor_at dc k -> cursor_at dc k' -> k = k'.
Proof.
  pose proof sizeof_pos. unfold cursor_at. intros -> Hk. nia.
Qed.

Lemma msgs_of_app t l1 l2 : msgs_of t (l1 ++ l2) = msgs_of t l1 ++ msgs_of t l2.
Proof. unfold msgs_of. rewrite List.filter_app, map_app. reflexivity. Qed.

Lemma msgs_of_flush t dc k :
  msgs_of t (flush_messages process_id dc k)
  = if thread_id dc =? t
    then (if thread_registered (tls_field dc) then [] else [pid_info process_id (thread_id dc)])
         ++ [thread_entry (thread_id dc) :: buffered dc k]
    else [].
Proof.
  unfold msgs_of, flush_messages.
  destruct (thread_registered (tls_field dc)); cbn [app List.filter fst];
    destruct (thread_id dc =? t); reflexivity.
Qed.

Lemma is_memref_mem_entry write rs o : is_memref_entry (mem_entry write rs o) = true.
Proof.
  unfold is_memref_entry, mem_entry. cbn [type].
  destruct write; rewrite Z.eqb_refl; [apply orb_true_r | reflexivity].
Qed.

Lemma memref_instr_entries instr rs :
  Forall (fun e => is_memref_entry e = true) (instr_entries instr rs).
Proof.
  unfold instr_entries. apply Forall_app. split;
    apply Forall_forall; intros e He; apply list_elem_of_In, in_map_iff in He;
    destruct He as (o & <- & _); apply is_memref_mem_entry.
Qed.

Lemma length_instr_entries instr rs :
  instrumented instr = true ->
  Z.of_nat (length (instr_entries instr rs)) = appended_by instr.
Proof.
  intros Hi. unfold appended_by, instr_entries. rewrite Hi.
  rewrite length_app, !length_map. reflexivity.
Qed.

(** What a [memtrace] that returns has done. *)
Lemma memtrace_Done_inv dc pipe delay dc' pipe' k :
  cursor_at dc k -> 1 <= k ->
  memtrace process_id dc pipe delay = Done (dc', pipe') ->
  (deferred dc delay = true /\ dc' = dc /\ pipe' = pipe) \/
  (deferred dc delay = false /\ dc' = flushed dc k /\
   written pipe' = written pipe ++ flush_messages process_id dc k).
Proof.
  intros Hcur Hk Hm.
  destruct (deferred dc delay) eqn:Hd.
  - rewrite memtrace_deferred in Hm by exact Hd. left. inversion Hm. auto.
  - right. destruct (all_full (returns pipe) (flush_writes dc)) eqn:Hf.
    + rewrite (memtrace_flush dc pipe delay k) in Hm by assumption.
      inversion Hm. auto.
    + rewrite memtrace_short in Hm by assumption. discriminate.
Qed.

(** The entries appended by the code of an instruction. *)
Lemma exec_entry_code_appended a instr dc pipe k :
  instrumented instr = true ->
  cursor_at dc k -> 1 <= k <= MAX_NUM_MEM_REFS ->
  k + appended_by instr <= MAX_NUM_MEM_REFS ->
  exists dc1,
    exec_code process_id scratch_value (entry_code a instr) (dc, pipe)
      = Done (dc1, pipe) /\
    appended dc dc1 k (length (instr_entries instr (regs dc))).
Proof.
  pose proof sizeof_pos as Hs.
  intros Hi Hcur Hk Hroom.
  rewrite <- (length_instr_entries instr (regs dc) Hi) in Hroom.
  destruct (exec_entry_code a instr dc pipe k [] Hi Hcur ltac:(lia)) as (Hdone & _).
  destruct (Hdone Hroom) as (dc1 & Hex & _ & Ht & Hf & Hb & Hload & Hframe).
  exists dc1. split; [exact Hex |].
  set (n := length (instr_entries instr (regs dc))) in *.
  red in Hcur.
  split; [exact Ht |]. split; [exact Hf |]. split.
  { red. rewrite Hb, Hf, Hcur. lia. }
  exists (instr_entries instr (regs dc)). split; [reflexivity |].
  split; [apply memref_instr_entries |].
  unfold buffered. rewrite Hf.
  replace (Z.to_nat (k + Z.of_nat n - 1)) with (Z.to_nat (k - 1) + n)%nat by lia.
  rewrite load_entries_app. f_equal.
  - apply load_entries_ext. intros i x Hi' Hc. apply Hframe. intros i2 Hi2 Hc2.
    rewrite Hcur in Hc2.
    apply (entry_cell_slots (buf_base (tls_field dc)) (i + 1) (k + i2) x); [lia | |].
    + replace (buf_base (tls_field dc) + (i + 1) * sizeof_trace_entry_t)
        with (buf_base (tls_field dc) + sizeof_trace_entry_t
              + i * sizeof_trace_entry_t) by lia.
      exact Hc.
    + replace (buf_base (tls_field dc) + (k + i2) * sizeof_trace_entry_t)
        with (buf_base (tls_field dc) + k * sizeof_trace_entry_t
              + i2 * sizeof_trace_entry_t) by lia.
      exact Hc2.
  - rewrite <- Hload. f_equal. rewrite Hcur. rewrite Z2Nat.id by lia. lia.
Qed.

(** *** The invariant of a thread *)

Lemma thread_inv_log_other log extra t dc :
  thread_inv process_id log t dc -> msgs_of t extra = [] ->
  thread_inv process_id (log ++ extra) t dc.
Proof.
  intros (Ht & Hbuf & Hmsgs) He. split; [exact Ht |]. split; [exact Hbuf |].
  rewrite msgs_of_app, He, app_nil_r. exact Hmsgs.
Qed.

Lemma thread_inv_appended log t dc dc1 k n :
  thread_inv process_id log t dc -> cursor_at dc k ->
  appended dc dc1 k n -> k + Z.of_nat n <= MAX_NUM_MEM_REFS ->
  thread_inv process_id log t dc1.
Proof.
  intros (Ht & (k0 & Hk0 & Hr0 & Hb0) & Hmsgs) Hcur
         (Ht1 & Hf1 & Hc1 & es & Hlen & Hes & Hbuf) Hroom.
  assert (k0 = k) as -> by (eapply cursor_at_inj; eauto).
  split; [congruence |]. split.
  - exists (k + Z.of_nat n). split; [exact Hc1 |]. split; [lia |].
    rewrite Hbuf. apply Forall_app. split; assumption.
  - rewrite Hf1. exact Hmsgs.
Qed.

Lemma thread_inv_flushed log t dc k :
  thread_inv process_id log t dc -> cursor_at dc k ->
  thread_inv process_id (log ++ flush_messages process_id dc k) t (flushed dc k).
Proof.
  intros (Ht & (k0 & Hk0 & Hr0 & Hb0) & payloads & Hmsgs & Hnone & Hpay & Hnum) Hcur.
  assert (k0 = k) as -> by (eapply cursor_at_inj; eauto).
  split; [exact Ht |]. split.
  - exists 1. split; [reflexivity |]. split; [unfold MAX_NUM_MEM_REFS; lia |].
    unfold buffered. simpl. constructor.
  - exists (payloads ++ [thread_entry t :: buffered dc k]).
    unfold flushed. cbn [tls_field thread_registered num_refs].
    rewrite msgs_of_app, msgs_of_flush, Hmsgs, Ht, Z.eqb_refl.
    split; [| split; [discriminate | split]].
    + destruct (thread_registered (tls_field dc)) eqn:Hreg.
      * rewrite <- app_assoc. reflexivity.
      * rewrite (Hnone eq_refl). reflexivity.
    + apply Forall_app. split; [exact Hpay |].
      constructor; [| constructor]. exists (buffered dc k). split; [reflexivity | exact Hb0].
    + rewrite Hnum, wrap64_add_l. f_equal.
      rewrite concat_app, length_app. cbn [concat length app].
      rewrite app_nil_r. cbn [length]. unfold buffered.
      rewrite load_entries_length. lia.
Qed.

Lemma msgs_of_flush_other t dc k :
  thread_id dc <> t -> msgs_of t (flush_messages process_id dc k) = [].
Proof.
  intros Hne. rewrite msgs_of_flush.
  destruct (Z.eqb_spec (thread_id dc) t); [contradiction | reflexivity].
Qed.

(** [memtrace] keeps the invariant of its thread and adds messages of its
    thread only. *)
Lemma memtrace_thread_inv t dc pipe delay dc' pipe' :
  thread_inv process_id (written pipe) t dc ->
  memtrace process_id dc pipe delay = Done (dc', pipe') ->
  thread_inv process_id (written pipe') t dc' /\
  exists extra, written pipe' = written pipe ++ extra /\
                forall t', t' <> t -> msgs_of t' extra = [].
Proof.
  intros Hinv Hm.
  pose proof Hinv as (Ht & (k & Hk & Hr & Hb) & _).
  destruct (memtrace_Done_inv dc pipe delay dc' pipe' k Hk ltac:(lia) Hm)
    as [(_ & -> & ->) | (_ & -> & Hw)].
  - split; [exact Hinv |]. exists []. rewrite app_nil_r. auto.
  - rewrite Hw. split; [apply thread_inv_flushed; assumption |].
    eexists. split; [reflexivity |].
    intros t' Hne. apply msgs_of_flush_other. congruence.
Qed.

(** So does the code inserted in front of an instruction. *)
Lemma exec_event_thread_inv t instr ud dc pipe dc' pipe' :
  thread_inv process_id (written pipe) t dc ->
  exec_code process_id scratch_value
    (fst (event_app_instruction arch instr ud)) (dc, pipe) = Done (dc', pipe') ->
  thread_inv process_id (written pipe') t dc' /\
  exists extra, written pipe' = written pipe ++ extra /\
                forall t', t' <> t -> msgs_of t' extra = [].
Proof.
  intros Hinv Hex.
  pose proof Hinv as (Ht & (k & Hk & Hr & Hb) & _).
  assert (Hnone : forall pipe0 : named_pipe_t,
            exists extra : list (Z * list trace_entry_t),
              written pipe0 = written pipe0 ++ extra /\
              forall t', t' <> t -> msgs_of t' extra = []).
  { intros pipe0. exists []. rewrite app_nil_r. auto. }
  destruct (instrumented instr) eqn:Hi.
  2:{ rewrite event_app_instruction_skip in Hex by exact Hi.
      cbn in Hex. inversion Hex. subst. auto. }
  rewrite event_app_instruction_code in Hex by exact Hi. cbn [fst] in Hex.
  destruct (Z_le_gt_dec (k + appended_by instr) MAX_NUM_MEM_REFS) as [Hle | Hgt].
  2:{ rewrite <- (length_instr_entries instr (regs dc) Hi) in Hgt.
      destruct (exec_entry_code arch instr dc pipe k
                  (if clean_call_wanted arch instr ud then [dr_insert_clean_call] else [])
                  Hi Hk ltac:(lia)) as (_ & Hfault).
      rewrite Hfault in Hex by lia. discriminate. }
  destruct (exec_entry_code_appended arch instr dc pipe k Hi Hk Hr Hle)
    as (dc1 & Hex1 & Happ).
  rewrite <- (length_instr_entries instr (regs dc) Hi) in Hle.
  pose proof (thread_inv_appended _ t dc dc1 k _ Hinv Hk Happ Hle) as Hinv1.
  rewrite exec_code_app, Hex1, bind_Done in Hex.
  destruct (clean_call_wanted arch instr ud).
  - cbn [exec_code exec_minstr] in Hex. unfold clean_call in Hex.
    destruct (memtrace process_id dc1 pipe true) as [[dc2 pipe2] | |] eqn:Hm;
      try discriminate.
    cbn in Hex. inversion Hex. subst.
    eapply memtrace_thread_inv; eauto.
  - cbn in Hex. inversion Hex. subst. auto.
Qed.

(** *** Sums over the threads *)

Lemma sum_threads_insert_new f (m : gmap Z thread) t th :
  m !! t = None ->
  sum_threads f (<[t := th]> m) = f th + sum_threads f m.
Proof.
  intros Hm. unfold sum_threads.
  rewrite map_fold_insert_L; [reflexivity | | exact Hm].
  intros. lia.
Qed.

Lemma sum_threads_delete f (m : gmap Z thread) t th :
  m !! t = Some th ->
  sum_threads f m = f th + sum_threads f (delete t m).
Proof.
  intros Hm. unfold sum_threads.
  rewrite (map_fold_delete_L _ _ t th m); [reflexivity | | exact Hm].
  intros. lia.
Qed.

Lemma sum_threads_insert f (m : gmap Z thread) t th th' :
  m !! t = Some th ->
  sum_threads f (<[t := th']> m) = sum_threads f m + f th' - f th.
Proof.
  intros Hm. rewrite (sum_threads_delete f m t th Hm).
  rewrite <- insert_delete_eq.
  rewrite sum_threads_insert_new by apply lookup_delete_eq. lia.
Qed.

Lemma sum_threads_ext f g (m : gmap Z thread) :
  (forall t th, m !! t = Some th -> f th = g th) ->
  sum_threads f m = sum_threads g m.
Proof.
  induction m as [| t th m Hm IH] using map_ind; intros Hfg.
  - reflexivity.
  - rewrite !sum_threads_insert_new by exact Hm.
    rewrite (Hfg t th) by apply lookup_insert_eq.
    rewrite IH; [reflexivity |].
    intros t' th' Ht'. apply (Hfg t').
    rewrite lookup_insert_ne; [exact Ht' |]. intros ->. congruence.
Qed.

(** *** The invariant of the process *)

Lemma todo_cases th todo :
  todo_ok th -> status th = Exiting todo ->
  todo = drop 1 event_thread_exit \/ todo = drop 2 event_thread_exit \/
  todo = drop 3 event_thread_exit \/ todo = drop 4 event_thread_exit \/
  todo = drop 5 event_thread_exit \/ todo = drop 6 event_thread_exit.
Proof.
  unfold todo_ok. intros Hok Hs. rewrite Hs in Hok.
  destruct Hok as (n & Hn & ->).
  destruct n as [| [| [| [| [| [| [| n]]]]]]]; try lia; tauto.
Qed.

Lemma storing_holds_mutex th rest :
  todo_ok th -> status th = Exiting (stmt_store_num_refs :: rest) ->
  holds_mutex th = true.
Proof.
  intros Hok Hs. unfold holds_mutex. rewrite Hs.
  destruct (todo_cases th _ Hok Hs) as [Hc | [Hc | [Hc | [Hc | [Hc | Hc]]]]];
    try discriminate Hc.
  inversion Hc. reflexivity.
Qed.

Lemma process_inv_wrapped p : process_inv process_id p -> wrap64 (g_num_refs p) = g_num_refs p.
Proof. intros (_ & _ & _ & Hg). rewrite Hg. apply wrap64_wrap64. Qed.

(** A step of thread [t] that replaces its record, extends the log by
    messages of [t], and treats mutex and counter as the invariant asks. *)
Lemma process_inv_update p t th th' g' mx' pipe' extra :
  process_inv process_id p ->
  threads p !! t = Some th ->
  written pipe' = written (ipc_pipe p) ++ extra ->
  (forall t', t' <> t -> msgs_of t' extra = []) ->
  thread_inv process_id (written pipe') t (ctx th') ->
  todo_ok th' ->
  loaded_ok g' th' ->
  (holds_mutex th' = true <-> mx' = Some t) ->
  (forall t', t' <> t -> (mx' = Some t' <-> mutex p = Some t')) ->
  (g' = g_num_refs p \/ mutex p = Some t) ->
  g' = wrap64 (g_num_refs p + folded_num_refs th' - folded_num_refs th) ->
  process_inv process_id (mk_process (<[t := th']> (threads p)) g' mx' pipe').
Proof.
  intros (Hth & Hnone & Hmx & Hg) Hlook Hw Hextra Hinv' Htodo' Hload' Hholds Hothers
         Hcase Hg'.
  unfold process_inv. cbn [threads g_num_refs mutex ipc_pipe].
  split; [| split; [| split]].
  - intros t0 th0 Ht0. destruct (decide (t = t0)) as [<- | Hne].
    + rewrite lookup_insert_eq in Ht0. inversion Ht0. subst th0.
      split; [exact Hinv' |]. split; [exact Htodo' |]. split; [exact Hload' |].
      apply Hholds.
    + rewrite lookup_insert_ne in Ht0 by exact Hne.
      destruct (Hth t0 th0 Ht0) as (Hi0 & Hto0 & Hl0 & Hh0).
      split; [| split; [exact Hto0 | split]].
      * rewrite Hw. apply thread_inv_log_other; [exact Hi0 |].
        apply Hextra. congruence.
      * destruct Hcase as [-> | Hmt]; [exact Hl0 |].
        unfold loaded_ok. destruct (status th0) as [| [| s rest] |] eqn:Hs; auto.
        destruct s; auto.
        pose proof (storing_holds_mutex th0 rest Hto0 Hs) as Hh.
        apply Hh0 in Hh. congruence.
      * intros Hh. apply Hothers; [congruence |]. apply Hh0. exact Hh.
  - intros t0 Ht0. apply lookup_insert_None in Ht0 as [Ht0 Hne].
    rewrite Hw, msgs_of_app, (Hnone t0 Ht0), (Hextra t0) by congruence. reflexivity.
  - intros t0 Hm0. destruct (decide (t = t0)) as [<- | Hne].
    + exists th'. rewrite lookup_insert_eq. split; [reflexivity |].
      apply Hholds. exact Hm0.
    + rewrite lookup_insert_ne by exact Hne. apply Hmx.
      apply Hothers; [congruence | exact Hm0].
  - rewrite (sum_threads_insert _ _ t th th' Hlook).
    rewrite Hg', Hg.
    replace (wrap64 (sum_threads folded_num_refs (threads p)) + folded_num_refs th'
             - folded_num_refs th)
      with (wrap64 (sum_threads folded_num_refs (threads p))
            + (folded_num_refs th' - folded_num_refs th)) by lia.
    rewrite wrap64_add_l. f_equal. lia.
Qed.

Lemma process_inv_init p tid dc :
  process_inv process_id p ->
  threads p !! tid = None ->
  thread_id dc = tid ->
  cursor_at dc 1 ->
  tls_field dc = mk_per_thread (seg_base (tls_field dc)) (buf_base (tls_field dc)) 0 false ->
  process_inv process_id
    (mk_process (<[tid := mk_thread Active dc 0 true]> (threads p))
       (g_num_refs p) (mutex p) (ipc_pipe p)).
Proof.
  intros (Hth & Hnone & Hmx & Hg) Hlook Htid Hcur Htls.
  unfold process_inv. cbn [threads g_num_refs mutex ipc_pipe].
  split; [| split; [| split]].
  - intros t0 th0 Ht0. destruct (decide (tid = t0)) as [<- | Hne].
    + rewrite lookup_insert_eq in Ht0. inversion Ht0. subst th0. cbn [ctx].
      split; [| split; [exact I | split; [exact I | discriminate]]].
      split; [exact Htid |]. split.
      * exists 1. split; [exact Hcur |]. split; [unfold MAX_NUM_MEM_REFS; lia |].
        constructor.
      * exists []. rewrite Htls. cbn [thread_registered num_refs].
        rewrite (Hnone tid Hlook). repeat split; constructor.
    + rewrite lookup_insert_ne in Ht0 by exact Hne. apply Hth. exact Ht0.
  - intros t0 Ht0. apply lookup_insert_None in Ht0 as [Ht0 _]. apply Hnone. exact Ht0.
  - intros t0 Hm0. destruct (Hmx t0 Hm0) as (th0 & Ht0 & Hh0).
    exists th0. split; [| exact Hh0].
    rewrite lookup_insert_ne; [exact Ht0 |]. intros ->. congruence.
  - rewrite sum_threads_insert_new by exact Hlook. rewrite Hg. reflexivity.
Qed.

(** An active thread does not hold the mutex. *)
Lemma mutex_not_held p t th :
  process_inv process_id p -> threads p !! t = Some th ->
  holds_mutex th = false -> mutex p <> Some t.
Proof.
  intros (_ & _ & Hmx & _) Hlook Hh Hm.
  destruct (Hmx t Hm) as (th0 & Ht0 & Hh0). congruence.
Qed.

Lemma mutex_held p t th :
  process_inv process_id p -> threads p !! t = Some th ->
  holds_mutex th = true -> mutex p = Some t.
Proof. intros (Hth & _) Hlook Hh. apply (Hth t th Hlook). exact Hh. Qed.

(** A step of [t] that touches neither mutex nor counter. *)
Lemma process_inv_quiet p t th th' pipe' extra :
  process_inv process_id p ->
  threads p !! t = Some th ->
  written pipe' = written (ipc_pipe p) ++ extra ->
  (forall t', t' <> t -> msgs_of t' extra = []) ->
  thread_inv process_id (written pipe') t (ctx th') ->
  todo_ok th' ->
  loaded_ok (g_num_refs p) th' ->
  holds_mutex th' = holds_mutex th ->
  folded_num_refs th' = folded_num_refs th ->
  process_inv process_id
    (mk_process (<[t := th']> (threads p)) (g_num_refs p) (mutex p) pipe').
Proof.
  intros Hinv Hlook Hw Hextra Hinv' Htodo' Hload' Hh Hf.
  eapply process_inv_update; eauto.
  - rewrite Hh. split.
    + apply (mutex_held p t th Hinv Hlook).
    + intros Hm. destruct (holds_mutex th) eqn:Hth; [reflexivity |].
      exfalso. exact (mutex_not_held p t th Hinv Hlook Hth Hm).
  - rewrite Hf. replace (g_num_refs p + folded_num_refs th - folded_num_refs th)
      with (g_num_refs p) by lia.
    symmetry. apply process_inv_wrapped. exact Hinv.
Qed.

Lemma thread_inv_of p t th :
  process_inv process_id p -> threads p !! t = Some th ->
  thread_inv process_id (written (ipc_pipe p)) t (ctx th).
Proof. intros (Hth & _) Hlook. apply (Hth t th Hlook). Qed.

Ltac flags Hs :=
  unfold holds_mutex, folded_num_refs, folded, todo_ok, loaded_ok, final_num_refs;
  cbn [status ctx loaded]; rewrite ?Hs;
  cbn [has_stmt existsb exit_stmt_eqb orb andb negb].

(** The statements of [event_thread_exit] keep the invariant. *)
Lemma exit_step_process_inv p t th n s rest p' :
  process_inv process_id p ->
  threads p !! t = Some th ->
  s :: rest = drop n event_thread_exit ->
  match n with
  | O => status th = Active
  | _ => status th = Exiting (s :: rest)
  end ->
  exit_step process_id p t th s rest = Done p' ->
  process_inv process_id p'.
Proof.
  intros Hinv Hlook Hdrop Hs Hstep.
  pose proof (thread_inv_of p t th Hinv Hlook) as Hti.
  assert (Hnil : written (ipc_pipe p) = written (ipc_pipe p) ++ [])
    by (rewrite app_nil_r; reflexivity).
  assert (Hnone : forall t', t' <> t -> msgs_of t' [] = []) by reflexivity.
  destruct n as [| [| [| [| [| [| [| n]]]]]]]; cbn in Hdrop;
    rewrite ?drop_nil in Hdrop; try discriminate Hdrop;
    injection Hdrop as -> ->; cbn [exit_step] in Hstep.
  - (* memtrace(drcontext, false) *)
    destruct (memtrace process_id (ctx th) (ipc_pipe p) false)
      as [[dc pipe'] | |] eqn:Hm; try discriminate.
    cbn in Hstep. inversion Hstep. subst p'. clear Hstep.
    destruct (memtrace_thread_inv t _ _ _ _ _ Hti Hm) as (Hti' & extra & Hw & Hextra).
    eapply process_inv_quiet; eauto.
    + exists 1%nat. split; [lia | reflexivity].
    + exact I.
    + flags Hs. reflexivity.
    + flags Hs. reflexivity.
  - (* dr_mutex_lock *)
    destruct (mutex p) eqn:Hmx.
    { inversion Hstep. subst p'. exact Hinv. }
    inversion Hstep. subst p'. clear Hstep.
    eapply process_inv_update; eauto.
    + exists 2%nat. split; [lia | reflexivity].
    + exact I.
    + flags Hs. cbn. tauto.
    + intros t' Hne. rewrite Hmx. split; [| discriminate].
      intros Hm. inversion Hm. congruence.
    + replace (folded_num_refs _) with 0 by (flags Hs; reflexivity).
      replace (folded_num_refs th) with 0 by (flags Hs; reflexivity).
      rewrite Z.add_0_r, Z.sub_0_r. symmetry.
      apply process_inv_wrapped. exact Hinv.
  - (* the read of num_refs *)
    inversion Hstep. subst p'. clear Hstep.
    eapply process_inv_quiet; eauto.
    + exists 3%nat. split; [lia | reflexivity].
    + reflexivity.
    + flags Hs. reflexivity.
    + flags Hs. reflexivity.
  - (* the write of num_refs *)
    inversion Hstep. subst p'. clear Hstep.
    assert (Hheld : mutex p = Some t).
    { apply (mutex_held p t th Hinv Hlook). flags Hs. reflexivity. }
    assert (Hloaded : loaded th = g_num_refs p).
    { destruct Hinv as (Hth & _). destruct (Hth t th Hlook) as (_ & _ & Hl & _).
      unfold loaded_ok in Hl. rewrite Hs in Hl. exact Hl. }
    eapply process_inv_update; eauto.
    + exists 4%nat. split; [lia | reflexivity].
    + exact I.
    + flags Hs. cbn. tauto.
    + rewrite Hloaded.
      replace (folded_num_refs th) with 0 by (flags Hs; reflexivity).
      flags Hs. cbn. f_equal. lia.
  - (* dr_mutex_unlock *)
    inversion Hstep. subst p'. clear Hstep.
    assert (Hheld : mutex p = Some t).
    { apply (mutex_held p t th Hinv Hlook). flags Hs. reflexivity. }
    eapply process_inv_update; eauto.
    + exists 5%nat. split; [lia | reflexivity].
    + exact I.
    + flags Hs. cbn. split; discriminate.
    + intros t' Hne. rewrite Hheld. split; [discriminate | congruence].
    + replace (folded_num_refs th) with (final_num_refs th) by (flags Hs; reflexivity).
      flags Hs. cbn.
      replace (g_num_refs p + num_refs (tls_field (ctx th)) - num_refs (tls_field (ctx th)))
        with (g_num_refs p) by lia.
      symmetry. apply process_inv_wrapped. exact Hinv.
  - (* dr_raw_mem_free *)
    inversion Hstep. subst p'. clear Hstep.
    eapply process_inv_quiet; eauto.
    + exists 6%nat. split; [lia | reflexivity].
    + exact I.
    + flags Hs. reflexivity.
    + flags Hs. reflexivity.
  - (* dr_thread_free *)
    inversion Hstep. subst p'. clear Hstep.
    eapply process_inv_quiet; eauto.
    + exact I.
    + exact I.
    + flags Hs. reflexivity.
    + flags Hs. reflexivity.
Qed.

Lemma step_process_inv p e p' :
  process_inv process_id p ->
  step process_id scratch_value arch p e = Done p' ->
  process_inv process_id p'.
Proof.
  intros Hinv Hstep. destruct e as [tid seg buf rs ss m | tid instr ud rs | tid];
    cbn [step] in Hstep; destruct (threads p !! tid) as [th |] eqn:Hlook;
    try (inversion Hstep; subst p'; exact Hinv).
  - (* event_thread_init *)
    unfold event_thread_init in Hstep.
    destruct (negb (seg =? 0) && negb (buf =? 0)); [| discriminate].
    cbn in Hstep. inversion Hstep. subst p'.
    apply process_inv_init; auto. red. cbn. unfold BUF_HDR_SLOTS. reflexivity.
  - (* an instrumented instruction *)
    destruct (status th) eqn:Hs; try (inversion Hstep; subst p'; exact Hinv).
    destruct (exec_code process_id scratch_value _ _) as [[dc pipe'] | |] eqn:Hex;
      try discriminate.
    cbn in Hstep. inversion Hstep. subst p'. clear Hstep.
    pose proof (thread_inv_of p tid th Hinv Hlook) as Hti.
    destruct (exec_event_thread_inv tid instr ud (set_regs (ctx th) rs)
                (ipc_pipe p) dc pipe' Hti Hex) as (Hti' & extra & Hw & Hextra).
    eapply process_inv_quiet; eauto.
    + exact I.
    + exact I.
    + flags Hs. reflexivity.
    + flags Hs. reflexivity.
  - (* a statement of event_thread_exit *)
    destruct (status th) as [| [| s rest] |] eqn:Hs;
      try (inversion Hstep; subst p'; exact Hinv).
    + cbn [event_thread_exit] in Hstep.
      eapply (exit_step_process_inv p tid th 0); eauto.
    + destruct Hinv as (Hth & Hrest). destruct (Hth tid th Hlook) as (_ & Hto & _).
      unfold todo_ok in Hto. rewrite Hs in Hto. destruct Hto as (n & Hn & Hdrop).
      destruct n as [| n]; [lia |].
      eapply (exit_step_process_inv p tid th (S n)); eauto.
      split; assumption.
Qed.

Lemma dr_init_process_inv rets : process_inv process_id (dr_init rets).
Proof.
  unfold process_inv, dr_init. cbn [threads g_num_refs mutex ipc_pipe written].
  split; [| split; [| split]].
  - intros t th Ht. rewrite lookup_empty in Ht. discriminate.
  - reflexivity.
  - discriminate.
  - reflexivity.
Qed.

Lemma run_app es1 es2 p :
  run process_id scratch_value arch (es1 ++ es2) p
  = (p ← run process_id scratch_value arch es1 p;
     run process_id scratch_value arch es2 p).
Proof.
  revert p. induction es1 as [| e es1 IH]; intros p; [reflexivity |].
  cbn [app run]. destruct (step process_id scratch_value arch p e); cbn; auto.
Qed.

Lemma run_process_inv es p p' :
  process_inv process_id p ->
  run process_id scratch_value arch es p = Done p' ->
  process_inv process_id p'.
Proof.
  revert p. induction es as [| e es IH]; intros p Hinv Hrun.
  - inversion Hrun. subst. exact Hinv.
  - cbn [run] in Hrun.
    destruct (step process_id scratch_value arch p e) as [p1 | |] eqn:Hstep;
      try discriminate.
    apply (IH p1); [| exact Hrun]. eapply step_process_inv; eauto.
Qed.

(** *** Kinds of entries *)

Lemma enum_wrap16 :
  wrap16 TRACE_TYPE_READ = TRACE_TYPE_READ /\
  wrap16 TRACE_TYPE_WRITE = TRACE_TYPE_WRITE /\
  wrap16 TRACE_TYPE_THREAD = TRACE_TYPE_THREAD /\
  wrap16 TRACE_TYPE_PID = TRACE_TYPE_PID.
Proof.
  destruct Henum as (Hr & _).
  repeat match goal with
         | Hf : Forall _ (_ :: _) |- _ => apply Forall_cons_1 in Hf as [? Hf]
         end.
  unfold wrap16. repeat split; apply Z.mod_small; assumption.
Qed.

Lemma enum_distinct :
  TRACE_TYPE_THREAD <> TRACE_TYPE_READ /\ TRACE_TYPE_THREAD <> TRACE_TYPE_WRITE /\
  TRACE_TYPE_PID <> TRACE_TYPE_READ /\ TRACE_TYPE_PID <> TRACE_TYPE_WRITE /\
  TRACE_TYPE_THREAD <> TRACE_TYPE_PID.
Proof.
  destruct Henum as (_ & Hd).
  apply NoDup_cons in Hd as [Hr Hd]. apply NoDup_cons in Hd as [Hw Hd].
  apply NoDup_cons in Hd as [Ht _].
  repeat match goal with
         | Hn : _ ∉ _ :: _ |- _ => apply not_elem_of_cons in Hn as [? Hn]
         end.
  repeat split; congruence.
Qed.

Lemma thread_entry_kind t :
  is_memref_entry (thread_entry t) = false /\ is_pid_entry (thread_entry t) = false.
Proof.
  destruct enum_wrap16 as (Hr & Hw & Ht & Hp).
  destruct enum_distinct as (H1 & H2 & _ & _ & H5).
  unfold is_memref_entry, is_pid_entry, thread_entry. cbn [type].
  rewrite Hr, Hw, Ht, Hp. split.
  - apply orb_false_iff. split; apply Z.eqb_neq; assumption.
  - apply Z.eqb_neq. assumption.
Qed.

Lemma pid_entry_kind :
  is_memref_entry (pid_entry process_id) = false /\
  is_pid_entry (pid_entry process_id) = true.
Proof.
  destruct enum_wrap16 as (Hr & Hw & Ht & Hp).
  destruct enum_distinct as (_ & _ & H3 & H4 & _).
  unfold is_memref_entry, is_pid_entry, pid_entry. cbn [type].
  rewrite Hr, Hw, Hp. split.
  - apply orb_false_iff. split; apply Z.eqb_neq; assumption.
  - apply Z.eqb_refl.
Qed.

Lemma memref_not_pid e : is_memref_entry e = true -> is_pid_entry e = false.
Proof.
  destruct enum_wrap16 as (Hr & Hw & Ht & Hp).
  destruct enum_distinct as (_ & _ & H3 & H4 & _).
  unfold is_memref_entry, is_pid_entry. rewrite Hr, Hw, Hp.
  intros He. apply orb_true_iff in He. apply Z.eqb_neq.
  destruct He as [He | He]; apply Z.eqb_eq in He; congruence.
Qed.

Lemma filter_all {A} (f : A -> bool) (l : list A) :
  Forall (fun x => f x = true) l -> List.filter f l = l.
Proof.
  induction 1 as [| x l Hx _ IH]; [reflexivity |].
  cbn [List.filter]. rewrite Hx, IH. reflexivity.
Qed.

Lemma filter_none {A} (f : A -> bool) (l : list A) :
  Forall (fun x => f x = false) l -> List.filter f l = [].
Proof.
  induction 1 as [| x l Hx _ IH]; [reflexivity |].
  cbn [List.filter]. rewrite Hx, IH. reflexivity.
Qed.

(** In messages with buffers, every record but the header of each message
    is a memory reference, and none is a PID entry. *)
Lemma payloads_count t payloads :
  Forall (payload_ok t) payloads ->
  Z.of_nat (length (concat payloads))
  = Z.of_nat (length (List.filter is_memref_entry (concat payloads)))
    + Z.of_nat (length payloads) /\
  List.filter is_pid_entry (concat payloads) = [].
Proof.
  induction 1 as [| m payloads (es & -> & Hes) _ (IH1 & IH2)]; [split; reflexivity |].
  destruct (thread_entry_kind t) as (Hm & Hp).
  cbn [concat app List.filter length]. rewrite Hm, Hp.
  rewrite !List.filter_app, !length_app, IH2.
  rewrite (filter_all _ es Hes).
  rewrite (filter_none is_pid_entry es).
  - split; [lia | reflexivity].
  - eapply Forall_impl; [exact Hes |]. intros e. apply memref_not_pid.
Qed.

(** *** What the invariant says about streams and counters *)

Lemma thread_stream log t dc :
  thread_inv process_id log t dc ->
  exists payloads,
    Forall (payload_ok t) payloads /\
    msgs_of t log
    = (if thread_registered (tls_field dc) then [pid_info process_id t] else [])
      ++ payloads /\
    (thread_registered (tls_field dc) = false -> payloads = []) /\
    num_refs (tls_field dc) = wrap64 (recorded_of t log + flushes_of t log) /\
    length (List.filter is_pid_entry (concat (msgs_of t log)))
    = (if thread_registered (tls_field dc) then 1 else 0)%nat.
Proof.
  intros (_ & _ & payloads & Hmsgs & Hnone & Hpay & Hnum).
  destruct (payloads_count t payloads Hpay) as (Hcount & Hnopid).
  destruct (thread_entry_kind t) as (Htm & Htp).
  destruct pid_entry_kind as (Hpm & Hpp).
  exists payloads. split; [exact Hpay |]. split; [exact Hmsgs |].
  split; [exact Hnone |].
  unfold recorded_of, flushes_of. rewrite Hmsgs.
  destruct (thread_registered (tls_field dc)).
  - cbn [app tail concat]. unfold pid_info.
    cbn [app List.filter length]. rewrite Htm, Htp, Hpm, Hpp.
    rewrite Hnopid. split; [| reflexivity].
    rewrite Hnum, Hcount. reflexivity.
  - rewrite (Hnone eq_refl) in *. split; [exact Hnum | reflexivity].
Qed.

Lemma final_num_refs_range p t th :
  process_inv process_id p -> threads p !! t = Some th ->
  0 <= final_num_refs th < 18446744073709551616.
Proof.
  intros Hinv Hlook.
  destruct (thread_inv_of p t th Hinv Hlook) as (_ & _ & payloads & _ & _ & _ & Hnum).
  unfold final_num_refs. rewrite Hnum. unfold wrap64. apply Z.mod_pos_bound. lia.
Qed.

Lemma sum_threads_nonneg f (m : gmap Z thread) :
  (forall t th, m !! t = Some th -> 0 <= f th) -> 0 <= sum_threads f m.
Proof.
  induction m as [| t th m Hm IH] using map_ind; intros Hf.
  - unfold sum_threads. rewrite map_fold_empty. lia.
  - rewrite sum_threads_insert_new by exact Hm.
    assert (0 <= f th) by (apply (Hf t); apply lookup_insert_eq).
    assert (0 <= sum_threads f m).
    { apply IH. intros t' th' Ht'. apply (Hf t').
      rewrite lookup_insert_ne; [exact Ht' |]. intros ->. congruence. }
    lia.
Qed.

(** Sums of wrapped summands, wrapped. *)
Lemma sum_threads_wrap64 f g (m : gmap Z thread) :
  (forall t th, m !! t = Some th -> f th = wrap64 (g th)) ->
  wrap64 (sum_threads f m) = wrap64 (sum_threads g m).
Proof.
  induction m as [| t th m Hm IH] using map_ind; intros Hfg.
  - reflexivity.
  - rewrite !sum_threads_insert_new by exact Hm.
    rewrite (Hfg t th) by apply lookup_insert_eq.
    rewrite wrap64_add_l.
    rewrite <- (wrap64_add_r _ (sum_threads f m)), IH, wrap64_add_r; [reflexivity |].
    intros t' th' Ht'. apply (Hfg t').
    rewrite lookup_insert_ne; [exact Ht' |]. intros ->. congruence.
Qed.

(** What a step does to the global counter. *)
Lemma step_g_num_refs p e p' :
  process_inv process_id p ->
  step process_id scratch_value arch p e = Done p' ->
  g_num_refs p' = g_num_refs p \/
  exists t th rest,
    e = ev_exit_step t /\ threads p !! t = Some th /\
    status th = Exiting (stmt_store_num_refs :: rest) /\
    mutex p = Some t /\
    g_num_refs p' = wrap64 (g_num_refs p + final_num_refs th).
Proof.
  intros Hinv Hstep. destruct e as [tid seg buf rs ss m | tid instr ud rs | tid];
    cbn [step] in Hstep; destruct (threads p !! tid) as [th |] eqn:Hlook;
    try (inversion Hstep; subst p'; left; reflexivity).
  - destruct (event_thread_init tid seg buf rs ss m); try discriminate.
    cbn in Hstep. inversion Hstep. left. reflexivity.
  - destruct (status th); try (inversion Hstep; subst p'; left; reflexivity).
    destruct (exec_code process_id scratch_value _ _) as [[dc pipe'] | |];
      try discriminate.
    cbn in Hstep. inversion Hstep. left. reflexivity.
  - destruct (status th) as [| [| s rest] |] eqn:Hs;
      try (inversion Hstep; subst p'; left; reflexivity).
    + cbn [event_thread_exit exit_step] in Hstep.
      destruct (memtrace process_id (ctx th) (ipc_pipe p) false) as [[dc pipe'] | |];
        try discriminate.
      cbn in Hstep. inversion Hstep. left. reflexivity.
    + destruct s; cbn [exit_step] in Hstep;
        try (inversion Hstep; subst p'; left; reflexivity).
      * destruct (memtrace process_id (ctx th) (ipc_pipe p) false) as [[dc pipe'] | |];
          try discriminate.
        cbn in Hstep. inversion Hstep. left. reflexivity.
      * destruct (mutex p); inversion Hstep; left; reflexivity.
      * right. exists tid, th, rest.
        pose proof Hinv as (Hth & _).
        destruct (Hth tid th Hlook) as (_ & Hto & Hl & Hh).
        unfold loaded_ok in Hl. rewrite Hs in Hl.
        inversion Hstep. cbn [g_num_refs]. rewrite Hl.
        repeat split; auto.
        apply Hh. eapply storing_holds_mutex; eauto.
Qed.

(** *** Steps of [event_thread_exit] *)

Lemma step_exit_active p t th :
  threads p !! t = Some th -> status th = Active ->
  step process_id scratch_value arch p (ev_exit_step t)
  = exit_step process_id p t th stmt_memtrace (drop 1 event_thread_exit).
Proof. intros Hlook Hs. cbn [step]. rewrite Hlook, Hs. reflexivity. Qed.

Lemma step_exit_exiting p t th s rest :
  threads p !! t = Some th -> status th = Exiting (s :: rest) ->
  step process_id scratch_value arch p (ev_exit_step t)
  = exit_step process_id p t th s rest.
Proof. intros Hlook Hs. cbn [step]. rewrite Hlook, Hs. reflexivity. Qed.

(** *** Appends within the buffer *)

(** [memtrace] stores to the header slot only: it cannot fault. *)
Lemma memtrace_no_fault dc pipe delay :
  memtrace process_id dc pipe delay <> Fault.
Proof.
  unfold memtrace.
  destruct (delay && _); [discriminate |].
  destruct (thread_registered (tls_field dc)); cbn [negb].
  - cbn. destruct (pipe_write _ _ _ _) as [ret pipe1].
    destruct (negb (ret <? _)); cbn; discriminate.
  - destruct (pipe_write pipe _ _ _) as [ret pipe1].
    destruct (negb (ret <? _)); cbn; [| discriminate].
    destruct (pipe_write pipe1 _ _ _) as [ret2 pipe2].
    destruct (negb (ret2 <? _)); cbn; discriminate.
Qed.

Lemma appended_by_nonneg instr : 0 <= appended_by instr.
Proof. unfold appended_by. destruct (instrumented instr); lia. Qed.

(** The code in front of an instruction, run with room for its entries:
    no fault, and where the cursor is afterwards. *)
Lemma exec_event_cursor instr ud dc pipe k :
  cursor_at dc k -> 1 <= k ->
  k + appended_by instr <= MAX_NUM_MEM_REFS ->
  match exec_code process_id scratch_value
          (fst (event_app_instruction arch instr ud)) (dc, pipe) with
  | Done (dc', _) =>
      exists k', cursor_at dc' k' /\ 1 <= k' /\
                 if instrumented instr && clean_call_wanted arch instr ud
                 then k' <= MAX_NUM_MEM_REFS / 2 - 1
                 else k' = k + appended_by instr
  | Aborted => True
  | Fault => False
  end.
Proof.
  pose proof (appended_by_nonneg instr) as Hnn.
  intros Hcur Hk Hroom.
  destruct (instrumented instr) eqn:Hi.
  2:{ rewrite event_app_instruction_skip by exact Hi. cbn.
      exists k. unfold appended_by. rewrite Hi. repeat split; auto; lia. }
  rewrite event_app_instruction_code by exact Hi. cbn [fst andb].
  destruct (exec_entry_code_appended arch instr dc pipe k Hi Hcur ltac:(lia) Hroom)
    as (dc1 & Hex1 & (_ & _ & Hc1 & _)).
  rewrite (length_instr_entries instr (regs dc) Hi) in Hc1.
  rewrite exec_code_app, Hex1, bind_Done.
  destruct (clean_call_wanted arch instr ud).
  - cbn [exec_code exec_minstr]. unfold clean_call.
    destruct (memtrace process_id dc1 pipe true) as [[dc2 pipe2] | |] eqn:Hm; cbn; auto.
    + destruct (memtrace_Done_inv dc1 pipe true dc2 pipe2 _ Hc1 ltac:(lia) Hm)
        as [(Hd & -> & _) | (_ & -> & _)].
      * exists (k + appended_by instr). split; [exact Hc1 |]. split; [lia |].
        unfold deferred in Hd. cbn [andb] in Hd. apply Z.ltb_lt in Hd.
        red in Hc1. rewrite Hc1, ptr_diff_slots in Hd. lia.
      * exists 1. split; [reflexivity |].
        change (MAX_NUM_MEM_REFS / 2 - 1) with 2047. lia.
    + exact (memtrace_no_fault _ _ _ Hm).
  - cbn. exists (k + appended_by instr). repeat split; auto; lia.
Qed.

(** A step of another thread leaves the record of thread [t] alone. *)
Lemma step_other_thread p e p' t :
  step process_id scratch_value arch p e = Done p' ->
  event_tid e <> t ->
  threads p' !! t = threads p !! t.
Proof.
  intros Hstep Hne.
  assert (Hins : forall th g mx pipe',
            threads (mk_process (<[event_tid e := th]> (threads p)) g mx pipe') !! t
            = threads p !! t).
  { intros. cbn [threads]. apply lookup_insert_ne. exact Hne. }
  destruct e as [tid seg buf rs ss m | tid instr ud rs | tid];
    cbn [step event_tid] in *; destruct (threads p !! tid) as [th |] eqn:Hlook;
    try (inversion Hstep; subst p'; reflexivity).
  - destruct (event_thread_init tid seg buf rs ss m); try discriminate.
    cbn in Hstep. inversion Hstep. apply Hins.
  - destruct (status th); try (inversion Hstep; subst p'; reflexivity).
    destruct (exec_code process_id scratch_value _ _) as [[dc pipe'] | |];
      try discriminate.
    cbn in Hstep. inversion Hstep. apply Hins.
  - assert (Hexit : forall s rest,
              exit_step process_id p tid th s rest = Done p' ->
              threads p' !! t = threads p !! t).
    { intros s rest Hs. destruct s; cbn [exit_step] in Hs;
        try (inversion Hs; apply Hins).
      - destruct (memtrace process_id (ctx th) (ipc_pipe p) false) as [[dc pipe'] | |];
          try discriminate.
        cbn in Hs. inversion Hs. apply Hins.
      - destruct (mutex p); inversion Hs; [reflexivity | apply Hins]. }
    destruct (status th) as [| [| s rest] |];
      try (inversion Hstep; subst p'; reflexivity).
    + cbn [event_thread_exit] in Hstep. eapply Hexit. exact Hstep.
    + eapply Hexit. exact Hstep.
Qed.

(** A step under the bound of thread [t]: if it is a step of [t], it does
    not fault; and if it goes through, the bound holds on. *)
Lemma step_bound t p c e es :
  bound_inv t p c ->
  bounded_appends arch t (e :: es) c = true ->
  (event_tid e = t -> step process_id scratch_value arch p e <> Fault) /\
  forall p', step process_id scratch_value arch p e = Done p' ->
    exists c', bounded_appends arch t es c' = true /\ bound_inv t p' c'.
Proof.
  intros Hinv0 Hbounded. pose proof Hinv0 as (Hnn & Hb).
  destruct (decide (event_tid e = t)) as [He | He].
  2:{ split; [contradiction |]. intros p' Hstep.
      exists c. split.
      - destruct e; cbn [bounded_appends event_tid] in *; try exact Hbounded.
        destruct (Z.eqb_spec tid t); [contradiction | exact Hbounded].
      - split; [exact Hnn |]. intros th Ht Hs.
        rewrite (step_other_thread p e p' t Hstep He) in Ht. apply Hb; assumption. }
  destruct e as [tid seg buf rs ss m | tid instr ud rs | tid];
    cbn [event_tid] in He; subst tid;
    cbn [bounded_appends] in Hbounded; cbn [step].
  - (* event_thread_init *)
    split; intros Hx.
    { destruct (threads p !! t); [discriminate |].
      unfold event_thread_init.
      destruct (negb (seg =? 0) && negb (buf =? 0)); cbn; discriminate. }
    destruct (threads p !! t) as [th |] eqn:Hlook.
    { intros Hp. inversion Hp. subst.
      exists c. split; [exact Hbounded | exact Hinv0]. }
    unfold event_thread_init.
    destruct (negb (seg =? 0) && negb (buf =? 0)); cbn; [| discriminate].
    intros Hp. inversion Hp. subst Hx. clear Hp.
    exists c. split; [exact Hbounded |]. split; [exact Hnn |].
    cbn [threads]. intros th Ht Hs.
    rewrite lookup_insert_eq in Ht. inversion Ht. subst th. cbn [ctx].
    exists 1. split; [red; cbn; unfold BUF_HDR_SLOTS; reflexivity |].
    change (MAX_NUM_MEM_REFS / 2 - 1) with 2047. lia.
  - (* an instrumented instruction *)
    rewrite Z.eqb_refl in Hbounded.
    apply andb_true_iff in Hbounded as [Hle Hrest]. apply Z.leb_le in Hle.
    pose proof (appended_by_nonneg instr) as Ha.
    set (v := if instrumented instr && clean_call_wanted arch instr ud
              then 0 else c + appended_by instr) in *.
    assert (Hv : 0 <= v) by (unfold v; destruct (_ && _); lia).
    assert (Hkeep : (forall th, threads p !! t = Some th -> status th <> Active) ->
              exists c', bounded_appends arch t es c' = true /\ bound_inv t p c').
    { intros Hna. exists v. split; [exact Hrest |].
      split; [exact Hv |]. intros th Ht Hs. exfalso. exact (Hna th Ht Hs). }
    destruct (threads p !! t) as [th |] eqn:Hlook.
    2:{ split; [discriminate |]. intros p' Hp. inversion Hp. subst p'.
        apply Hkeep. discriminate. }
    destruct (status th) eqn:Hs.
    2,3: (split; [discriminate |]; intros p' Hp; inversion Hp; subst p';
          apply Hkeep; intros th0 Hth0; inversion Hth0; subst th0; congruence).
    destruct (Hb th eq_refl Hs) as (k & Hk & Hr).
    change (MAX_NUM_MEM_REFS / 2) with 2048 in *.
    pose proof (exec_event_cursor instr ud (set_regs (ctx th) rs) (ipc_pipe p) k
                  Hk ltac:(lia) ltac:(unfold MAX_NUM_MEM_REFS; lia)) as Hex.
    destruct (exec_code process_id scratch_value _ _) as [[dc pipe'] | |];
      cbn; [| split; discriminate | contradiction].
    split; [discriminate |]. intros p' Hp. inversion Hp. subst p'. clear Hp.
    destruct Hex as (k' & Hk' & Hk1 & Hcase).
    exists v. split; [exact Hrest |].
    split; [exact Hv |]. cbn [threads]. intros th0 Ht Hs0.
    rewrite lookup_insert_eq in Ht. inversion Ht. subst th0. cbn [ctx].
    exists k'. split; [exact Hk' |]. unfold v.
    change (MAX_NUM_MEM_REFS / 2) with 2048 in *.
    destruct (instrumented instr && clean_call_wanted arch instr ud); lia.
  - (* a statement of event_thread_exit *)
    assert (Hkeep : forall g mx pipe' (th' : thread),
              status th' <> Active ->
              bound_inv t (mk_process (<[t := th']> (threads p)) g mx pipe') c).
    { intros g mx pipe' th' Hna. split; [exact Hnn |].
      cbn [threads]. intros th0 Ht Hs0.
      rewrite lookup_insert_eq in Ht. inversion Ht. subst th0. contradiction. }
    assert (Hsame : forall p', Done p = Done p' ->
              exists c', bounded_appends arch t es c' = true /\ bound_inv t p' c').
    { intros p' Hp. inversion Hp. subst p'. exists c.
      split; [exact Hbounded | exact Hinv0]. }
    assert (Hnext : forall rest : list exit_stmt,
              match rest with [] => Exited | _ => Exiting rest end <> Active).
    { intros [| ? ?]; discriminate. }
    destruct (threads p !! t) as [th |] eqn:Hlook;
      [| split; [discriminate | exact Hsame]].
    assert (Hexit : forall s rest,
              exit_step process_id p t th s rest <> Fault /\
              forall p', exit_step process_id p t th s rest = Done p' ->
                exists c', bounded_appends arch t es c' = true /\ bound_inv t p' c').
    { intros s rest. destruct s; cbn [exit_step];
        try (split; [discriminate |]; intros p' Hp; inversion Hp; subst p';
             exists c; split; [exact Hbounded |];
             apply Hkeep; apply Hnext).
      - pose proof (memtrace_no_fault (ctx th) (ipc_pipe p) false) as Hnf.
        destruct (memtrace process_id (ctx th) (ipc_pipe p) false) as [[dc pipe'] | |];
          cbn; [| split; discriminate | contradiction].
        split; [discriminate |]. intros p' Hp. inversion Hp. subst p'.
        exists c. split; [exact Hbounded |]. apply Hkeep. apply Hnext.
      - destruct (mutex p); (split; [discriminate |]); [exact Hsame |].
        intros p' Hp. inversion Hp. subst p'.
        exists c. split; [exact Hbounded |]. apply Hkeep. apply Hnext. }
    destruct (status th) as [| [| s rest] |];
      try (split; [discriminate | exact Hsame]).
    + cbn [event_thread_exit].
      destruct (Hexit stmt_memtrace (drop 1 event_thread_exit)) as (Hf & Hd).
      split; [intros _; exact Hf | exact Hd].
    + destruct (Hexit s rest) as (Hf & Hd).
      split; [intros _; exact Hf | exact Hd].
Qed.

(** Along a run under the bound of thread [t], no step of [t] faults. *)
Lemma run_bound t es1 e es2 p c p1 :
  bound_inv t p c ->
  bounded_appends arch t (es1 ++ e :: es2) c = true ->
  run process_id scratch_value arch es1 p = Done p1 ->
  event_tid e = t ->
  step process_id scratch_value arch p1 e <> Fault.
Proof.
  revert p c. induction es1 as [| e1 es1 IH]; intros p c Hb Hbounded Hrun He.
  - inversion Hrun. subst p1. cbn [app] in Hbounded.
    apply (step_bound t p c e es2 Hb Hbounded). exact He.
  - cbn [app] in Hbounded. cbn [run] in Hrun.
    destruct (step_bound t p c e1 (es1 ++ e :: es2) Hb Hbounded) as (_ & Hnext).
    destruct (step process_id scratch_value arch p e1) as [p2 | |]; try discriminate.
    destruct (Hnext p2 eq_refl) as (c' & Hbounded' & Hb').
    apply (IH p2 c'); assumption.
Qed.

Lemma bound_inv_init t rets : bound_inv t (dr_init rets) 0.
Proof.
  split; [lia |].
  intros th Ht. cbn in Ht. rewrite lookup_empty in Ht. discriminate.
Qed.

(** A run that faults has a step that faults. *)
Lemma run_Fault_inv es p :
  run process_id scratch_value arch es p = Fault ->
  exists es1 e es2 p1,
    es = es1 ++ e :: es2 /\
    run process_id scratch_value arch es1 p = Done p1 /\
    step process_id scratch_value arch p1 e = Fault.
Proof.
  revert p. induction es as [| e es IH]; intros p Hrun; [discriminate |].
  cbn [run] in Hrun.
  destruct (step process_id scratch_value arch p e) as [p2 | |] eqn:Hstep;
    try discriminate.
  - destruct (IH p2 Hrun) as (es1 & e' & es2 & p1 & -> & Hr & Hs).
    exists (e :: es1), e', es2, p1. split; [reflexivity |].
    split; [| exact Hs]. cbn [run]. rewrite Hstep. exact Hr.
  - exists [], e, es, p. repeat split; auto.
Qed.

(** The bound on every stretch without a clean call gives the bound
    between consecutive clean calls. *)
Lemma bounded_appends_between t es :
  forall c o,
    (o = None \/ exists c', o = Some c' /\ c' <= c) ->
    bounded_appends arch t es c = true ->
    appends_between_flush_checks arch t es o = true.
Proof.
  induction es as [| e es IH]; intros c o Ho Hb; [reflexivity |].
  destruct e as [| tid instr ud rs |]; cbn [bounded_appends appends_between_flush_checks] in *;
    try (eapply IH; eauto; fail).
  destruct (tid =? t); [| eapply IH; eauto].
  apply andb_true_iff in Hb as [Hle Hrest]. apply Z.leb_le in Hle.
  destruct (instrumented instr && clean_call_wanted arch instr ud).
  - apply andb_true_iff. split.
    + destruct Ho as [-> | (c' & -> & Hc)]; [reflexivity |].
      cbn. apply Z.leb_le. lia.
    + apply (IH 0); [| exact Hrest]. right. exists 0. split; [reflexivity | lia].
  - apply (IH (c + appended_by instr)); [| exact Hrest].
    destruct Ho as [-> | (c' & -> & Hc)]; [left; reflexivity |].
    right. exists (c' + appended_by instr). split; [reflexivity | lia].
Qed.

(** ** The claims *)

(** C3.  A flush that may be deferred (the clean call, [memtrace] with
    [delay] set) and finds the buffer filled to less than half its capacity
    does nothing: it returns the thread context and the pipe it was given,
    so nothing is sent and buffer contents, cursor, registered flag and
    counter are what they were. *)
Theorem memtrace_deferred_below_half dc pipe :
  ptr_diff (BUF_PTR dc) (buf_base (tls_field dc)) < MAX_NUM_MEM_REFS / 2 ->
  memtrace process_id dc pipe true = Done (dc, pipe) /\
  clean_call process_id dc pipe = Done (dc, pipe).
Proof.
  intros Hlt.
  assert (Hd : deferred dc true = true).
  { unfold deferred. cbn [andb]. apply Z.ltb_lt. exact Hlt. }
  split; [| unfold clean_call]; apply memtrace_deferred; exact Hd.
Qed.

(** C6.  A flush that is not deferred and whose writes go through
    (1) leaves a THREAD entry with the thread's identifier in the first
    slot of the buffer, (2) hands the buffer from that slot up to the
    cursor to the pipe as one message, the last one written, and
    (3) puts the cursor just behind the header slot, with no entry left
    between header and cursor. *)
Theorem memtrace_flush_effect dc pipe delay k :
  cursor_at dc k -> 1 <= k ->
  deferred dc delay = false ->
  all_full (returns pipe) (flush_writes dc) = true ->
  exists dc' pipe',
    memtrace process_id dc pipe delay = Done (dc', pipe') /\
    buf_base (tls_field dc') = buf_base (tls_field dc) /\
    load_entry (mem dc') (buf_base (tls_field dc)) = thread_entry (thread_id dc) /\
    (exists before,
       written pipe'
       = before ++ [(thread_id dc,
                     load_entries (mem dc') (buf_base (tls_field dc)) (Z.to_nat k))] /\
       before
       = written pipe ++
         (if thread_registered (tls_field dc) then []
          else [(thread_id dc, pid_info process_id (thread_id dc))])) /\
    load_entries (mem dc') (buf_base (tls_field dc)) (Z.to_nat k)
    = thread_entry (thread_id dc) :: buffered dc k /\
    cursor_at dc' BUF_HDR_SLOTS /\
    buffered dc' BUF_HDR_SLOTS = [].
Proof.
  intros Hcur Hk Hdef Hfull.
  rewrite (memtrace_flush dc pipe delay k Hcur Hk Hdef Hfull).
  pose proof (load_buffer_after_header dc k Hk) as Hload.
  eexists. eexists. split; [reflexivity |].
  unfold flushed. cbn [mem tls_field buf_base written].
  split; [reflexivity |]. split; [apply load_store_entry |].
  split; [| split; [exact Hload | split; reflexivity]].
  eexists. split; [| reflexivity].
  rewrite Hload. unfold flush_messages. rewrite app_assoc. reflexivity.
Qed.

(** C7.  In a flush that is not deferred, a write to the pipe that returns
    less than it was asked to transfer (a failure returns a negative value)
    aborts: this holds for the registration message, for the buffer of a
    registered thread, and for the buffer that follows a registration
    message; [memtrace] returns only if every write it made was full. *)
Theorem memtrace_short_write_aborts dc pipe delay :
  deferred dc delay = false ->
  (forall r rs,
     thread_registered (tls_field dc) = false ->
     returns pipe = r :: rs -> r < 2 * sizeof_trace_entry_t ->
     memtrace process_id dc pipe delay = Aborted) /\
  (forall r rs,
     thread_registered (tls_field dc) = true ->
     returns pipe = r :: rs -> r < BUF_PTR dc - buf_base (tls_field dc) ->
     memtrace process_id dc pipe delay = Aborted) /\
  (forall r1 r2 rs,
     thread_registered (tls_field dc) = false ->
     returns pipe = r1 :: r2 :: rs -> r2 < BUF_PTR dc - buf_base (tls_field dc) ->
     memtrace process_id dc pipe delay = Aborted) /\
  (forall dc' pipe',
     memtrace process_id dc pipe delay = Done (dc', pipe') ->
     all_full (returns pipe) (flush_writes dc) = true).
Proof.
  intros Hdef. split; [| split; [| split]].
  - intros r rs Hreg Hr Hlt. apply memtrace_short; [exact Hdef |].
    unfold flush_writes. rewrite Hreg, Hr. cbn [app all_full].
    apply andb_false_iff. left. apply Z.leb_gt. exact Hlt.
  - intros r rs Hreg Hr Hlt. apply memtrace_short; [exact Hdef |].
    unfold flush_writes. rewrite Hreg, Hr. cbn [app all_full].
    apply andb_false_iff. left. apply Z.leb_gt. exact Hlt.
  - intros r1 r2 rs Hreg Hr Hlt. apply memtrace_short; [exact Hdef |].
    unfold flush_writes. rewrite Hreg, Hr. cbn [app all_full].
    apply andb_false_iff. right.
    apply andb_false_iff. left. apply Z.leb_gt. exact Hlt.
  - intros dc' pipe' Hm.
    destruct (all_full (returns pipe) (flush_writes dc)) eqn:Hf; [reflexivity |].
    rewrite memtrace_short in Hm by assumption. discriminate.
Qed.

(** C2.  [event_app_instruction] inserts nothing for an instruction that
    is not the application's or that neither reads nor writes memory.  For
    any other instruction it inserts the code of the entries, followed by
    the clean call if that is wanted; run with the cursor at slot [k] and
    room in the buffer, the code of the entries writes, from the cursor on,
    one READ entry per memory operand among the sources, in their order,
    then one WRITE entry per memory operand among the destinations, in
    their order, each with the operand's width as size and its address
    under the application's registers as addr; it moves the cursor past
    these entries and leaves the registers as the application had them. *)
Theorem event_app_instruction_entries instr ud dc pipe k :
  (instr_is_app instr = false \/
   (instr_reads_memory instr = false /\ instr_writes_memory instr = false) ->
   event_app_instruction arch instr ud = ([], ud)) /\
  (instr_is_app instr = true ->
   instr_reads_memory instr = true \/ instr_writes_memory instr = true ->
   fst (event_app_instruction arch instr ud)
   = entry_code arch instr ++
     (if clean_call_wanted arch instr ud then [dr_insert_clean_call] else []) /\
   let es :=
     map (mem_entry false (regs dc))
         (List.filter opnd_is_memory_reference (instr_srcs instr)) ++
     map (mem_entry true (regs dc))
         (List.filter opnd_is_memory_reference (instr_dsts instr)) in
   (cursor_at dc k -> 0 <= k -> k + Z.of_nat (length es) <= MAX_NUM_MEM_REFS ->
    exists dc',
      exec_code process_id scratch_value (entry_code arch instr) (dc, pipe)
        = Done (dc', pipe) /\
      load_entries (mem dc') (BUF_PTR dc) (length es) = es /\
      cursor_at dc' (k + Z.of_nat (length es)) /\
      tls_field dc' = tls_field dc /\
      (forall r, regs dc' r = regs dc r))) /\
  (forall write rs o,
     type (mem_entry write rs o)
       = wrap16 (if write then TRACE_TYPE_WRITE else TRACE_TYPE_READ) /\
     size (mem_entry write rs o) = drutil_opnd_mem_size_in_bytes o /\
     addr (mem_entry write rs o) = opnd_compute_address o rs).
Proof.
  split; [| split].
  - intros Hskip. apply event_app_instruction_skip. unfold instrumented.
    destruct Hskip as [-> | [-> ->]]; [reflexivity | apply andb_false_r].
  - intros Happ Hmem.
    assert (Hi : instrumented instr = true).
    { unfold instrumented. rewrite Happ. destruct Hmem as [-> | ->];
        [reflexivity | apply orb_true_r]. }
    split; [rewrite event_app_instruction_code by exact Hi; reflexivity |].
    intros es Hcur Hk Hroom.
    destruct (exec_entry_code arch instr dc pipe k [] Hi Hcur ltac:(lia)) as (Hdone & _).
    destruct (Hdone Hroom) as (dc' & Hex & Hregs & _ & Htls & Hptr & Hload & _).
    exists dc'. split; [exact Hex |]. split; [exact Hload |].
    split; [| split; [exact Htls | exact Hregs]].
    red. rewrite Hptr, Htls. red in Hcur. rewrite Hcur.
    change (instr_entries instr (regs dc)) with es. lia.
  - intros write rs o. repeat split.
Qed.

(** C5, as the code has it.  The code inserted for a block holds at most
    one clean call: one if the block has an instrumented instruction that
    tolerates it (on ARM, one that is neither predicated nor an exclusive
    store), none otherwise.  The clean call goes behind the entries of the
    first such instruction; every other instruction of the block gets its
    plain code, which for an instrumented instruction is the code of its
    entries. *)
Theorem instrument_bb_clean_call bb :
  bb_clean_calls (instrument_bb arch bb)
  = (if existsb (eligible arch) bb then 1 else 0)%nat /\
  (forall pre i post,
     bb = pre ++ i :: post ->
     forallb (fun x => negb (eligible arch x)) pre = true ->
     eligible arch i = true ->
     instrument_bb arch bb
     = map (fun x => (x, plain_code arch x)) pre
       ++ (i, entry_code arch i ++ [dr_insert_clean_call])
       :: map (fun x => (x, plain_code arch x)) post) /\
  (existsb (eligible arch) bb = false ->
   instrument_bb arch bb = map (fun x => (x, plain_code arch x)) bb) /\
  (forall i, instrumented i = true -> plain_code arch i = entry_code arch i).
Proof.
  unfold instrument_bb, event_bb_app2app.
  split; [| split; [| split]].
  - destruct (existsb (eligible arch) bb) eqn:He.
    + destruct (existsb_first _ _ He) as (pre & i & post & -> & Hpre & Hi).
      rewrite (instrument_instrs_first arch pre i post Hpre Hi).
      rewrite bb_clean_calls_app, bb_clean_calls_plain.
      change ((i, entry_code arch i ++ [dr_insert_clean_call])
              :: map (fun x => (x, plain_code arch x)) post)
        with ([(i, entry_code arch i ++ [dr_insert_clean_call])]
              ++ map (fun x => (x, plain_code arch x)) post).
      rewrite bb_clean_calls_app, bb_clean_calls_plain.
      unfold bb_clean_calls. cbn [map snd concat].
      rewrite app_nil_r, List.filter_app, no_clean_call_entry_code. reflexivity.
    + rewrite (instrument_instrs_none arch bb He). apply bb_clean_calls_plain.
  - intros pre i post -> Hpre Hi. apply instrument_instrs_first; assumption.
  - apply instrument_instrs_none.
  - intros i Hi. unfold plain_code. rewrite Hi. reflexivity.
Qed.

(** C1.  A flush that goes through writes, if the thread is not yet
    registered, the two entries THREAD (thread identifier) and PID (process
    identifier) as a message of their own in front of the message with the
    buffer, and in every case leaves the thread registered; a registered
    thread writes the buffer only.  So, at any point of any run, the
    records a thread has handed to the pipe are none (as long as it is not
    registered) or begin with THREAD, PID and hold this one PID entry
    only. *)
Theorem thread_registration_once :
  (forall dc pipe delay k,
     cursor_at dc k -> 1 <= k ->
     deferred dc delay = false ->
     all_full (returns pipe) (flush_writes dc) = true ->
     exists dc' pipe',
       memtrace process_id dc pipe delay = Done (dc', pipe') /\
       thread_registered (tls_field dc') = true /\
       written pipe'
       = written pipe ++
         (if thread_registered (tls_field dc) then []
          else [(thread_id dc,
                 [thread_entry (thread_id dc); pid_entry process_id])]) ++
         [(thread_id dc, thread_entry (thread_id dc) :: buffered dc k)]) /\
  (forall es rets p t,
     run process_id scratch_value arch es (dr_init rets) = Done p ->
     let stream := concat (msgs_of t (written (ipc_pipe p))) in
     (forall th, threads p !! t = Some th ->
        (thread_registered (tls_field (ctx th)) = false <-> stream = [])) /\
     (stream = [] \/
      (firstn 2 stream = [thread_entry t; pid_entry process_id] /\
       length (List.filter is_pid_entry stream) = 1%nat))).
Proof.
  split.
  - intros dc pipe delay k Hcur Hk Hdef Hfull.
    rewrite (memtrace_flush dc pipe delay k Hcur Hk Hdef Hfull).
    eexists. eexists. split; [reflexivity |]. split; reflexivity.
  - intros es rets p t Hrun stream.
    pose proof (run_process_inv es _ p (dr_init_process_inv rets) Hrun) as Hinv.
    destruct (threads p !! t) as [th |] eqn:Hlook.
    + destruct (thread_stream _ t (ctx th) (thread_inv_of p t th Hinv Hlook))
        as (payloads & Hpay & Hmsgs & Hnone & _ & Hpid).
      unfold stream. rewrite Hmsgs in *.
      destruct (thread_registered (tls_field (ctx th))) eqn:Hreg.
      * split.
        -- intros th0 Hth0. inversion Hth0. subst th0. rewrite Hreg.
           split; [discriminate |].
           unfold pid_info. cbn [app concat]. discriminate.
        -- right. split; [reflexivity | exact Hpid].
      * rewrite (Hnone eq_refl). split; [| left; reflexivity].
        intros th0 Hth0. inversion Hth0. subst th0. rewrite Hreg. tauto.
    + destruct Hinv as (_ & Hnone & _).
      unfold stream. rewrite (Hnone t Hlook).
      split; [discriminate | left; reflexivity].
Qed.

(** C8.  Along any run, a step changes the global counter only if it is
    the write of [num_refs += data->num_refs] in [event_thread_exit], made
    by a thread that holds the mutex, and then the counter grows (as a
    [uint64]) by that thread's final counter.  Once every thread has left,
    the global counter is the [uint64] sum of the threads' final counters,
    which is their sum if that fits 64 bits. *)
Theorem global_num_refs_sum es rets p :
  run process_id scratch_value arch es (dr_init rets) = Done p ->
  (forall e p',
     step process_id scratch_value arch p e = Done p' ->
     g_num_refs p' <> g_num_refs p ->
     exists t th rest,
       e = ev_exit_step t /\ threads p !! t = Some th /\
       status th = Exiting (stmt_store_num_refs :: rest) /\
       mutex p = Some t /\
       g_num_refs p' = wrap64 (g_num_refs p + final_num_refs th)) /\
  ((forall t th, threads p !! t = Some th -> status th = Exited) ->
   g_num_refs p = wrap64 (sum_threads final_num_refs (threads p)) /\
   (sum_threads final_num_refs (threads p) < 18446744073709551616 ->
    g_num_refs p = sum_threads final_num_refs (threads p))).
Proof.
  intros Hrun.
  pose proof (run_process_inv es _ p (dr_init_process_inv rets) Hrun) as Hinv.
  split.
  - intros e p' Hstep Hne.
    destruct (step_g_num_refs p e p' Hinv Hstep) as [Heq | Hstore]; [contradiction |].
    exact Hstore.
  - intros Hall.
    assert (Hsum : g_num_refs p = wrap64 (sum_threads final_num_refs (threads p))).
    { destruct Hinv as (_ & _ & _ & Hg). rewrite Hg. f_equal.
      apply sum_threads_ext. intros t th Hlook.
      unfold folded_num_refs, folded. rewrite (Hall t th Hlook). reflexivity. }
    split; [exact Hsum |].
    intros Hlt. rewrite Hsum. apply wrap64_small. split; [| exact Hlt].
    apply sum_threads_nonneg. intros t th Hlook.
    apply (final_num_refs_range p t th Hinv Hlook).
Qed.

(** C9.  A flush that is not deferred adds to the thread's counter the
    number of slots between the buffer base and the cursor, the header
    slot included, that is one more than the entries buffered.  So, at any
    point of any run, a thread's counter is (as a [uint64]) the number of
    READ and WRITE entries it has sent plus the number of flushes it has
    performed, and the global counter, once every thread has left, is the
    sum of these. *)
Theorem num_refs_counts_header :
  (forall dc pipe delay k dc' pipe',
     cursor_at dc k -> 1 <= k ->
     deferred dc delay = false ->
     memtrace process_id dc pipe delay = Done (dc', pipe') ->
     num_refs (tls_field dc') = wrap64 (num_refs (tls_field dc) + k) /\
     k = 1 + Z.of_nat (length (buffered dc k))) /\
  (forall es rets p,
     run process_id scratch_value arch es (dr_init rets) = Done p ->
     let log := written (ipc_pipe p) in
     (forall t th,
        threads p !! t = Some th ->
        final_num_refs th = wrap64 (recorded_of t log + flushes_of t log) /\
        (recorded_of t log + flushes_of t log < 18446744073709551616 ->
         final_num_refs th = recorded_of t log + flushes_of t log)) /\
     ((forall t th, threads p !! t = Some th -> status th = Exited) ->
      g_num_refs p
      = wrap64 (sum_threads
                  (fun th => recorded_of (thread_id (ctx th)) log
                             + flushes_of (thread_id (ctx th)) log)
                  (threads p)))).
Proof.
  split.
  - intros dc pipe delay k dc' pipe' Hcur Hk Hdef Hm.
    destruct (memtrace_Done_inv dc pipe delay dc' pipe' k Hcur Hk Hm)
      as [(Hd & _) | (_ & -> & _)]; [congruence |].
    split; [reflexivity |].
    unfold buffered. rewrite load_entries_length. lia.
  - intros es rets p Hrun log.
    pose proof (run_process_inv es _ p (dr_init_process_inv rets) Hrun) as Hinv.
    assert (Hth : forall t th, threads p !! t = Some th ->
              thread_id (ctx th) = t /\
              final_num_refs th = wrap64 (recorded_of t log + flushes_of t log)).
    { intros t th Hlook.
      pose proof (thread_inv_of p t th Hinv Hlook) as Hti.
      destruct (thread_stream _ t (ctx th) Hti) as (_ & _ & _ & _ & Hnum & _).
      split; [apply Hti | exact Hnum]. }
    split.
    + intros t th Hlook. destruct (Hth t th Hlook) as (_ & Hnum).
      split; [exact Hnum |].
      intros Hlt. rewrite Hnum. apply wrap64_small. split; [| exact Hlt].
      unfold recorded_of, flushes_of. lia.
    + intros Hall.
      destruct Hinv as (_ & _ & _ & Hg). rewrite Hg.
      rewrite (sum_threads_ext folded_num_refs final_num_refs).
      * rewrite <- wrap64_wrap64. rewrite wrap64_wrap64.
        apply sum_threads_wrap64. intros t th Hlook.
        destruct (Hth t th Hlook) as (-> & Hnum). exact Hnum.
      * intros t th Hlook. unfold folded_num_refs, folded.
        rewrite (Hall t th Hlook). reflexivity.
Qed.

(** C4.  [event_thread_exit], run by an active thread while the mutex is
    free and the pipe takes what it is given: whatever the cursor, the
    first statement sends the buffer, header and every buffered entry; by
    the end of the fourth statement the thread has taken the mutex and,
    holding it, has added its final counter to the global one, the buffer
    being still allocated; the remaining statements release the mutex and
    then the buffer, and leave pipe and counters alone. *)
Theorem event_thread_exit_flushes_and_folds p t th k :
  threads p !! t = Some th -> status th = Active ->
  cursor_at (ctx th) k -> 1 <= k ->
  mutex p = None ->
  all_full (returns (ipc_pipe p)) (flush_writes (ctx th)) = true ->
  exists p1 p4 th4 p7 th7,
    step process_id scratch_value arch p (ev_exit_step t) = Done p1 /\
    written (ipc_pipe p1)
    = written (ipc_pipe p) ++
      (if thread_registered (tls_field (ctx th)) then []
       else [(thread_id (ctx th), pid_info process_id (thread_id (ctx th)))]) ++
      [(thread_id (ctx th),
        thread_entry (thread_id (ctx th)) :: buffered (ctx th) k)] /\
    run process_id scratch_value arch (replicate 3 (ev_exit_step t)) p1 = Done p4 /\
    threads p4 !! t = Some th4 /\
    final_num_refs th4 = wrap64 (final_num_refs th + k) /\
    g_num_refs p4 = wrap64 (g_num_refs p + final_num_refs th4) /\
    mutex p4 = Some t /\
    buffer_live th4 = buffer_live th /\
    written (ipc_pipe p4) = written (ipc_pipe p1) /\
    run process_id scratch_value arch (replicate 3 (ev_exit_step t)) p4 = Done p7 /\
    threads p7 !! t = Some th7 /\
    status th7 = Exited /\
    buffer_live th7 = false /\
    mutex p7 = None /\
    g_num_refs p7 = g_num_refs p4 /\
    final_num_refs th7 = final_num_refs th4 /\
    written (ipc_pipe p7) = written (ipc_pipe p1).
Proof.
  intros Hlook Hs Hcur Hk Hmx Hfull.
  assert (Hdef : deferred (ctx th) false = false) by reflexivity.
  pose proof (memtrace_flush (ctx th) (ipc_pipe p) false k Hcur Hk Hdef Hfull) as Hm.
  eexists. eexists. eexists. eexists. eexists.
  split.
  { rewrite (step_exit_active p t th Hlook Hs). cbn [exit_step drop event_thread_exit].
    rewrite Hm. cbn. reflexivity. }
  split; [reflexivity |].
  split.
  { cbn [replicate run].
    erewrite step_exit_exiting;
      [| cbn [threads]; apply lookup_insert_eq | reflexivity].
    cbn [exit_step mutex]. rewrite Hmx. rewrite bind_Done.
    erewrite step_exit_exiting;
      [| cbn [threads]; apply lookup_insert_eq | reflexivity].
    cbn [exit_step]. rewrite bind_Done.
    erewrite step_exit_exiting;
      [| cbn [threads]; apply lookup_insert_eq | reflexivity].
    cbn [exit_step]. rewrite bind_Done. reflexivity. }
  split; [cbn [threads]; apply lookup_insert_eq |].
  split; [reflexivity |].
  split; [reflexivity |].
  split; [reflexivity |].
  split; [reflexivity |].
  split; [reflexivity |].
  split.
  { cbn [replicate run].
    erewrite step_exit_exiting;
      [| cbn [threads]; apply lookup_insert_eq | reflexivity].
    cbn [exit_step]. rewrite bind_Done.
    erewrite step_exit_exiting;
      [| cbn [threads]; apply lookup_insert_eq | reflexivity].
    cbn [exit_step]. rewrite bind_Done.
    erewrite step_exit_exiting;
      [| cbn [threads]; apply lookup_insert_eq | reflexivity].
    cbn [exit_step]. rewrite bind_Done. reflexivity. }
  split; [cbn [threads]; apply lookup_insert_eq |].
  repeat split.
Qed.

(** C10, as the code has it.  The code that appends entries checks no
    bound: when the entries of an instruction do not fit between the
    cursor and the end of the buffer, running it stores outside the
    buffer.  But in a run in which thread [t] appends at most
    [MAX_NUM_MEM_REFS / 2] entries in every stretch without a clean call of
    its own (before its first clean call, between two of them, and after
    its last), no step of [t] stores outside its buffer, and at every
    point of the run the cursor of [t] is at most [MAX_NUM_MEM_REFS]
    entries past its buffer base; if this holds of every thread, the run
    does not fault.  A bound on the appends between consecutive clean
    calls alone does not do: it says nothing of a thread whose
    instructions get no clean call. *)
Theorem appends_stay_in_buffer :
  (forall instr ud dc pipe k,
     instrumented instr = true ->
     cursor_at dc k -> 0 <= k <= MAX_NUM_MEM_REFS ->
     MAX_NUM_MEM_REFS < k + appended_by instr ->
     exec_code process_id scratch_value
       (fst (event_app_instruction arch instr ud)) (dc, pipe) = Fault) /\
  (forall t es rets,
     bounded_appends arch t es 0 = true ->
     forall es1 es2 p,
       es = es1 ++ es2 ->
       run process_id scratch_value arch es1 (dr_init rets) = Done p ->
       (forall th, threads p !! t = Some th ->
          exists k, cursor_at (ctx th) k /\ 1 <= k <= MAX_NUM_MEM_REFS) /\
       (forall e es3, es2 = e :: es3 -> event_tid e = t ->
          step process_id scratch_value arch p e <> Fault)) /\
  (forall es rets,
     (forall t, bounded_appends arch t es 0 = true) ->
     run process_id scratch_value arch es (dr_init rets) <> Fault).
Proof.
  split; [| split].
  - intros instr ud dc pipe k Hi Hcur Hk Hfull.
    rewrite event_app_instruction_code by exact Hi. cbn [fst].
    rewrite <- (length_instr_entries instr (regs dc) Hi) in Hfull.
    apply (exec_entry_code arch instr dc pipe k _ Hi Hcur Hk). exact Hfull.
  - intros t es rets Hbounded es1 es2 p -> Hrun. split.
    + intros th Hlook.
      pose proof (run_process_inv es1 _ p (dr_init_process_inv rets) Hrun) as Hinv.
      destruct (thread_inv_of p t th Hinv Hlook) as (_ & (k & Hk & Hr & _) & _).
      exists k. split; assumption.
    + intros e es3 -> He.
      apply (run_bound t es1 e es3 (dr_init rets) 0 p);
        [apply bound_inv_init | exact Hbounded | exact Hrun | exact He].
  - intros es rets Hall Hrun.
    destruct (run_Fault_inv es _ Hrun) as (es1 & e & es2 & p1 & -> & Hr & Hs).
    apply (run_bound (event_tid e) es1 e es2 (dr_init rets) 0 p1);
      [apply bound_inv_init | apply Hall | exact Hr | reflexivity | exact Hs].
Qed.

(** ** Further properties *)

(** *** The flush *)

Lemma pipe_write_extends p who msg sz :
  exists extra, written (snd (pipe_write p who msg sz)) = written p ++ extra.
Proof.
  unfold pipe_write. destruct (returns p) as [| r rs]; cbn [snd written].
  - eexists. reflexivity.
  - destruct (Z.min r sz <? sz); [exists []; rewrite app_nil_r |]; eauto.
Qed.

(** What [memtrace] leaves alone. *)
Lemma memtrace_frame dc pipe delay dc' pipe' :
  memtrace process_id dc pipe delay = Done (dc', pipe') ->
  regs dc' = regs dc /\ spill dc' = spill dc /\ thread_id dc' = thread_id dc /\
  seg_base (tls_field dc') = seg_base (tls_field dc) /\
  buf_base (tls_field dc') = buf_base (tls_field dc) /\
  (forall x, ~ entry_cell (buf_base (tls_field dc)) x -> mem dc' x = mem dc x) /\
  (thread_registered (tls_field dc) = true ->
   thread_registered (tls_field dc') = true) /\
  exists extra, written pipe' = written pipe ++ extra.
Proof.
  unfold memtrace.
  destruct (delay && _).
  { intros Hm. inversion Hm. subst. repeat split; auto.
    exists []. rewrite app_nil_r. reflexivity. }
  destruct (thread_registered (tls_field dc)) eqn:Hreg; cbn [negb].
  - cbn.
    pose proof (pipe_write_extends pipe (thread_id dc)
                  (load_entries
                     (store_entry (mem dc) (buf_base (tls_field dc))
                        (mk_entry TRACE_TYPE_THREAD sizeof_thread_id_t (thread_id dc)))
                     (buf_base (tls_field dc))
                     (Z.to_nat ((BUF_PTR dc - buf_base (tls_field dc))
                                / sizeof_trace_entry_t)))
                  (BUF_PTR dc - buf_base (tls_field dc))) as (extra & Hex).
    destruct (pipe_write pipe _ _ _) as [ret pipe1]. cbn [snd] in Hex.
    destruct (negb (ret <? _)); cbn; [| discriminate].
    intros Hm. inversion Hm. subst. cbn.
    repeat split; auto.
    + intros x Hx. apply store_entry_other. exact Hx.
    + exists extra. exact Hex.
  - match goal with
    | |- context [pipe_write pipe ?who ?msg ?sz] =>
        pose proof (pipe_write_extends pipe who msg sz) as (extra1 & Hex1)
    end.
    destruct (pipe_write pipe _ _ _) as [ret pipe1]. cbn [snd] in Hex1.
    destruct (negb (ret <? _)); cbn; [| discriminate].
    match goal with
    | |- context [pipe_write pipe1 ?who ?msg ?sz] =>
        pose proof (pipe_write_extends pipe1 who msg sz) as (extra2 & Hex2)
    end.
    destruct (pipe_write pipe1 _ _ _) as [ret2 pipe2]. cbn [snd] in Hex2.
    destruct (negb (ret2 <? _)); cbn; [| discriminate].
    intros Hm. inversion Hm. subst. cbn.
    repeat split; auto.
    + intros x Hx. apply store_entry_other. exact Hx.
    + exists (extra1 ++ extra2). rewrite Hex2, Hex1, app_assoc. reflexivity.
Qed.

(** X1.  Whatever the cursor and whatever the pipe returns, a [memtrace]
    that returns has left alone the registers, the spill slots, the thread
    identifier, the segment base and the buffer base; it has written to
    the cells of the header slot only, so the entries behind the header
    stay in memory as they were; it has not taken back the registration
    of the thread; and it has only added to what the pipe has been
    given. *)
Theorem memtrace_keeps_thread_state dc pipe delay dc' pipe' :
  memtrace process_id dc pipe delay = Done (dc', pipe') ->
  (forall r, regs dc' r = regs dc r) /\
  (forall s, spill dc' s = spill dc s) /\
  thread_id dc' = thread_id dc /\
  seg_base (tls_field dc') = seg_base (tls_field dc) /\
  buf_base (tls_field dc') = buf_base (tls_field dc) /\
  (forall x, ~ entry_cell (buf_base (tls_field dc)) x -> mem dc' x = mem dc x) /\
  (forall n, load_entries (mem dc') (buf_base (tls_field dc) + sizeof_trace_entry_t) n
             = load_entries (mem dc) (buf_base (tls_field dc) + sizeof_trace_entry_t) n) /\
  (thread_registered (tls_field dc) = true ->
   thread_registered (tls_field dc') = true) /\
  exists extra, written pipe' = written pipe ++ extra.
Proof.
  intros Hm.
  destruct (memtrace_frame dc pipe delay dc' pipe' Hm)
    as (Hr & Hs & Ht & Hseg & Hbase & Hmem & Hreg & Hlog).
  split; [intros r; rewrite Hr; reflexivity |].
  split; [intros s; rewrite Hs; reflexivity |].
  split; [exact Ht |]. split; [exact Hseg |]. split; [exact Hbase |].
  split; [exact Hmem |]. split; [| split; [exact Hreg | exact Hlog]].
  intros n. apply load_entries_ext. intros i x Hi Hc. apply Hmem. intros Hb.
  apply (entry_cell_slots (buf_base (tls_field dc)) (i + 1) 0 x); [lia | |].
  - replace (buf_base (tls_field dc) + (i + 1) * sizeof_trace_entry_t)
      with (buf_base (tls_field dc) + sizeof_trace_entry_t
            + i * sizeof_trace_entry_t) by lia.
    exact Hc.
  - replace (buf_base (tls_field dc) + 0 * sizeof_trace_entry_t)
      with (buf_base (tls_field dc)) by lia.
    exact Hb.
Qed.

(** X2.  After a flush that was not deferred, the buffer is empty: a
    clean call that follows at once does nothing, and a second flush that
    may not be deferred sends, if the pipe takes it, one message that
    holds the header alone, without a registration message, and counts
    one more. *)
Theorem memtrace_after_flush dc pipe delay k dc' pipe' :
  cursor_at dc k -> 1 <= k ->
  deferred dc delay = false ->
  memtrace process_id dc pipe delay = Done (dc', pipe') ->
  clean_call process_id dc' pipe' = Done (dc', pipe') /\
  (all_full (returns pipe') [sizeof_trace_entry_t] = true ->
   exists dc2 pipe2,
     memtrace process_id dc' pipe' false = Done (dc2, pipe2) /\
     written pipe2
     = written pipe' ++ [(thread_id dc, [thread_entry (thread_id dc)])] /\
     num_refs (tls_field dc2) = wrap64 (num_refs (tls_field dc') + 1) /\
     cursor_at dc2 BUF_HDR_SLOTS /\
     (forall x, mem dc2 x = mem dc' x)).
Proof.
  pose proof sizeof_pos as Hs.
  intros Hcur Hk Hdef Hm.
  destruct (memtrace_Done_inv dc pipe delay dc' pipe' k Hcur Hk Hm)
    as [(Hd & _) | (_ & -> & Hw)]; [congruence |].
  assert (Hcur1 : cursor_at (flushed dc k) 1).
  { red. unfold flushed, BUF_HDR_SLOTS. cbn [BUF_PTR tls_field buf_base]. lia. }
  split.
  - unfold clean_call. apply memtrace_deferred.
    unfold deferred. red in Hcur1. rewrite Hcur1, ptr_diff_slots. reflexivity.
  - intros Hfull.
    assert (Hfw : flush_writes (flushed dc k) = [sizeof_trace_entry_t]).
    { unfold flush_writes, flushed, BUF_HDR_SLOTS.
      cbn [tls_field thread_registered BUF_PTR buf_base app]. f_equal. lia. }
    rewrite (memtrace_flush (flushed dc k) pipe' false 1 Hcur1 ltac:(lia) eq_refl)
      by (rewrite Hfw; exact Hfull).
    eexists. eexists. split; [reflexivity |].
    cbn [written]. unfold flush_messages, buffered.
    cbn [flushed tls_field thread_registered thread_id app Z.to_nat Z.sub
         load_entries num_refs mem buf_base].
    split; [reflexivity |]. split; [reflexivity |]. split; [reflexivity |].
    intros x. unfold store_entry, mem_store. cbn [type size addr].
    destruct (x =? buf_base (tls_field dc) + offsetof_addr); [reflexivity |].
    destruct (x =? buf_base (tls_field dc) + offsetof_size); [reflexivity |].
    destruct (x =? buf_base (tls_field dc) + offsetof_type); reflexivity.
Qed.

(** *** The entry of an instruction *)

(** X3.  The code of [instrument_instr] (which [event_app_instruction]
    does not insert at present), run with the buffer pointer in [reg_ptr]:
    if the slot at [adjust] behind the pointer is slot [j] of the buffer,
    it writes there one entry with the opcode as type, the length of the
    instruction as size (both as [ushort]) and the application's program
    counter as addr, touches no other cell and no register but [reg_tmp],
    and does not move the cursor; if that slot lies past the end of the
    buffer, it stores outside the buffer. *)
Theorem instrument_instr_entry instr reg_ptr reg_tmp adjust dc pipe j :
  reg_ptr <> reg_tmp ->
  regs dc reg_ptr + adjust = buf_base (tls_field dc) + j * sizeof_trace_entry_t ->
  (0 <= j < MAX_NUM_MEM_REFS ->
   exists dc',
     exec_code process_id scratch_value
       (instrument_instr instr reg_ptr reg_tmp adjust) (dc, pipe) = Done (dc', pipe) /\
     load_entry (mem dc') (regs dc reg_ptr + adjust) = instr_entry instr /\
     (forall x, ~ entry_cell (regs dc reg_ptr + adjust) x -> mem dc' x = mem dc x) /\
     (forall r, r <> reg_tmp -> regs dc' r = regs dc r) /\
     BUF_PTR dc' = BUF_PTR dc /\ tls_field dc' = tls_field dc /\
     spill dc' = spill dc /\ thread_id dc' = thread_id dc) /\
  (MAX_NUM_MEM_REFS <= j ->
   exec_code process_id scratch_value
     (instrument_instr instr reg_ptr reg_tmp adjust) (dc, pipe) = Fault).
Proof.
  intros Hne Ha.
  assert (Hne' : reg_tmp <> reg_ptr) by congruence.
  split.
  - intros Hj.
    pose proof (fun x => in_buffer_slot dc j x Hj) as Hin. rewrite <- Ha in Hin.
    unfold instrument_instr, insert_save_type, insert_save_size, insert_save_pc.
    rewrite exec_code_app.
    rewrite exec_save16; [| exact Hne | ].
    2:{ apply Hin. left. lia. }
    rewrite bind_Done. rewrite exec_code_app.
    rewrite exec_save16; [| exact Hne | ].
    2:{ exec_simpl. regs_simpl. apply Hin. right. left. lia. }
    rewrite bind_Done. exec_simpl. regs_simpl.
    rewrite store_checked_ok.
    2:{ unfold in_buffer. cbn [tls_field]. apply Hin. right. right. lia. }
    exec_simpl. eexists. split; [reflexivity |]. exec_simpl.
    match goal with
    | |- context [load_entry ?m _] => set (m' := m)
    end.
    assert (Hm : m' = store_entry (mem dc) (regs dc reg_ptr + adjust)
                        (instr_entry instr)).
    { unfold m', store_entry, instr_entry. cbn [type size addr].
      rewrite !Z.add_assoc. reflexivity. }
    split; [| split; [| split; [| repeat split]]].
    + rewrite Hm, load_store_entry. unfold instr_entry. cbn [type size addr].
      rewrite !wrap16_wrap16, wrap64_wrap64. reflexivity.
    + intros x Hx. rewrite Hm. apply store_entry_other. exact Hx.
    + intros r Hr. regs_simpl. reflexivity.
  - intros Hj.
    unfold instrument_instr, insert_save_type. cbn [app].
    apply exec_save16_fault; [exact Hne |].
    apply (in_buffer_past dc j); [exact Hj |].
    rewrite <- Ha. left. lia.
Qed.

(** *** What the inserted code leaves alone *)

(** Code that does not save to the spill slot [s] leaves it alone. *)
Lemma exec_code_spill s c :
  List.filter (saves_slot s) c = [] ->
  forall dc pipe dc' pipe',
    exec_code process_id scratch_value c (dc, pipe) = Done (dc', pipe') ->
    spill dc' s = spill dc s.
Proof.
  induction c as [| i c IH]; intros Hc dc pipe dc' pipe' Hex.
  - inversion Hex. reflexivity.
  - cbn [List.filter] in Hc.
    destruct (saves_slot s i) eqn:Hi; [discriminate |].
    cbn [exec_code] in Hex.
    destruct (exec_minstr process_id scratch_value i (dc, pipe))
      as [[dc1 pipe1] | |] eqn:H1; try discriminate.
    rewrite bind_Done in Hex. rewrite (IH Hc dc1 pipe1 dc' pipe' Hex).
    destruct i; cbn [exec_minstr] in H1;
      try (inversion H1; subst; reflexivity).
    + inversion H1. subst. cbn [set_spill spill]. unfold set_slot.
      cbn [saves_slot] in Hi. apply bool_decide_eq_false in Hi.
      rewrite decide_False by congruence. reflexivity.
    + unfold store_checked in H1.
      destruct (in_buffer dc _); [| discriminate].
      cbn in H1. inversion H1. reflexivity.
    + unfold store_checked in H1.
      destruct (in_buffer dc _); [| discriminate].
      cbn in H1. inversion H1. reflexivity.
    + unfold clean_call in H1.
      destruct (memtrace_frame dc pipe true dc1 pipe1 H1) as (_ & Hsp & _).
      rewrite Hsp. reflexivity.
Qed.

Lemma no_save_instrument_opnds s ops write rp rt adjust :
  List.filter (saves_slot s) (fst (instrument_opnds ops write rp rt adjust)) = [].
Proof.
  revert adjust. induction ops as [| o ops IH]; intros adjust; [reflexivity |].
  cbn [instrument_opnds]. destruct (opnd_is_memory_reference o); [| apply IH].
  specialize (IH (adjust + sizeof_trace_entry_t)).
  destruct (instrument_opnds ops write rp rt (adjust + sizeof_trace_entry_t)) as [cs adj].
  cbn [fst] in *. rewrite List.filter_app, IH, app_nil_r.
  unfold instrument_mem, insert_save_type, insert_save_size, insert_save_addr,
    insert_load_buf_ptr.
  destruct (opnd_uses_reg o rp), (opnd_uses_reg o rt); reflexivity.
Qed.

(** The inserted code saves to [slot_ptr] and [slot_tmp] only. *)
Lemma no_save_event_code s a instr ud :
  s <> slot_ptr -> s <> slot_tmp ->
  List.filter (saves_slot s) (fst (event_app_instruction a instr ud)) = [].
Proof.
  intros Hp Ht.
  assert (He : List.filter (saves_slot s) (entry_code a instr) = []).
  { destruct (instrumented instr) eqn:Hi.
    - rewrite (entry_code_eq a instr Hi). cbv zeta.
      rewrite !List.filter_app, !no_save_instrument_opnds.
      cbn [List.filter saves_slot app].
      rewrite !bool_decide_eq_false_2 by congruence. reflexivity.
    - unfold entry_code. rewrite event_app_instruction_skip by exact Hi. reflexivity. }
  rewrite event_app_instruction_cases.
  destruct (negb (clean_call_inserted ud) && eligible a instr); cbn [fst].
  - rewrite List.filter_app, He. reflexivity.
  - unfold plain_code. destruct (instrumented instr); [exact He | reflexivity].
Qed.

(** X4.  The code [event_app_instruction] inserts in front of an
    instruction, the clean call included, is transparent to the
    application: if it runs to its end, every register holds what it held
    before, every spill slot but [slot_ptr] and [slot_tmp] too, thread
    identifier, segment base and buffer base are the same, and in memory
    nothing has changed but the slots the entries of the instruction go to
    and the header slot of the buffer. *)
Theorem event_app_instruction_transparent instr ud dc pipe k dc' pipe' :
  cursor_at dc k -> 0 <= k <= MAX_NUM_MEM_REFS ->
  exec_code process_id scratch_value
    (fst (event_app_instruction arch instr ud)) (dc, pipe) = Done (dc', pipe') ->
  (forall r, regs dc' r = regs dc r) /\
  (forall s, s <> slot_ptr -> s <> slot_tmp -> spill dc' s = spill dc s) /\
  thread_id dc' = thread_id dc /\
  seg_base (tls_field dc') = seg_base (tls_field dc) /\
  buf_base (tls_field dc') = buf_base (tls_field dc) /\
  (forall x,
     ~ entry_cell (buf_base (tls_field dc)) x ->
     (forall i, 0 <= i < appended_by instr ->
        ~ entry_cell (BUF_PTR dc + i * sizeof_trace_entry_t) x) ->
     mem dc' x = mem dc x).
Proof.
  intros Hcur Hk Hex.
  split; [| split].
  2:{ intros s Hp Ht.
      apply (exec_code_spill s _ (no_save_event_code s arch instr ud Hp Ht)
               dc pipe dc' pipe' Hex). }
  2:{ destruct (instrumented instr) eqn:Hi.
      2:{ rewrite event_app_instruction_skip in Hex by exact Hi.
          inversion Hex. subst. repeat split; auto. }
      rewrite event_app_instruction_code in Hex by exact Hi. cbn [fst] in Hex.
      destruct (exec_entry_code arch instr dc pipe k
                  (if clean_call_wanted arch instr ud then [dr_insert_clean_call] else [])
                  Hi Hcur Hk) as (Hdone & Hfault).
      rewrite (length_instr_entries instr (regs dc) Hi) in Hdone, Hfault.
      destruct (Z_le_gt_dec (k + appended_by instr) MAX_NUM_MEM_REFS) as [Hle | Hgt].
      2:{ rewrite Hfault in Hex by lia. discriminate. }
      destruct (Hdone Hle) as (dc1 & Hex1 & Hr1 & Ht1 & Hf1 & Hb1 & _ & Hframe1).
      rewrite exec_code_app, Hex1, bind_Done in Hex.
      assert (Hmem1 : forall x,
                (forall i, 0 <= i < appended_by instr ->
                   ~ entry_cell (BUF_PTR dc + i * sizeof_trace_entry_t) x) ->
                mem dc1 x = mem dc x).
      { exact Hframe1. }
      destruct (clean_call_wanted arch instr ud).
      - cbn [exec_code exec_minstr] in Hex. unfold clean_call in Hex.
        destruct (memtrace process_id dc1 pipe true) as [[dc2 pipe2] | |] eqn:Hm;
          try discriminate.
        cbn in Hex. inversion Hex. subst dc2 pipe2.
        destruct (memtrace_frame dc1 pipe true dc' pipe' Hm)
          as (_ & _ & Ht2 & Hseg2 & Hbase2 & Hmem2 & _).
        rewrite Ht2, Hseg2, Hbase2, Ht1, Hf1.
        repeat split; auto.
        intros x Hx0 Hx. rewrite Hmem2 by (rewrite Hf1; exact Hx0).
        apply Hmem1. exact Hx.
      - cbn in Hex. inversion Hex. subst dc1 pipe'.
        rewrite Ht1, Hf1. repeat split; auto. }
  (* the registers *)
  destruct (instrumented instr) eqn:Hi.
  2:{ rewrite event_app_instruction_skip in Hex by exact Hi.
      inversion Hex. subst. reflexivity. }
  rewrite event_app_instruction_code in Hex by exact Hi. cbn [fst] in Hex.
  destruct (exec_entry_code arch instr dc pipe k
              (if clean_call_wanted arch instr ud then [dr_insert_clean_call] else [])
              Hi Hcur Hk) as (Hdone & Hfault).
  destruct (Z_le_gt_dec (k + Z.of_nat (length (instr_entries instr (regs dc))))
              MAX_NUM_MEM_REFS) as [Hle | Hgt].
  2:{ rewrite Hfault in Hex by lia. discriminate. }
  destruct (Hdone Hle) as (dc1 & Hex1 & Hr1 & _).
  rewrite exec_code_app, Hex1, bind_Done in Hex.
  destruct (clean_call_wanted arch instr ud).
  - cbn [exec_code exec_minstr] in Hex. unfold clean_call in Hex.
    destruct (memtrace process_id dc1 pipe true) as [[dc2 pipe2] | |] eqn:Hm;
      try discriminate.
    cbn in Hex. inversion Hex. subst dc2 pipe2.
    destruct (memtrace_frame dc1 pipe true dc' pipe' Hm) as (Hr2 & _).
    intros r. rewrite Hr2. apply Hr1.
  - cbn in Hex. inversion Hex. subst dc1 pipe'. exact Hr1.
Qed.

(** *** The stream against the program *)

Lemma pending_cursor p t th k :
  threads p !! t = Some th -> cursor_at (ctx th) k ->
  pending p t = buffered (ctx th) k.
Proof.
  intros Hlook Hcur. unfold pending. rewrite Hlook.
  red in Hcur. rewrite Hcur, ptr_diff_slots. reflexivity.
Qed.

Lemma sent_refs_app t l1 l2 :
  sent_refs t (l1 ++ l2) = sent_refs t l1 ++ sent_refs t l2.
Proof.
  unfold sent_refs. rewrite msgs_of_app, concat_app, List.filter_app. reflexivity.
Qed.

(** A flush hands over the entries of the buffer, and no other entry of a
    memory reference. *)
Lemma sent_refs_flush t dc k :
  thread_id dc = t ->
  Forall (fun e => is_memref_entry e = true) (buffered dc k) ->
  sent_refs t (flush_messages process_id dc k) = buffered dc k.
Proof.
  intros Ht Hb. unfold sent_refs. rewrite msgs_of_flush, Ht, Z.eqb_refl.
  destruct (thread_entry_kind t) as (Htm & _).
  destruct pid_entry_kind as (Hpm & _).
  destruct (thread_registered (tls_field dc)); unfold pid_info;
    cbn [app concat List.filter]; rewrite ?Htm, ?Hpm, ?app_nil_r;
    apply filter_all; exact Hb.
Qed.

Lemma sent_refs_flush_other t dc k :
  thread_id dc <> t -> sent_refs t (flush_messages process_id dc k) = [].
Proof.
  intros Hne. unfold sent_refs. rewrite msgs_of_flush_other by exact Hne. reflexivity.
Qed.

(** What a [memtrace] that returns has added to the pipe. *)
Lemma memtrace_log t dc pipe delay dc' pipe' :
  thread_inv process_id (written pipe) t dc ->
  memtrace process_id dc pipe delay = Done (dc', pipe') ->
  exists k,
    cursor_at dc k /\ 1 <= k <= MAX_NUM_MEM_REFS /\
    Forall (fun e => is_memref_entry e = true) (buffered dc k) /\
    ((deferred dc delay = true /\ dc' = dc /\ written pipe' = written pipe) \/
     (deferred dc delay = false /\ dc' = flushed dc k /\
      written pipe' = written pipe ++ flush_messages process_id dc k)).
Proof.
  intros (_ & (k & Hk & Hr & Hb) & _) Hm. exists k.
  split; [exact Hk |]. split; [exact Hr |]. split; [exact Hb |].
  destruct (memtrace_Done_inv dc pipe delay dc' pipe' k Hk ltac:(lia) Hm)
    as [(Hd & -> & ->) | (Hd & -> & Hw)]; [left | right]; auto.
Qed.

(** The entries behind the cursor after the code of an instruction. *)
Lemma exec_entry_code_buffered a instr dc pipe k :
  instrumented instr = true ->
  cursor_at dc k -> 1 <= k <= MAX_NUM_MEM_REFS ->
  k + appended_by instr <= MAX_NUM_MEM_REFS ->
  exists dc1,
    exec_code process_id scratch_value (entry_code a instr) (dc, pipe)
      = Done (dc1, pipe) /\
    thread_id dc1 = thread_id dc /\ tls_field dc1 = tls_field dc /\
    cursor_at dc1 (k + appended_by instr) /\
    buffered dc1 (k + appended_by instr)
    = buffered dc k ++ instr_entries instr (regs dc).
Proof.
  pose proof sizeof_pos as Hs.
  intros Hi Hcur Hk Hroom.
  rewrite <- (length_instr_entries instr (regs dc) Hi) in Hroom |- *.
  destruct (exec_entry_code a instr dc pipe k [] Hi Hcur ltac:(lia)) as (Hdone & _).
  destruct (Hdone Hroom) as (dc1 & Hex & _ & Ht & Hf & Hb & Hload & Hframe).
  exists dc1. split; [exact Hex |].
  set (n := length (instr_entries instr (regs dc))) in *.
  red in Hcur.
  split; [exact Ht |]. split; [exact Hf |]. split.
  { red. rewrite Hb, Hf, Hcur. lia. }
  unfold buffered. rewrite Hf.
  replace (Z.to_nat (k + Z.of_nat n - 1)) with (Z.to_nat (k - 1) + n)%nat by lia.
  rewrite load_entries_app. f_equal.
  - apply load_entries_ext. intros i x Hi' Hc. apply Hframe. intros i2 Hi2 Hc2.
    rewrite Hcur in Hc2.
    apply (entry_cell_slots (buf_base (tls_field dc)) (i + 1) (k + i2) x); [lia | |].
    + replace (buf_base (tls_field dc) + (i + 1) * sizeof_trace_entry_t)
        with (buf_base (tls_field dc) + sizeof_trace_entry_t
              + i * sizeof_trace_entry_t) by lia.
      exact Hc.
    + replace (buf_base (tls_field dc) + (k + i2) * sizeof_trace_entry_t)
        with (buf_base (tls_field dc) + k * sizeof_trace_entry_t
              + i2 * sizeof_trace_entry_t) by lia.
      exact Hc2.
  - rewrite <- Hload. f_equal. rewrite Hcur. rewrite Z2Nat.id by lia. lia.
Qed.

(** What the code in front of an instruction does to the buffer and to the
    pipe: it appends the entries of the instruction, and its clean call,
    if there is one and it is not deferred, hands the buffer over. *)
Lemma exec_event_log t instr ud dc pipe dc' pipe' :
  thread_inv process_id (written pipe) t dc ->
  exec_code process_id scratch_value
    (fst (event_app_instruction arch instr ud)) (dc, pipe) = Done (dc', pipe') ->
  let es := if instrumented instr then instr_entries instr (regs dc) else [] in
  exists k dc1,
    cursor_at dc k /\
    thread_id dc1 = t /\
    cursor_at dc1 (k + Z.of_nat (length es)) /\
    1 <= k + Z.of_nat (length es) <= MAX_NUM_MEM_REFS /\
    buffered dc1 (k + Z.of_nat (length es)) = buffered dc k ++ es /\
    Forall (fun e => is_memref_entry e = true) (buffered dc1 (k + Z.of_nat (length es))) /\
    ((dc' = dc1 /\ written pipe' = written pipe) \/
     (dc' = flushed dc1 (k + Z.of_nat (length es)) /\
      written pipe'
      = written pipe ++ flush_messages process_id dc1 (k + Z.of_nat (length es)))).
Proof.
  intros Hinv Hex es.
  pose proof Hinv as (Ht & (k & Hk & Hr & Hb) & _).
  exists k.
  destruct (instrumented instr) eqn:Hi.
  2:{ rewrite event_app_instruction_skip in Hex by exact Hi.
      cbn in Hex. inversion Hex. subst dc' pipe'.
      exists dc. subst es. cbn [length Z.of_nat]. rewrite Z.add_0_r, app_nil_r.
      repeat split; auto; lia. }
  rewrite event_app_instruction_code in Hex by exact Hi. cbn [fst] in Hex.
  destruct (Z_le_gt_dec (k + appended_by instr) MAX_NUM_MEM_REFS) as [Hle | Hgt].
  2:{ rewrite <- (length_instr_entries instr (regs dc) Hi) in Hgt.
      destruct (exec_entry_code arch instr dc pipe k
                  (if clean_call_wanted arch instr ud then [dr_insert_clean_call] else [])
                  Hi Hk ltac:(lia)) as (_ & Hfault).
      rewrite Hfault in Hex by lia. discriminate. }
  destruct (exec_entry_code_buffered arch instr dc pipe k Hi Hk Hr Hle)
    as (dc1 & Hex1 & Ht1 & Hf1 & Hc1 & Hb1).
  pose proof (appended_by_nonneg instr) as Hnn.
  subst es. rewrite (length_instr_entries instr (regs dc) Hi).
  assert (Hall : Forall (fun e => is_memref_entry e = true)
                   (buffered dc1 (k + appended_by instr))).
  { rewrite Hb1. apply Forall_app. split; [exact Hb | apply memref_instr_entries]. }
  exists dc1.
  split; [exact Hk |]. split; [congruence |]. split; [exact Hc1 |].
  split; [lia |]. split; [exact Hb1 |]. split; [exact Hall |].
  rewrite exec_code_app, Hex1, bind_Done in Hex.
  destruct (clean_call_wanted arch instr ud).
  - cbn [exec_code exec_minstr] in Hex. unfold clean_call in Hex.
    destruct (memtrace process_id dc1 pipe true) as [[dc2 pipe2] | |] eqn:Hm;
      try discriminate.
    cbn in Hex. inversion Hex. subst dc2 pipe2.
    destruct (memtrace_Done_inv dc1 pipe true dc' pipe' _ Hc1 ltac:(lia) Hm)
      as [(_ & -> & ->) | (_ & -> & Hw)]; [left | right]; auto.
  - cbn in Hex. inversion Hex. subst. left. auto.
Qed.

(** What a step that goes through has added to the pipe: nothing, or the
    messages of one flush of the thread of the event. *)
Lemma step_log p e p' :
  process_inv process_id p ->
  step process_id scratch_value arch p e = Done p' ->
  written (ipc_pipe p') = written (ipc_pipe p) \/
  exists dc k,
    thread_id dc = event_tid e /\ cursor_at dc k /\ 1 <= k <= MAX_NUM_MEM_REFS /\
    Forall (fun e => is_memref_entry e = true) (buffered dc k) /\
    written (ipc_pipe p')
    = written (ipc_pipe p) ++ flush_messages process_id dc k.
Proof.
  intros Hinv Hstep.
  assert (Hflush : forall th dc pipe',
            threads p !! event_tid e = Some th ->
            memtrace process_id (ctx th) (ipc_pipe p) false = Done (dc, pipe') ->
            written pipe' = written (ipc_pipe p) \/
            exists dc k,
              thread_id dc = event_tid e /\ cursor_at dc k /\
              1 <= k <= MAX_NUM_MEM_REFS /\
              Forall (fun e => is_memref_entry e = true) (buffered dc k) /\
              written pipe' = written (ipc_pipe p) ++ flush_messages process_id dc k).
  { intros th dc pipe' Hlook Hm.
    pose proof (thread_inv_of p _ th Hinv Hlook) as Hti.
    destruct (memtrace_log _ _ _ _ _ _ Hti Hm)
      as (k & Hk & Hr & Hb & [(_ & _ & Hw) | (_ & _ & Hw)]); [left; exact Hw |].
    right. exists (ctx th), k. repeat split; auto; try lia. apply Hti. }
  destruct e as [tid seg buf rs ss m | tid instr ud rs | tid];
    cbn [step event_tid] in *; destruct (threads p !! tid) as [th |] eqn:Hlook;
    try (inversion Hstep; subst p'; left; reflexivity).
  - destruct (event_thread_init tid seg buf rs ss m); try discriminate.
    cbn in Hstep. inversion Hstep. left. reflexivity.
  - destruct (status th); try (inversion Hstep; subst p'; left; reflexivity).
    destruct (exec_code process_id scratch_value _ _) as [[dc pipe'] | |] eqn:Hex;
      try discriminate.
    cbn in Hstep. inversion Hstep. subst p'. cbn [ipc_pipe].
    pose proof (thread_inv_of p tid th Hinv Hlook) as Hti.
    destruct (exec_event_log tid instr ud (set_regs (ctx th) rs) (ipc_pipe p) dc pipe'
                Hti Hex)
      as (k & dc1 & _ & Ht1 & Hc1 & Hr1 & _ & Hall & [(_ & Hw) | (_ & Hw)]);
      [left; exact Hw |].
    right. exists dc1. eexists. repeat split; eauto; lia.
  - destruct (status th) as [| [| s rest] |];
      try (inversion Hstep; subst p'; left; reflexivity).
    + cbn [event_thread_exit exit_step] in Hstep.
      destruct (memtrace process_id (ctx th) (ipc_pipe p) false) as [[dc pipe'] | |] eqn:Hm;
        try discriminate.
      cbn in Hstep. inversion Hstep. subst p'. cbn [ipc_pipe].
      eapply Hflush; eauto.
    + destruct s; cbn [exit_step] in Hstep;
        try (inversion Hstep; subst p'; left; reflexivity).
      * destruct (memtrace process_id (ctx th) (ipc_pipe p) false)
          as [[dc pipe'] | |] eqn:Hm; try discriminate.
        cbn in Hstep. inversion Hstep. subst p'. cbn [ipc_pipe].
        eapply Hflush; eauto.
      * destruct (mutex p); inversion Hstep; left; reflexivity.
Qed.

(** A statement of [event_thread_exit]: either the thread waits for the
    mutex, or it is past a statement, and only [memtrace] has touched its
    context and the pipe. *)
Lemma exit_step_cases p t th s rest p' :
  exit_step process_id p t th s rest = Done p' ->
  (s = stmt_mutex_lock /\ p' = p) \/
  exists th',
    threads p' !! t = Some th' /\ status th' <> Active /\
    ((s <> stmt_memtrace /\ ctx th' = ctx th /\
      written (ipc_pipe p') = written (ipc_pipe p)) \/
     (s = stmt_memtrace /\
      memtrace process_id (ctx th) (ipc_pipe p) false = Done (ctx th', ipc_pipe p'))).
Proof.
  assert (Hnext : match rest with [] => Exited | _ => Exiting rest end <> Active).
  { destruct rest; discriminate. }
  intros Hs. destruct s; cbn [exit_step] in Hs.
  - destruct (memtrace process_id (ctx th) (ipc_pipe p) false) as [[dc pipe'] | |] eqn:Hm;
      try discriminate.
    cbn in Hs. inversion Hs. subst p'. right. eexists.
    cbn [threads ipc_pipe]. rewrite lookup_insert_eq. split; [reflexivity |].
    split; [exact Hnext |]. right. split; reflexivity.
  - destruct (mutex p); inversion Hs; subst p'; [left; split; reflexivity |].
    right. eexists. cbn [threads ipc_pipe]. rewrite lookup_insert_eq.
    split; [reflexivity |]. split; [exact Hnext |].
    left. repeat split. discriminate.
  - inversion Hs. subst p'. right. eexists. cbn [threads ipc_pipe].
    rewrite lookup_insert_eq. split; [reflexivity |]. split; [exact Hnext |].
    left. repeat split. discriminate.
  - inversion Hs. subst p'. right. eexists. cbn [threads ipc_pipe].
    rewrite lookup_insert_eq. split; [reflexivity |]. split; [exact Hnext |].
    left. repeat split. discriminate.
  - inversion Hs. subst p'. right. eexists. cbn [threads ipc_pipe].
    rewrite lookup_insert_eq. split; [reflexivity |]. split; [exact Hnext |].
    left. repeat split. discriminate.
  - inversion Hs. subst p'. right. eexists. cbn [threads ipc_pipe].
    rewrite lookup_insert_eq. split; [reflexivity |]. split; [exact Hnext |].
    left. repeat split. discriminate.
  - inversion Hs. subst p'. right. eexists. cbn [threads ipc_pipe].
    rewrite lookup_insert_eq. split; [reflexivity |]. split; [exact Hnext |].
    left. repeat split. discriminate.
Qed.

(** A flush keeps what the thread has sent and holds, taken together. *)
Lemma memtrace_trace t dc pipe delay dc' pipe' :
  thread_inv process_id (written pipe) t dc ->
  memtrace process_id dc pipe delay = Done (dc', pipe') ->
  exists k k',
    cursor_at dc k /\ cursor_at dc' k' /\ (delay = false -> k' = 1) /\
    sent_refs t (written pipe') ++ buffered dc' k'
    = sent_refs t (written pipe) ++ buffered dc k.
Proof.
  intros Hinv Hm. pose proof Hinv as (Ht & _).
  destruct (memtrace_log t dc pipe delay dc' pipe' Hinv Hm)
    as (k & Hk & Hr & Hb & [(Hd & -> & ->) | (_ & -> & ->)]).
  - exists k, k. repeat split; auto.
    intros ->. discriminate Hd.
  - exists k, 1. split; [exact Hk |]. split; [reflexivity |]. split; [reflexivity |].
    rewrite sent_refs_app, (sent_refs_flush t dc k Ht Hb).
    unfold buffered at 1. cbn [Z.sub Z.to_nat load_entries Z.add Z.opp Z.pos_sub].
    rewrite app_nil_r. reflexivity.
Qed.

(** One step against the trace of thread [t]. *)
Lemma step_trace t l p e p' :
  process_inv process_id p -> life_ok l p t ->
  step process_id scratch_value arch p e = Done p' ->
  life_ok (life_step t l e) p' t /\
  sent_refs t (written (ipc_pipe p')) ++ pending p' t
  = (sent_refs t (written (ipc_pipe p)) ++ pending p t) ++ issue t l e.
Proof.
  intros Hinv Hl Hstep.
  destruct (decide (event_tid e = t)) as [He | He].
  2:{ assert (Hth : threads p' !! t = threads p !! t)
        by (eapply step_other_thread; eauto).
      assert (Hsent : sent_refs t (written (ipc_pipe p'))
                      = sent_refs t (written (ipc_pipe p))).
      { destruct (step_log p e p' Hinv Hstep) as [-> | (dc & k & Hid & _ & _ & _ & ->)];
          [reflexivity |].
        rewrite sent_refs_app, sent_refs_flush_other by congruence.
        apply app_nil_r. }
      assert (Hissue : issue t l e = []).
      { destruct e as [| tid ? ? ? |], l; cbn [issue]; try reflexivity.
        cbn [event_tid] in He.
        destruct (Z.eqb_spec tid t); [contradiction | reflexivity]. }
      assert (Hlife : life_step t l e = l).
      { unfold life_step. destruct (Z.eqb_spec (event_tid e) t);
          [contradiction | reflexivity]. }
      rewrite Hlife, Hissue, app_nil_r, Hsent. unfold pending. rewrite Hth.
      split; [| reflexivity].
      destruct l; cbn [life_ok] in *; rewrite Hth; exact Hl. }
  assert (Hsame : issue t l e = [] -> life_step t l e = l ->
            life_ok (life_step t l e) p t /\
            sent_refs t (written (ipc_pipe p)) ++ pending p t
            = (sent_refs t (written (ipc_pipe p)) ++ pending p t) ++ issue t l e).
  { intros -> ->. rewrite app_nil_r. split; [exact Hl | reflexivity]. }
  destruct e as [tid seg buf rs ss m | tid instr ud rs | tid];
    cbn [event_tid] in He; subst tid; cbn [step] in Hstep.
  - (* event_thread_init *)
    destruct l; cbn [life_ok] in Hl.
    + rewrite Hl in Hstep. unfold event_thread_init in Hstep.
      destruct (negb (seg =? 0) && negb (buf =? 0)); [| discriminate].
      cbn in Hstep. inversion Hstep. subst p'. clear Hstep.
      unfold life_step. cbn [event_tid issue]. rewrite Z.eqb_refl.
      split.
      * cbn [life_ok threads]. eexists. rewrite lookup_insert_eq.
        split; reflexivity.
      * cbn [ipc_pipe]. rewrite app_nil_r. f_equal.
        unfold pending at 2. rewrite Hl.
        erewrite pending_cursor with (k := 1);
          [| cbn [threads]; apply lookup_insert_eq
           | red; cbn; unfold BUF_HDR_SLOTS; reflexivity ].
        reflexivity.
    + destruct Hl as (th & Hlook & Hs). rewrite Hlook in Hstep.
      inversion Hstep. subst p'. apply Hsame; [reflexivity |].
      unfold life_step. destruct (_ =? _); reflexivity.
    + destruct Hl as (th & Hlook & Hs). rewrite Hlook in Hstep.
      inversion Hstep. subst p'. apply Hsame; [reflexivity |].
      unfold life_step. destruct (_ =? _); reflexivity.
  - (* an instruction *)
    assert (Hlife : life_step t l (ev_instr t instr ud rs) = l).
    { unfold life_step. destruct (_ =? _), l; reflexivity. }
    destruct l; cbn [life_ok] in Hl.
    + rewrite Hl in Hstep. inversion Hstep. subst p'. apply Hsame; auto.
    + destruct Hl as (th & Hlook & Hs). rewrite Hlook, Hs in Hstep.
      destruct (exec_code process_id scratch_value _ _) as [[dc pipe'] | |] eqn:Hex;
        try discriminate.
      cbn in Hstep. inversion Hstep. subst p'. clear Hstep.
      rewrite Hlife.
      pose proof (thread_inv_of p t th Hinv Hlook) as Hti.
      destruct (exec_event_log t instr ud (set_regs (ctx th) rs) (ipc_pipe p) dc pipe'
                  Hti Hex)
        as (k & dc1 & Hk & Ht1 & Hc1 & Hr1 & Hb1 & Hall & Hcase).
      cbn [regs set_regs] in Hb1, Hc1, Hr1, Hall, Hcase.
      split.
      { cbn [life_ok threads]. eexists. rewrite lookup_insert_eq.
        split; reflexivity. }
      cbn [ipc_pipe issue]. rewrite Z.eqb_refl. cbn [andb].
      rewrite (pending_cursor p t th k Hlook Hk).
      change (buffered (ctx th) k) with (buffered (set_regs (ctx th) rs) k).
      rewrite <- app_assoc, <- Hb1.
      destruct Hcase as [(-> & ->) | (-> & ->)].
      * erewrite pending_cursor;
          [| cbn [threads]; apply lookup_insert_eq | cbn [ctx]; exact Hc1].
        reflexivity.
      * erewrite pending_cursor with (k := 1);
          [| cbn [threads]; apply lookup_insert_eq | cbn [ctx]; reflexivity].
        rewrite sent_refs_app, (sent_refs_flush t dc1 _ Ht1 Hall).
        unfold buffered at 2.
        cbn [Z.sub Z.to_nat load_entries Z.add Z.opp Z.pos_sub].
        rewrite app_nil_r. reflexivity.
    + destruct Hl as (th & Hlook & Hs & Hc). rewrite Hlook in Hstep.
      destruct (status th); [contradiction | |];
        inversion Hstep; subst p'; apply Hsame; auto.
  - (* a statement of event_thread_exit *)
    destruct l; cbn [life_ok] in Hl.
    + rewrite Hl in Hstep. inversion Hstep. subst p'. apply Hsame; [reflexivity |].
      unfold life_step. destruct (_ =? _); reflexivity.
    + destruct Hl as (th & Hlook & Hs). rewrite Hlook, Hs in Hstep.
      cbn [event_thread_exit] in Hstep.
      unfold life_step. cbn [event_tid issue]. rewrite Z.eqb_refl, app_nil_r.
      pose proof (thread_inv_of p t th Hinv Hlook) as Hti.
      destruct (exit_step_cases p t th _ _ p' Hstep)
        as [(Hx & _) | (th' & Hlook' & Hs' & [(Hx & _) | (_ & Hm)])];
        try discriminate Hx; try (exfalso; apply Hx; reflexivity).
      destruct (memtrace_trace t _ _ _ _ _ Hti Hm) as (k & k' & Hk & Hk' & H1 & Heq).
      rewrite (H1 eq_refl) in *.
      split; [cbn [life_ok]; eauto |].
      rewrite (pending_cursor p' t th' 1 Hlook' Hk'),
              (pending_cursor p t th k Hlook Hk). exact Heq.
    + destruct Hl as (th & Hlook & Hs & Hc). rewrite Hlook in Hstep.
      assert (Hlife : life_step t Gone (ev_exit_step t) = Gone).
      { unfold life_step. destruct (_ =? _); reflexivity. }
      destruct (status th) as [| [| s rest] |] eqn:Hst; [contradiction | | |];
        try (inversion Hstep; subst p'; apply Hsame; auto; fail).
      rewrite Hlife. cbn [issue]. rewrite app_nil_r.
      pose proof (thread_inv_of p t th Hinv Hlook) as Hti.
      destruct (exit_step_cases p t th _ _ p' Hstep)
        as [(_ & ->) | (th' & Hlook' & Hs' & [(_ & Hctx & Hw) | (_ & Hm)])].
      * split; [cbn [life_ok]; exists th; rewrite Hst; auto | reflexivity].
      * split; [cbn [life_ok]; exists th'; rewrite Hctx; auto |].
        rewrite Hw. unfold pending. rewrite Hlook', Hlook, Hctx. reflexivity.
      * destruct (memtrace_trace t _ _ _ _ _ Hti Hm) as (k & k' & Hk & Hk' & H1 & Heq).
        rewrite (H1 eq_refl) in *.
        split; [cbn [life_ok]; eauto |].
        rewrite (pending_cursor p' t th' 1 Hlook' Hk'),
                (pending_cursor p t th k Hlook Hk). exact Heq.
Qed.

Lemma run_trace t es :
  forall l p p',
    process_inv process_id p -> life_ok l p t ->
    run process_id scratch_value arch es p = Done p' ->
    life_ok (fold_left (life_step t) es l) p' t /\
    sent_refs t (written (ipc_pipe p')) ++ pending p' t
    = (sent_refs t (written (ipc_pipe p)) ++ pending p t) ++ issued t l es.
Proof.
  induction es as [| e es IH]; intros l p p' Hinv Hl Hrun.
  - inversion Hrun. subst p'. cbn [fold_left issued]. rewrite app_nil_r. auto.
  - cbn [run] in Hrun.
    destruct (step process_id scratch_value arch p e) as [p1 | |] eqn:Hstep;
      try discriminate.
    rewrite bind_Done in Hrun.
    destruct (step_trace t l p e p1 Hinv Hl Hstep) as (Hl1 & Heq1).
    destruct (IH _ p1 p' (step_process_inv p e p1 Hinv Hstep) Hl1 Hrun) as (Hl' & Heq').
    cbn [fold_left issued]. split; [exact Hl' |].
    rewrite Heq', Heq1, <- !app_assoc. reflexivity.
Qed.

(** X5.  At any point of any run, the READ and WRITE entries a thread has
    handed to the pipe, followed by those it holds in its buffer, are the
    entries of the instructions it has executed, in the order of
    execution: none is lost, repeated or out of place.  Once the thread is
    in [event_thread_exit] and past its flush, all of them are on the
    pipe. *)
Theorem trace_faithful es rets p t :
  run process_id scratch_value arch es (dr_init rets) = Done p ->
  sent_refs t (written (ipc_pipe p)) ++ pending p t = issued t Unborn es /\
  (forall th, threads p !! t = Some th -> status th <> Active ->
     pending p t = [] /\
     sent_refs t (written (ipc_pipe p)) = issued t Unborn es).
Proof.
  intros Hrun.
  assert (Hl0 : life_ok Unborn (dr_init rets) t).
  { cbn [life_ok dr_init threads]. apply lookup_empty. }
  destruct (run_trace t es Unborn (dr_init rets) p (dr_init_process_inv rets) Hl0 Hrun)
    as (Hl & Heq).
  assert (Heq' : sent_refs t (written (ipc_pipe p)) ++ pending p t
                 = issued t Unborn es).
  { rewrite Heq. unfold pending, dr_init. cbn [threads ipc_pipe written].
    rewrite lookup_empty. reflexivity. }
  split; [exact Heq' |].
  intros th Hlook Hs.
  assert (Hp : pending p t = []).
  { destruct (fold_left (life_step t) es Unborn); cbn [life_ok] in Hl.
    - congruence.
    - destruct Hl as (th0 & Hlook0 & Hs0). congruence.
    - destruct Hl as (th0 & Hlook0 & _ & Hc).
      rewrite (pending_cursor p t th0 1 Hlook0 Hc). reflexivity. }
  split; [exact Hp |]. rewrite <- Heq', Hp, app_nil_r. reflexivity.
Qed.

(** *** Messages *)

Lemma flush_messages_ok dc k :
  1 <= k <= MAX_NUM_MEM_REFS ->
  Forall (fun e => is_memref_entry e = true) (buffered dc k) ->
  Forall (message_ok process_id) (flush_messages process_id dc k).
Proof.
  intros Hk Hb. unfold flush_messages. apply Forall_app. split.
  - destruct (thread_registered (tls_field dc)); constructor; [| constructor].
    left. reflexivity.
  - constructor; [| constructor]. right. exists (buffered dc k).
    cbn [fst snd]. split; [reflexivity |]. split; [exact Hb |].
    cbn [length]. unfold buffered. rewrite load_entries_length. lia.
Qed.

Lemma run_messages es :
  forall p p',
    process_inv process_id p ->
    Forall (message_ok process_id) (written (ipc_pipe p)) ->
    run process_id scratch_value arch es p = Done p' ->
    Forall (message_ok process_id) (written (ipc_pipe p')).
Proof.
  induction es as [| e es IH]; intros p p' Hinv Hok Hrun.
  - inversion Hrun. subst p'. exact Hok.
  - cbn [run] in Hrun.
    destruct (step process_id scratch_value arch p e) as [p1 | |] eqn:Hstep;
      try discriminate.
    rewrite bind_Done in Hrun.
    apply (IH p1 p' (step_process_inv p e p1 Hinv Hstep)); [| exact Hrun].
    destruct (step_log p e p1 Hinv Hstep) as [-> | (dc & k & _ & _ & Hk & Hb & ->)];
      [exact Hok |].
    apply Forall_app. split; [exact Hok |]. apply flush_messages_ok; assumption.
Qed.

(** X6.  At any point of any run, every message on the pipe starts with
    the THREAD entry of the thread that wrote it, and is either that
    thread's registration (THREAD, PID) or a buffer: the header followed
    by READ and WRITE entries only, at most [MAX_NUM_MEM_REFS] entries
    with the header, that is [MEM_BUF_SIZE] bytes. *)
Theorem messages_start_with_thread_header es rets p who m :
  run process_id scratch_value arch es (dr_init rets) = Done p ->
  (who, m) ∈ written (ipc_pipe p) ->
  (exists rest, m = thread_entry who :: rest) /\
  (m = [thread_entry who; pid_entry process_id] \/
   (Forall (fun e => is_memref_entry e = true) (tail m) /\
    Z.of_nat (length m) <= MAX_NUM_MEM_REFS /\
    Z.of_nat (length m) * sizeof_trace_entry_t <= MEM_BUF_SIZE)).
Proof.
  pose proof sizeof_pos as Hs.
  intros Hrun Hin.
  assert (Hok : Forall (message_ok process_id) (written (ipc_pipe p))).
  { apply (run_messages es (dr_init rets) p (dr_init_process_inv rets));
      [constructor | exact Hrun]. }
  rewrite Forall_forall in Hok. specialize (Hok _ Hin).
  destruct Hok as [Hreg | (rest & Hm & Hall & Hlen)]; cbn [fst snd] in *.
  - subst m. split; [eexists; reflexivity | left; reflexivity].
  - split; [exists rest; exact Hm |]. right.
    split; [rewrite Hm; exact Hall |]. split; [exact Hlen |].
    unfold MEM_BUF_SIZE. nia.
Qed.

(** *** The mutex *)


(** *** Threads do not disturb each other *)

(** A write that passes the assertion of [memtrace] has handed the message
    over. *)
Lemma pipe_write_Done p who msg sz ret p' :
  pipe_write p who msg sz = (ret, p') -> (ret <? sz) = false ->
  written p' = written p ++ [(who, msg)].
Proof.
  unfold pipe_write. destruct (returns p) as [| r rs]; intros Hw Hret;
    inversion Hw; subst ret p'; cbn [written]; [reflexivity |].
  rewrite Hret. reflexivity.
Qed.

(** Of the pipe, [memtrace] looks at nothing but whether its writes go
    through: when it returns, what it has made of the thread and what it has
    handed over are the same whatever the pipe held. *)
Lemma memtrace_pipe_independent dc pipe1 pipe2 delay dc1 pipe1' dc2 pipe2' :
  memtrace process_id dc pipe1 delay = Done (dc1, pipe1') ->
  memtrace process_id dc pipe2 delay = Done (dc2, pipe2') ->
  dc1 = dc2 /\
  exists extra,
    written pipe1' = written pipe1 ++ extra /\
    written pipe2' = written pipe2 ++ extra.
Proof.
  unfold memtrace. destruct (delay && _).
  { intros H1 H2. inversion H1. inversion H2. subst.
    split; [reflexivity |]. exists []. rewrite !app_nil_r. auto. }
  destruct (thread_registered (tls_field dc)); cbn [negb].
  - cbn [mbind outcome_bind obind].
    destruct (pipe_write pipe1 _ _ _) as [ret1 q1] eqn:Hw1.
    destruct (pipe_write pipe2 _ _ _) as [ret2 q2] eqn:Hw2.
    destruct (ret1 <? _) eqn:Hr1; cbn; [discriminate |].
    destruct (ret2 <? _) eqn:Hr2; cbn; [discriminate |].
    intros H1 H2. inversion H1. inversion H2. subst.
    split; [reflexivity |]. eexists.
    split; eapply pipe_write_Done; eauto.
  - destruct (pipe_write pipe1 _ _ _) as [ret1 q1] eqn:Hw1.
    destruct (pipe_write pipe2 _ _ _) as [ret2 q2] eqn:Hw2.
    destruct (ret1 <? _) eqn:Hr1; cbn; [discriminate |].
    destruct (ret2 <? _) eqn:Hr2; cbn; [discriminate |].
    destruct (pipe_write q1 _ _ _) as [ret3 q3] eqn:Hw3.
    destruct (pipe_write q2 _ _ _) as [ret4 q4] eqn:Hw4.
    destruct (ret3 <? _) eqn:Hr3; cbn; [discriminate |].
    destruct (ret4 <? _) eqn:Hr4; cbn; [discriminate |].
    intros H1 H2. inversion H1. inversion H2. subst.
    split; [reflexivity |].
    rewrite (pipe_write_Done _ _ _ _ _ _ Hw3 Hr3), (pipe_write_Done _ _ _ _ _ _ Hw1 Hr1).
    rewrite (pipe_write_Done _ _ _ _ _ _ Hw4 Hr4), (pipe_write_Done _ _ _ _ _ _ Hw2 Hr2).
    rewrite <- !app_assoc. eexists. split; reflexivity.
Qed.

Lemma exec_minstr_pipe_independent i dc pipe1 pipe2 dc1 pipe1' dc2 pipe2' :
  exec_minstr process_id scratch_value i (dc, pipe1) = Done (dc1, pipe1') ->
  exec_minstr process_id scratch_value i (dc, pipe2) = Done (dc2, pipe2') ->
  dc1 = dc2 /\
  exists extra,
    written pipe1' = written pipe1 ++ extra /\
    written pipe2' = written pipe2 ++ extra.
Proof.
  assert (Hnil : forall (q1 q2 : named_pipe_t),
            exists extra, written q1 = written q1 ++ extra /\
                          written q2 = written q2 ++ extra).
  { intros. exists []. rewrite !app_nil_r. auto. }
  destruct i; cbn [exec_minstr];
    try (intros H1 H2; inversion H1; inversion H2; subst;
         split; [reflexivity | apply Hnil]).
  - destruct (store_checked dc _ _) as [d | |]; cbn; try discriminate.
    intros H1 H2. inversion H1. inversion H2. subst.
    split; [reflexivity | apply Hnil].
  - destruct (store_checked dc _ _) as [d | |]; cbn; try discriminate.
    intros H1 H2. inversion H1. inversion H2. subst.
    split; [reflexivity | apply Hnil].
  - unfold clean_call. apply memtrace_pipe_independent.
Qed.

(** The same holds of the code in front of an instruction. *)
Lemma exec_code_pipe_independent c :
  forall dc pipe1 pipe2 dc1 pipe1' dc2 pipe2',
    exec_code process_id scratch_value c (dc, pipe1) = Done (dc1, pipe1') ->
    exec_code process_id scratch_value c (dc, pipe2) = Done (dc2, pipe2') ->
    dc1 = dc2 /\
    exists extra,
      written pipe1' = written pipe1 ++ extra /\
      written pipe2' = written pipe2 ++ extra.
Proof.
  induction c as [| i c IH]; intros dc pipe1 pipe2 dc1 pipe1' dc2 pipe2' H1 H2.
  - inversion H1. inversion H2. subst. split; [reflexivity |].
    exists []. rewrite !app_nil_r. auto.
  - cbn [exec_code] in H1, H2.
    destruct (exec_minstr process_id scratch_value i (dc, pipe1))
      as [[da qa] | |] eqn:Ha; try discriminate.
    destruct (exec_minstr process_id scratch_value i (dc, pipe2))
      as [[db qb] | |] eqn:Hb; try discriminate.
    rewrite bind_Done in H1, H2.
    destruct (exec_minstr_pipe_independent i dc pipe1 pipe2 da qa db qb Ha Hb)
      as (<- & x & Hxa & Hxb).
    destruct (IH da qa qb dc1 pipe1' dc2 pipe2' H1 H2) as (Hdc & y & Hya & Hyb).
    split; [exact Hdc |]. exists (x ++ y).
    rewrite Hya, Hyb, Hxa, Hxb, <- !app_assoc. auto.
Qed.

(** The step of another thread leaves the view of thread [t] alone. *)
Lemma step_view_other p e p' t :
  process_inv process_id p ->
  step process_id scratch_value arch p e = Done p' ->
  event_tid e <> t ->
  thread_view p' t = thread_view p t.
Proof.
  intros Hinv Hstep Hne. unfold thread_view.
  rewrite (step_other_thread p e p' t Hstep Hne). f_equal.
  destruct (step_log p e p' Hinv Hstep) as [-> | (dc & k & Ht & _ & _ & _ & ->)];
    [reflexivity |].
  rewrite msgs_of_app, msgs_of_flush_other, app_nil_r by congruence. reflexivity.
Qed.

(** A thread that has left its code is past [memtrace]: whatever of
    [event_thread_exit] it runs, and however long it waits for the mutex,
    its context and its messages stay. *)
Lemma step_view_inactive p e p' t th :
  process_inv process_id p ->
  step process_id scratch_value arch p e = Done p' ->
  event_tid e = t ->
  threads p !! t = Some th -> is_active th = false ->
  thread_view p' t = thread_view p t.
Proof.
  intros Hinv Hstep He Hlook Hact.
  assert (Hna : status th <> Active).
  { unfold is_active in Hact. apply bool_decide_eq_false in Hact. exact Hact. }
  destruct (proj1 Hinv t th Hlook) as (_ & Htodo & _).
  destruct e as [tid seg buf rs ss m | tid instr ud rs | tid];
    cbn [step event_tid] in *; subst tid; rewrite Hlook in Hstep.
  - inversion Hstep. reflexivity.
  - destruct (status th); [contradiction | |]; inversion Hstep; reflexivity.
  - unfold todo_ok in Htodo.
    destruct (status th) as [| [| s rest] |] eqn:Hs; [contradiction | | |];
      try (inversion Hstep; reflexivity).
    destruct Htodo as (n & Hn & Hdrop).
    assert (Hnm : s <> stmt_memtrace).
    { destruct n as [| [| [| [| [| [| [| n]]]]]]]; try lia;
        cbn in Hdrop; inversion Hdrop; discriminate. }
    destruct (exit_step_cases p t th s rest p' Hstep)
      as [(_ & ->) | (th' & Hlook' & Hna' & [(_ & Hctx & Hw) | (Hm & _)])];
      [reflexivity | | contradiction].
    unfold thread_view. rewrite Hlook', Hlook, Hw. cbn [fmap option_fmap option_map].
    rewrite Hctx, Hact. unfold is_active.
    rewrite (bool_decide_eq_false_2 _ Hna'). reflexivity.
Qed.

(** The same step of thread [t] in two processes in which [t] has got to
    the same point takes it to the same point in both. *)
Lemma step_view_same p1 p2 e p1' p2' t :
  process_inv process_id p1 -> process_inv process_id p2 ->
  thread_view p1 t = thread_view p2 t ->
  event_tid e = t ->
  step process_id scratch_value arch p1 e = Done p1' ->
  step process_id scratch_value arch p2 e = Done p2' ->
  thread_view p1' t = thread_view p2' t.
Proof.
  intros Hinv1 Hinv2 Hview He Hstep1 Hstep2.
  pose proof Hview as Hview0.
  unfold thread_view in Hview. inversion Hview as [[Hth Hmsgs]]. clear Hview.
  destruct (threads p1 !! t) as [th1 |] eqn:Hl1;
    destruct (threads p2 !! t) as [th2 |] eqn:Hl2;
    cbn [fmap option_fmap option_map] in Hth; try discriminate.
  - inversion Hth as [[Hctx Hact]].
    destruct (is_active th2) eqn:Hact2.
    2:{ rewrite (step_view_inactive p1 e p1' t th1 Hinv1 Hstep1 He Hl1 Hact).
        rewrite (step_view_inactive p2 e p2' t th2 Hinv2 Hstep2 He Hl2 Hact2).
        exact Hview0. }
    assert (Hs1 : status th1 = Active)
      by (unfold is_active in Hact; apply bool_decide_eq_true in Hact; exact Hact).
    assert (Hs2 : status th2 = Active)
      by (unfold is_active in Hact2; apply bool_decide_eq_true in Hact2; exact Hact2).
    destruct e as [tid seg buf rs ss m | tid instr ud rs | tid];
      cbn [step event_tid] in *; subst tid;
      rewrite ?Hl1 in Hstep1; rewrite ?Hl2 in Hstep2.
    + inversion Hstep1. inversion Hstep2. subst. exact Hview0.
    + rewrite Hs1 in Hstep1. rewrite Hs2 in Hstep2. rewrite Hctx in Hstep1.
      destruct (exec_code process_id scratch_value _ (_, ipc_pipe p1))
        as [[da qa] | |] eqn:Ha; try discriminate.
      destruct (exec_code process_id scratch_value _ (_, ipc_pipe p2))
        as [[db qb] | |] eqn:Hb; try discriminate.
      destruct (exec_code_pipe_independent _ _ _ _ _ _ _ _ Ha Hb)
        as (<- & x & Hxa & Hxb).
      cbn in Hstep1, Hstep2. inversion Hstep1. inversion Hstep2.
      unfold thread_view. cbn [threads ipc_pipe]. rewrite !lookup_insert_eq.
      rewrite Hxa, Hxb, !msgs_of_app, Hmsgs. reflexivity.
    + rewrite Hs1 in Hstep1. rewrite Hs2 in Hstep2.
      cbn [event_thread_exit exit_step] in Hstep1, Hstep2. rewrite Hctx in Hstep1.
      destruct (memtrace process_id (ctx th2) (ipc_pipe p1) false)
        as [[da qa] | |] eqn:Ha; try discriminate.
      destruct (memtrace process_id (ctx th2) (ipc_pipe p2) false)
        as [[db qb] | |] eqn:Hb; try discriminate.
      destruct (memtrace_pipe_independent _ _ _ _ _ _ _ _ Ha Hb)
        as (<- & x & Hxa & Hxb).
      cbn in Hstep1, Hstep2. inversion Hstep1. inversion Hstep2.
      unfold thread_view. cbn [threads ipc_pipe]. rewrite !lookup_insert_eq.
      rewrite Hxa, Hxb, !msgs_of_app, Hmsgs. reflexivity.
  - destruct e as [tid seg buf rs ss m | tid instr ud rs | tid];
      cbn [step event_tid] in *; subst tid;
      rewrite ?Hl1 in Hstep1; rewrite ?Hl2 in Hstep2.
    + destruct (event_thread_init t seg buf rs ss m) as [dc | |]; try discriminate.
      cbn in Hstep1, Hstep2. inversion Hstep1. inversion Hstep2.
      unfold thread_view. cbn [threads ipc_pipe]. rewrite !lookup_insert_eq.
      rewrite Hmsgs. reflexivity.
    + inversion Hstep1. inversion Hstep2. subst. exact Hview0.
    + inversion Hstep1. inversion Hstep2. subst. exact Hview0.
Qed.

Lemma run_view_others t es :
  forall p p',
    process_inv process_id p ->
    List.filter (fun e => event_tid e =? t) es = [] ->
    run process_id scratch_value arch es p = Done p' ->
    process_inv process_id p' /\ thread_view p' t = thread_view p t.
Proof.
  induction es as [| e es IH]; intros p p' Hinv Hnone Hrun.
  - inversion Hrun. subst. auto.
  - cbn [List.filter] in Hnone. cbn [run] in Hrun.
    destruct (Z.eqb_spec (event_tid e) t) as [He | He]; [discriminate |].
    destruct (step process_id scratch_value arch p e) as [q | |] eqn:Hstep;
      try discriminate.
    rewrite bind_Done in Hrun.
    destruct (IH q p' (step_process_inv p e q Hinv Hstep) Hnone Hrun) as (Hinv' & Hv).
    split; [exact Hinv' |].
    rewrite Hv. eapply step_view_other; eauto.
Qed.

Lemma filter_cons_split {A} (f : A -> bool) (l : list A) x r :
  List.filter f l = x :: r ->
  exists pre post,
    l = pre ++ x :: post /\ List.filter f pre = [] /\ f x = true /\
    List.filter f post = r.
Proof.
  induction l as [| a l IH]; cbn [List.filter]; [discriminate |].
  destruct (f a) eqn:Hfa.
  - intros Heq. inversion Heq. subst a r. exists [], l. auto.
  - intros Heq. destruct (IH Heq) as (pre & post & -> & Hpre & Hx & Hpost).
    exists (a :: pre), post. cbn [app List.filter]. rewrite Hfa. auto.
Qed.

(** Two runs against the events of thread [t] they have in common. *)
Lemma run_view t l :
  forall es1 es2 p1 p2 p1' p2',
    List.filter (fun e => event_tid e =? t) es1 = l ->
    List.filter (fun e => event_tid e =? t) es2 = l ->
    process_inv process_id p1 -> process_inv process_id p2 ->
    thread_view p1 t = thread_view p2 t ->
    run process_id scratch_value arch es1 p1 = Done p1' ->
    run process_id scratch_value arch es2 p2 = Done p2' ->
    thread_view p1' t = thread_view p2' t.
Proof.
  induction l as [| e l IH];
    intros es1 es2 p1 p2 p1' p2' Hf1 Hf2 Hinv1 Hinv2 Hview Hrun1 Hrun2.
  - destruct (run_view_others t es1 p1 p1' Hinv1 Hf1 Hrun1) as (_ & ->).
    destruct (run_view_others t es2 p2 p2' Hinv2 Hf2 Hrun2) as (_ & ->).
    exact Hview.
  - destruct (filter_cons_split _ _ _ _ Hf1) as (pre1 & post1 & -> & Hpre1 & He & Hpost1).
    destruct (filter_cons_split _ _ _ _ Hf2) as (pre2 & post2 & -> & Hpre2 & _ & Hpost2).
    apply Z.eqb_eq in He.
    rewrite run_app in Hrun1, Hrun2.
    destruct (run process_id scratch_value arch pre1 p1) as [q1 | |] eqn:Hq1;
      try discriminate.
    destruct (run process_id scratch_value arch pre2 p2) as [q2 | |] eqn:Hq2;
      try discriminate.
    rewrite bind_Done in Hrun1, Hrun2. cbn [run] in Hrun1, Hrun2.
    destruct (step process_id scratch_value arch q1 e) as [r1 | |] eqn:Hs1;
      try discriminate.
    destruct (step process_id scratch_value arch q2 e) as [r2 | |] eqn:Hs2;
      try discriminate.
    rewrite bind_Done in Hrun1, Hrun2.
    destruct (run_view_others t pre1 p1 q1 Hinv1 Hpre1 Hq1) as (Hi1 & Hv1).
    destruct (run_view_others t pre2 p2 q2 Hinv2 Hpre2 Hq2) as (Hi2 & Hv2).
    apply (IH post1 post2 r1 r2 p1' p2' Hpost1 Hpost2); auto.
    + exact (step_process_inv q1 e r1 Hi1 Hs1).
    + exact (step_process_inv q2 e r2 Hi2 Hs2).
    + apply (step_view_same q1 q2 e r1 r2 t Hi1 Hi2); auto. congruence.
Qed.

(** X8.  What a thread delivers, and what it still holds, do not depend on
    the other threads: two runs that go through and in which thread [t]
    meets the same events, in the same order, leave the same messages of
    [t] on the pipe, one by one (its registration and each buffer it has
    flushed, header included), and leave the thread with the same context
    (registers, spill slots, cursor, buffer memory, counter, registered
    flag), in its code in both or out of it in both.  Hence the READ and
    WRITE entries [t] has delivered are the same in both, and so are those
    it still holds in its buffer, however the events of the other threads
    are interleaved with those of [t], whatever these are, and whatever the
    pipe returns. *)
Theorem thread_stream_independent es1 es2 rets1 rets2 p1 p2 t :
  run process_id scratch_value arch es1 (dr_init rets1) = Done p1 ->
  run process_id scratch_value arch es2 (dr_init rets2) = Done p2 ->
  List.filter (fun e => event_tid e =? t) es1
  = List.filter (fun e => event_tid e =? t) es2 ->
  msgs_of t (written (ipc_pipe p1)) = msgs_of t (written (ipc_pipe p2)) /\
  ctx <$> threads p1 !! t = ctx <$> threads p2 !! t /\
  is_active <$> threads p1 !! t = is_active <$> threads p2 !! t /\
  sent_refs t (written (ipc_pipe p1)) = sent_refs t (written (ipc_pipe p2)) /\
  pending p1 t = pending p2 t.
Proof.
  intros Hrun1 Hrun2 Hsame.
  assert (Hview : thread_view p1 t = thread_view p2 t).
  { apply (run_view t _ es1 es2 (dr_init rets1) (dr_init rets2) p1 p2 Hsame eq_refl);
      auto using dr_init_process_inv. }
  unfold thread_view in Hview. inversion Hview as [[Hth Hmsgs]].
  unfold sent_refs, pending. rewrite Hmsgs.
  destruct (threads p1 !! t) as [th1 |]; destruct (threads p2 !! t) as [th2 |];
    cbn [fmap option_fmap option_map] in Hth |- *; try discriminate;
    [| repeat split; reflexivity].
  inversion Hth as [[Hctx Hact]]. rewrite Hctx. repeat split; reflexivity.
Qed.

(** *** A pipe that takes what it is given *)

(** With a pipe that takes what it is given, [memtrace] does not abort. *)
Lemma memtrace_no_abort dc pipe delay :
  returns pipe = [] ->
  memtrace process_id dc pipe delay <> Aborted /\
  forall dc' pipe',
    memtrace process_id dc pipe delay = Done (dc', pipe') -> returns pipe' = [].
Proof.
  intros Hr.
  assert (Hw : forall (p : named_pipe_t) who msg sz,
            returns p = [] ->
            pipe_write p who msg sz = (sz, mk_pipe (written p ++ [(who, msg)]) [])).
  { intros p who msg sz Hp. unfold pipe_write. rewrite Hp. reflexivity. }
  unfold memtrace.
  destruct (delay && _).
  { split; [discriminate |]. intros dc' pipe' Hm. inversion Hm. subst. exact Hr. }
  destruct (thread_registered (tls_field dc)); cbn [negb].
  - cbn [mbind outcome_bind obind]. rewrite Hw by exact Hr.
    rewrite Z.ltb_irrefl. cbn.
    split; [discriminate |]. intros dc' pipe' Hm. inversion Hm. reflexivity.
  - rewrite Hw by exact Hr. rewrite Z.ltb_irrefl. cbn.
    rewrite Z.ltb_irrefl. cbn.
    split; [discriminate |]. intros dc' pipe' Hm. inversion Hm. reflexivity.
Qed.

(** *** Leaving *)

(** A thread inside [event_thread_exit] that is not kept waiting for the
    mutex runs what it has left to run. *)
Lemma finish_exiting p t th n :
  (1 <= n <= 6)%nat ->
  threads p !! t = Some th ->
  status th = Exiting (drop n event_thread_exit) ->
  (n = 1%nat -> mutex p = None) ->
  exists p',
    run process_id scratch_value arch (replicate (7 - n) (ev_exit_step t)) p = Done p' /\
    (forall t', t' <> t -> threads p' !! t' = threads p !! t') /\
    (exists th', threads p' !! t = Some th' /\ status th' = Exited) /\
    mutex p' = (if (n <=? 4)%nat then None else mutex p) /\
    ipc_pipe p' = ipc_pipe p.
Proof.
  intros Hn Hlook Hs Hmx.
  destruct n as [| [| [| [| [| [| [| n]]]]]]]; try lia;
    cbn [drop event_thread_exit] in Hs; cbn [Nat.sub replicate run Nat.leb];
    (erewrite step_exit_exiting; [| exact Hlook | exact Hs]);
    cbn [exit_step]; rewrite ?(Hmx eq_refl); rewrite ?bind_Done;
    repeat (erewrite step_exit_exiting;
              [| cbn [threads]; apply lookup_insert_eq | reflexivity];
            cbn [exit_step]; rewrite ?bind_Done);
    (eexists; split; [reflexivity |]);
    cbn [threads mutex ipc_pipe];
    (split; [intros t' Hne; rewrite !lookup_insert_ne by congruence; reflexivity |]);
    (split; [eexists; split; [apply lookup_insert_eq | reflexivity] |]);
    split; reflexivity.
Qed.

Lemma exit_steps_only t n : forallb is_exit_step (replicate n (ev_exit_step t)) = true.
Proof. induction n as [| n IH]; [reflexivity | exact IH]. Qed.

(** With the mutex free and a pipe that takes what it is given, a thread
    can run [event_thread_exit] to its end. *)
Lemma finish_thread p t :
  process_inv process_id p -> returns (ipc_pipe p) = [] -> mutex p = None ->
  exists es1 p1,
    forallb is_exit_step es1 = true /\
    run process_id scratch_value arch es1 p = Done p1 /\
    mutex p1 = None /\ returns (ipc_pipe p1) = [] /\
    (forall t', t' <> t -> threads p1 !! t' = threads p !! t') /\
    (threads p !! t = None -> threads p1 !! t = None) /\
    (forall th, threads p !! t = Some th ->
       exists th', threads p1 !! t = Some th' /\ status th' = Exited).
Proof.
  intros Hinv Hr Hmx.
  assert (Hstay : forall th, threads p !! t = Some th -> status th = Exited ->
            exists es1 p1,
              forallb is_exit_step es1 = true /\
              run process_id scratch_value arch es1 p = Done p1 /\
              mutex p1 = None /\ returns (ipc_pipe p1) = [] /\
              (forall t', t' <> t -> threads p1 !! t' = threads p !! t') /\
              (threads p !! t = None -> threads p1 !! t = None) /\
              (forall th, threads p !! t = Some th ->
                 exists th', threads p1 !! t = Some th' /\ status th' = Exited)).
  { intros th Hlook Hs. exists [], p. repeat split; auto.
    intros th0 Hth0. exists th. split; [congruence | exact Hs]. }
  destruct (threads p !! t) as [th |] eqn:Hlook.
  2:{ exists [], p. repeat split; auto. discriminate. }
  destruct (status th) as [| todo |] eqn:Hs.
  - (* the flush, then the rest *)
    destruct (memtrace_no_abort (ctx th) (ipc_pipe p) false Hr) as (Hna & Hret).
    pose proof (memtrace_no_fault (ctx th) (ipc_pipe p) false) as Hnf.
    destruct (memtrace process_id (ctx th) (ipc_pipe p) false)
      as [[dc' pipe'] | |] eqn:Hm; try contradiction.
    specialize (Hret dc' pipe' eq_refl).
    set (p1 := mk_process
                 (<[t := mk_thread (Exiting (drop 1 event_thread_exit)) dc'
                           (loaded th) (buffer_live th)]> (threads p))
                 (g_num_refs p) (mutex p) pipe').
    assert (Hstep : step process_id scratch_value arch p (ev_exit_step t) = Done p1).
    { rewrite (step_exit_active p t th Hlook Hs). cbn [exit_step].
      rewrite Hm. reflexivity. }
    destruct (finish_exiting p1 t _ 1 ltac:(lia)
                ltac:(cbn [p1 threads]; apply lookup_insert_eq) eq_refl
                ltac:(intros _; exact Hmx))
      as (p2 & Hrun & Hothers & Hth & Hmx2 & Hpipe).
    exists (ev_exit_step t :: replicate (7 - 1) (ev_exit_step t)), p2.
    split; [apply (exit_steps_only t 7) |].
    split; [cbn [run]; rewrite Hstep, bind_Done; exact Hrun |].
    split; [exact Hmx2 |]. split; [rewrite Hpipe; exact Hret |].
    split; [| split; [discriminate | intros _ _; exact Hth]].
    intros t' Hne. rewrite (Hothers t' Hne). cbn [p1 threads].
    apply lookup_insert_ne. congruence.
  - pose proof Hinv as (Hth & _).
    destruct (Hth t th Hlook) as (_ & Hto & _ & Hh).
    assert (Hfree : holds_mutex th = false).
    { destruct (holds_mutex th); [| reflexivity].
      specialize (Hh eq_refl). congruence. }
    assert (Hcase : exists n, (1 <= n <= 6)%nat /\ (n <=? 4)%nat = (n =? 1)%nat /\
                              todo = drop n event_thread_exit).
    { unfold holds_mutex in Hfree. rewrite Hs in Hfree.
      destruct (todo_cases th todo Hto Hs) as [Hc | [Hc | [Hc | [Hc | [Hc | Hc]]]]];
        subst todo; try discriminate Hfree;
        [exists 1%nat | exists 5%nat | exists 6%nat];
        (split; [lia |]); split; reflexivity. }
    destruct Hcase as (n & Hn & Hle & ->).
    destruct (finish_exiting p t th n Hn Hlook Hs ltac:(intros _; exact Hmx))
      as (p2 & Hrun & Hothers & Hth2 & Hmx2 & Hpipe).
    exists (replicate (7 - n) (ev_exit_step t)), p2.
    split; [apply exit_steps_only |]. split; [exact Hrun |].
    split; [rewrite Hmx2; destruct (n <=? 4)%nat; [reflexivity | exact Hmx] |].
    split; [rewrite Hpipe; exact Hr |].
    split; [exact Hothers |]. split; [discriminate | intros _ _; exact Hth2].
  - destruct (Hstay th eq_refl Hs) as (es1 & p1 & H1 & H2 & H3 & H4 & H5 & H6 & H7).
    exists es1, p1. repeat split; auto.
Qed.

Lemma forallb_app_true {A} (f : A -> bool) (l1 l2 : list A) :
  forallb f l1 = true -> forallb f l2 = true -> forallb f (l1 ++ l2) = true.
Proof.
  intros H1 H2. induction l1 as [| x l1 IH]; [exact H2 |].
  cbn [forallb app] in *. apply andb_true_iff in H1 as [Hx Hl].
  rewrite Hx, (IH Hl). reflexivity.
Qed.

(** So can the threads of a list, one after the other. *)
Lemma finish_threads (l : list Z) :
  forall p,
    process_inv process_id p -> returns (ipc_pipe p) = [] -> mutex p = None ->
    exists es1 p1,
      forallb is_exit_step es1 = true /\
      run process_id scratch_value arch es1 p = Done p1 /\
      mutex p1 = None /\
      (forall t, threads p1 !! t = None <-> threads p !! t = None) /\
      (forall t th, threads p !! t = Some th -> status th = Exited ->
         exists th', threads p1 !! t = Some th' /\ status th' = Exited) /\
      (forall t th, t ∈ l -> threads p1 !! t = Some th -> status th = Exited).
Proof.
  induction l as [| t l IH]; intros p Hinv Hr Hmx.
  - exists [], p. repeat split; auto.
    + intros t th Hlook Hs. exists th. auto.
    + intros t th Hin. apply elem_of_nil in Hin. contradiction.
  - destruct (finish_thread p t Hinv Hr Hmx)
      as (es1 & p1 & Hes1 & Hrun1 & Hmx1 & Hr1 & Hothers1 & Hnone1 & Hsome1).
    pose proof (run_process_inv es1 p p1 Hinv Hrun1) as Hinv1.
    destruct (IH p1 Hinv1 Hr1 Hmx1)
      as (es2 & p2 & Hes2 & Hrun2 & Hmx2 & Hdom2 & Hkeep2 & Hl2).
    assert (Hdom1 : forall t', threads p1 !! t' = None <-> threads p !! t' = None).
    { intros t'. destruct (decide (t' = t)) as [-> | Hne].
      - split; [| exact Hnone1].
        intros Hn. destruct (threads p !! t) as [th |] eqn:Hlook; [| reflexivity].
        destruct (Hsome1 th eq_refl) as (th' & Hth' & _). congruence.
      - rewrite (Hothers1 t' Hne). reflexivity. }
    exists (es1 ++ es2), p2.
    split; [apply forallb_app_true; assumption |].
    split; [rewrite run_app, Hrun1, bind_Done; exact Hrun2 |].
    split; [exact Hmx2 |].
    split; [intros t'; rewrite Hdom2; apply Hdom1 |].
    split.
    + intros t' th Hlook Hs.
      destruct (decide (t' = t)) as [-> | Hne].
      * destruct (Hsome1 th Hlook) as (th1 & Hth1 & Hs1).
        apply (Hkeep2 t th1 Hth1 Hs1).
      * apply (Hkeep2 t' th); [rewrite (Hothers1 t' Hne); exact Hlook | exact Hs].
    + intros t' th Hin Hlook.
      apply elem_of_cons in Hin as [-> | Hin]; [| apply (Hl2 t' th Hin Hlook)].
      destruct (threads p !! t) as [th0 |] eqn:Hlook0.
      * destruct (Hsome1 th0 eq_refl) as (th1 & Hth1 & Hs1).
        destruct (Hkeep2 t th1 Hth1 Hs1) as (th2 & Hth2 & Hs2).
        congruence.
      * pose proof (Hnone1 eq_refl) as Hn1. apply Hdom2 in Hn1. congruence.
Qed.

(** X10.  The mutex of [event_thread_exit] cannot block the threads for
    good: from any point of any run, if the pipe takes what it is given
    from then on, the threads that have started can all run
    [event_thread_exit] to its end; no thread is lost or added on the way,
    the mutex ends up free, and the global counter is then the sum of the
    threads' counters. *)
Theorem threads_can_all_leave es rets p :
  run process_id scratch_value arch es (dr_init rets) = Done p ->
  returns (ipc_pipe p) = [] ->
  exists es' p',
    forallb is_exit_step es' = true /\
    run process_id scratch_value arch es' p = Done p' /\
    (forall t, threads p' !! t = None <-> threads p !! t = None) /\
    (forall t th, threads p' !! t = Some th -> status th = Exited) /\
    mutex p' = None /\
    g_num_refs p' = wrap64 (sum_threads final_num_refs (threads p')).
Proof.
  intros Hrun Hr.
  pose proof (run_process_inv es _ p (dr_init_process_inv rets) Hrun) as Hinv.
  (* the holder of the mutex first *)
  assert (Hfree : exists es0 p0,
            forallb is_exit_step es0 = true /\
            run process_id scratch_value arch es0 p = Done p0 /\
            mutex p0 = None /\ returns (ipc_pipe p0) = [] /\
            (forall t, threads p0 !! t = None <-> threads p !! t = None)).
  { destruct (mutex p) as [t0 |] eqn:Hmx.
    2:{ exists [], p. repeat split; auto. }
    pose proof Hinv as (Hth & _ & Hhold & _).
    destruct (Hhold t0 Hmx) as (th0 & Hlook0 & Hh0).
    destruct (Hth t0 th0 Hlook0) as (_ & Hto & _).
    assert (Hcase : exists n, (2 <= n <= 4)%nat /\
                              status th0 = Exiting (drop n event_thread_exit)).
    { unfold holds_mutex in Hh0.
      destruct (status th0) as [| todo |] eqn:Hs; try discriminate.
      destruct (todo_cases th0 todo Hto Hs) as [Hc | [Hc | [Hc | [Hc | [Hc | Hc]]]]];
        subst todo; try discriminate Hh0;
        [exists 2%nat | exists 3%nat | exists 4%nat]; (split; [lia | reflexivity]). }
    destruct Hcase as (n & Hn & Hs).
    destruct (finish_exiting p t0 th0 n ltac:(lia) Hlook0 Hs ltac:(lia))
      as (p0 & Hrun0 & Hothers & (th' & Hth' & _) & Hmx0 & Hpipe).
    exists (replicate (7 - n) (ev_exit_step t0)), p0.
    split; [apply exit_steps_only |]. split; [exact Hrun0 |].
    split.
    { rewrite Hmx0. destruct (Nat.leb_spec n 4); [reflexivity | lia]. }
    split; [rewrite Hpipe; exact Hr |].
    intros t. destruct (decide (t = t0)) as [-> | Hne].
    - rewrite Hth', Hlook0. split; discriminate.
    - rewrite (Hothers t Hne). reflexivity. }
  destruct Hfree as (es0 & p0 & Hes0 & Hrun0 & Hmx0 & Hr0 & Hdom0).
  pose proof (run_process_inv es0 p p0 Hinv Hrun0) as Hinv0.
  destruct (finish_threads (map fst (map_to_list (threads p0))) p0 Hinv0 Hr0 Hmx0)
    as (es1 & p1 & Hes1 & Hrun1 & Hmx1 & Hdom1 & _ & Hall).
  pose proof (run_process_inv es1 p0 p1 Hinv0 Hrun1) as Hinv1.
  assert (Hexited : forall t th, threads p1 !! t = Some th -> status th = Exited).
  { intros t th Hlook. apply (Hall t th); [| exact Hlook].
    destruct (threads p0 !! t) as [th0 |] eqn:Hlook0.
    - apply list_elem_of_fmap. exists (t, th0). split; [reflexivity |].
      apply elem_of_map_to_list. exact Hlook0.
    - apply Hdom1 in Hlook0. congruence. }
  exists (es0 ++ es1), p1.
  split; [apply forallb_app_true; assumption |].
  split; [rewrite run_app, Hrun0, bind_Done; exact Hrun1 |].
  split; [intros t; rewrite Hdom1; apply Hdom0 |].
  split; [exact Hexited |]. split; [exact Hmx1 |].
  destruct Hinv1 as (_ & _ & _ & Hg). rewrite Hg. f_equal.
  apply sum_threads_ext. intros t th Hlook.
  unfold folded_num_refs, folded. rewrite (Hexited t th Hlook). reflexivity.
Qed.

End Properties.

(** * The options *)

(** The loop of [options_init] over options that name the pipe: the last
    name stays. *)
Lemma options_tokens_ipc names rest o out :
  options_tokens (ipc_options names ++ rest) o out
  = options_tokens rest
      (match last names with Some name => mk_options name | None => o end) out.
Proof.
  revert o. induction names as [| name names IH]; intros o; [reflexivity |].
  cbn [ipc_options flat_map app options_tokens]. fold (ipc_options names).
  rewrite String.eqb_refl, IH, last_cons.
  destruct (last names); reflexivity.
Qed.

(** Every option string is a run of options that name the pipe, followed
    by nothing, by a lone [-ipc], or by a token that is not [-ipc]. *)
Lemma ipc_options_split (s : list string) :
  exists names,
    s = ipc_options names \/
    s = ipc_options names ++ ["-ipc"%string] \/
    exists token rest, token <> "-ipc"%string /\ s = ipc_options names ++ token :: rest.
Proof.
  assert (Hn : forall n (s : list string), (length s <= n)%nat ->
            exists names,
              s = ipc_options names \/
              s = ipc_options names ++ ["-ipc"%string] \/
              exists token rest,
                token <> "-ipc"%string /\ s = ipc_options names ++ token :: rest).
  { clear s. induction n as [| n IH]; intros s Hlen.
    - destruct s; [| cbn in Hlen; lia]. exists []. left. reflexivity.
    - destruct s as [| token s]; [exists []; left; reflexivity |].
      destruct (String.eqb_spec token "-ipc") as [-> | Hne].
      2:{ exists []. right. right. exists token, s. split; [exact Hne | reflexivity]. }
      destruct s as [| name s]; [exists []; right; left; reflexivity |].
      destruct (IH s) as (names & Hs); [cbn in Hlen; lia |].
      exists (name :: names). cbn [ipc_options flat_map app]. fold (ipc_options names).
      destruct Hs as [-> | [-> | (tok & rest & Htok & ->)]]; auto.
      right. right. exists tok, rest. split; [exact Htok | reflexivity]. }
  apply (Hn (length s)). lia.
Qed.

Lemma options_init_ipc names :
  options_init (ipc_options names)
  = match last names with
    | Some name =>
        if String.eqb name EmptyString
        then ([DR_ASSERT_MSG "-ipc <name> is required"], Aborted)
        else ([], Done (mk_options name))
    | None => ([DR_ASSERT_MSG "-ipc <name> is required"], Aborted)
    end.
Proof.
  unfold options_init.
  rewrite <- (app_nil_r (ipc_options names)), options_tokens_ipc.
  cbn [options_tokens].
  destruct (last names) as [name |]; cbn [ipc_name options]; [| reflexivity].
  destruct (String.eqb name EmptyString); reflexivity.
Qed.

Lemma options_init_missing names :
  options_init (ipc_options names ++ ["-ipc"%string])
  = ([DR_ASSERT_MSG "missing ipc name"], Aborted).
Proof. unfold options_init. rewrite options_tokens_ipc. reflexivity. Qed.

Lemma options_init_invalid names token rest :
  token <> "-ipc"%string ->
  options_init (ipc_options names ++ token :: rest)
  = ([dr_fprintf_STDERR (unrecognized_option token); DR_ASSERT_MSG "invalid option"],
     Aborted).
Proof.
  intros Hne. unfold options_init. rewrite options_tokens_ipc.
  cbn [options_tokens].
  destruct (String.eqb_spec token "-ipc"); [contradiction | reflexivity].
Qed.

(** X11.  [options_init] returns exactly for the option strings that
    consist of one or more pairs [-ipc <name>] and whose last name is not
    empty; it then reports nothing, and the name it keeps is the last
    one. *)
Theorem options_init_accepts opstr out o :
  options_init opstr = (out, Done o) <->
  exists names,
    opstr = ipc_options names /\ last names = Some (ipc_name o) /\
    ipc_name o <> EmptyString /\ out = [].
Proof.
  split.
  - intros Hinit.
    destruct (ipc_options_split opstr)
      as (names & [-> | [-> | (token & rest & Hne & ->)]]).
    + rewrite options_init_ipc in Hinit. exists names.
      destruct (last names) as [name |]; [| discriminate].
      destruct (String.eqb_spec name EmptyString); [discriminate |].
      inversion Hinit. subst. auto.
    + rewrite options_init_missing in Hinit. discriminate.
    + rewrite options_init_invalid in Hinit by exact Hne. discriminate.
  - intros (names & -> & Hlast & Hne & ->).
    rewrite options_init_ipc, Hlast.
    destruct (String.eqb_spec (ipc_name o) EmptyString); [contradiction |].
    destruct o. reflexivity.
Qed.

(** X12.  Every other option string makes [options_init] abort, with the
    message of the check that failed as the last thing reported: behind
    any number of pairs [-ipc <name>], a token that is not [-ipc] is
    printed as unrecognized and fails with [invalid option], whatever
    follows it; an [-ipc] that ends the string fails with [missing ipc
    name]; and a string without a pair, or whose last name is empty, fails
    with [-ipc <name> is required]. *)
Theorem options_init_rejects :
  (forall names token rest,
     token <> "-ipc"%string ->
     options_init (ipc_options names ++ token :: rest)
     = ([dr_fprintf_STDERR (unrecognized_option token);
         DR_ASSERT_MSG "invalid option"], Aborted)) /\
  (forall names,
     options_init (ipc_options names ++ ["-ipc"%string])
     = ([DR_ASSERT_MSG "missing ipc name"], Aborted)) /\
  (forall names,
     last names = None \/ last names = Some EmptyString ->
     options_init (ipc_options names)
     = ([DR_ASSERT_MSG "-ipc <name> is required"], Aborted)) /\
  (forall opstr,
     (exists o, options_init opstr = ([], Done o)) \/
     (exists msg,
        snd (options_init opstr) = Aborted /\
        last (fst (options_init opstr)) = Some (DR_ASSERT_MSG msg))).
Proof.
  split; [| split; [| split]].
  - intros names token rest Hne. apply options_init_invalid. exact Hne.
  - apply options_init_missing.
  - intros names Hlast. rewrite options_init_ipc.
    destruct Hlast as [-> | ->]; reflexivity.
  - intros opstr.
    destruct (ipc_options_split opstr)
      as (names & [-> | [-> | (token & rest & Hne & ->)]]).
    + rewrite options_init_ipc.
      destruct (last names) as [name |]; [| right; eexists; split; reflexivity].
      destruct (String.eqb name EmptyString);
        [right; eexists; split; reflexivity | left; eexists; reflexivity].
    + rewrite options_init_missing. right. eexists. split; reflexivity.
    + rewrite options_init_invalid by exact Hne. right. eexists. split; reflexivity.
Qed.

(** * The example run *)

Section ExampleRun.

Import Example.

Lemma packed_layout_ok : layout_ok packed_trace_entry_h.
Proof. unfold layout_ok. cbn. lia. Defined.

Lemma packed_enum_ok : enum_ok packed_trace_entry_h.
Proof.
  unfold enum_ok. cbn. split.
  - repeat constructor; lia.
  - repeat (apply NoDup_cons_2; [rewrite ?elem_of_cons, elem_of_nil; lia |]).
    apply NoDup_nil_2.
Defined.

Lemma run_whole :
  run (H := layout) pid scratch X86 whole (dr_init []) = Done finished.
Proof. vm_compute. reflexivity. Defined.

Lemma run_start :
  run (H := layout) pid scratch X86 start (dr_init []) = Done running.
Proof. vm_compute. reflexivity. Defined.

(** The clean call of a thread with two entries in its buffer does
    nothing. *)
Lemma memtrace_deferred_below_half_witness :
  ptr_diff (H := layout) (BUF_PTR dc) (buf_base (tls_field dc))
    < MAX_NUM_MEM_REFS / 2 /\
  clean_call (H := layout) pid dc pipe = Done (dc, pipe).
Proof.
  assert (Hlt : ptr_diff (H := layout) (BUF_PTR dc) (buf_base (tls_field dc))
                < MAX_NUM_MEM_REFS / 2) by (vm_compute; reflexivity).
  split; [exact Hlt |].
  apply (memtrace_deferred_below_half (H := layout) pid dc pipe Hlt).
Defined.

(** The flush of that thread at its exit. *)
Lemma memtrace_flush_effect_witness :
  layout_ok layout /\
  cursor_at (H := layout) dc 3 /\ 1 <= 3 /\
  deferred (H := layout) dc false = false /\
  all_full (returns pipe) (flush_writes (H := layout) dc) = true /\
  exists dc' pipe',
    memtrace (H := layout) pid dc pipe false = Done (dc', pipe') /\
    load_entry (H := layout) (mem dc') 1000 = thread_entry (H := layout) tid /\
    cursor_at (H := layout) dc' 1.
Proof.
  assert (Hcur : cursor_at (H := layout) dc 3) by reflexivity.
  assert (Hk : 1 <= 3) by lia.
  assert (Hdef : deferred (H := layout) dc false = false) by reflexivity.
  assert (Hfull : all_full (returns pipe) (flush_writes (H := layout) dc) = true)
    by reflexivity.
  repeat (split; [assumption || exact packed_layout_ok |]).
  destruct (memtrace_flush_effect (H := layout) pid packed_layout_ok dc pipe false 3
              Hcur Hk Hdef Hfull)
    as (dc' & pipe' & Hm & _ & Hhdr & _ & _ & Hc & _).
  exists dc', pipe'. split; [exact Hm |]. split; [exact Hhdr | exact Hc].
Defined.

(** A pipe that fails the first write. *)
Lemma memtrace_short_write_aborts_witness :
  deferred (H := layout) dc false = false /\
  memtrace (H := layout) pid dc (mk_pipe [] [-1]) false = Aborted.
Proof.
  assert (Hdef : deferred (H := layout) dc false = false) by reflexivity.
  split; [exact Hdef |].
  destruct (memtrace_short_write_aborts (H := layout) pid dc (mk_pipe [] [-1]) false Hdef)
    as (Hreg & _).
  apply (Hreg (-1) []); [reflexivity | reflexivity | vm_compute; reflexivity].
Defined.

(** The entries of [mov]: a read of 4 bytes at 8192 + 3 * 4, a write of 8
    bytes at 4096 + 8, although the destination is addressed through the
    scratch register [%rcx] and the source through [%rbx]. *)
Lemma event_app_instruction_entries_witness :
  layout_ok layout /\
  exists dc',
    exec_code (H := layout) pid scratch (entry_code (H := layout) X86 mov) (dc, pipe)
      = Done (dc', pipe) /\
    load_entries (H := layout) (mem dc') (BUF_PTR dc) 2
      = [mk_entry 0 4 8204; mk_entry 1 8 4104] /\
    cursor_at (H := layout) dc' 5.
Proof.
  split; [exact packed_layout_ok |].
  destruct (event_app_instruction_entries (H := layout) pid scratch X86 packed_layout_ok
              mov (mk_user_data false) dc pipe 3) as (_ & Hrun & _).
  destruct (Hrun eq_refl (or_introl eq_refl)) as (_ & Hexec).
  destruct (Hexec eq_refl ltac:(lia) ltac:(vm_compute; discriminate))
    as (dc' & Hex & Hload & Hc & _).
  exists dc'. split; [exact Hex |]. split; [exact Hload | exact Hc].
Defined.

(** C5 as stated fails: a block on x86 without a memory reference, and a
    block on ARM whose only memory reference is predicated, get no clean
    call. *)
Lemma instrument_bb_not_exactly_one :
  bb_clean_calls (instrument_bb (H := layout) X86 [add]) <> 1%nat /\
  bb_clean_calls (instrument_bb (H := layout) ARM [ldrne]) <> 1%nat.
Proof. split; vm_compute; discriminate. Qed.

(** The stream of the thread of the example. *)
Lemma thread_registration_once_witness :
  layout_ok layout /\ enum_ok layout /\
  firstn 2 (concat (msgs_of tid (written (ipc_pipe finished))))
    = [thread_entry (H := layout) tid; pid_entry (H := layout) pid] /\
  length (List.filter (is_pid_entry (H := layout))
            (concat (msgs_of tid (written (ipc_pipe finished))))) = 1%nat.
Proof.
  split; [exact packed_layout_ok |]. split; [exact packed_enum_ok |].
  destruct (thread_registration_once (H := layout) pid scratch X86
              packed_layout_ok packed_enum_ok) as (_ & Hstream).
  destruct (Hstream whole [] finished tid run_whole) as (_ & [Hnil | Hpair]).
  - vm_compute in Hnil. discriminate Hnil.
  - exact Hpair.
Defined.

Lemma finished_all_exited :
  forall t th, threads finished !! t = Some th -> status th = Exited.
Proof.
  apply (bool_decide_unpack
           (map_Forall (fun _ th => status th = Exited) (threads finished))).
  vm_compute. exact I.
Defined.

(** The global counter of the example: one thread, three records. *)
Lemma global_num_refs_sum_witness :
  layout_ok layout /\
  run (H := layout) pid scratch X86 whole (dr_init []) = Done finished /\
  g_num_refs finished = sum_threads final_num_refs (threads finished).
Proof.
  split; [exact packed_layout_ok |]. split; [exact run_whole |].
  destruct (global_num_refs_sum (H := layout) pid scratch X86 packed_layout_ok
              whole [] finished run_whole) as (_ & Hsum).
  destruct (Hsum finished_all_exited) as (_ & Hexact).
  apply Hexact. vm_compute. reflexivity.
Defined.

(** The counter of the thread of the example: two entries, one flush. *)
Lemma num_refs_counts_header_witness :
  layout_ok layout /\ enum_ok layout /\
  final_num_refs (the_thread finished)
  = recorded_of (H := layout) tid (written (ipc_pipe finished))
    + flushes_of tid (written (ipc_pipe finished)).
Proof.
  split; [exact packed_layout_ok |]. split; [exact packed_enum_ok |].
  destruct (num_refs_counts_header (H := layout) pid scratch X86
              packed_layout_ok packed_enum_ok) as (_ & Hrun).
  destruct (Hrun whole [] finished run_whole) as (Hth & _).
  assert (Hlook : threads finished !! tid = Some (the_thread finished))
    by (vm_compute; reflexivity).
  destruct (Hth tid (the_thread finished) Hlook) as (_ & Hexact).
  apply Hexact. vm_compute. reflexivity.
Defined.

(** The exit of the thread of the example. *)
Lemma event_thread_exit_flushes_and_folds_witness :
  layout_ok layout /\
  exists p1 p4 th4 p7 th7,
    step (H := layout) pid scratch X86 running (ev_exit_step tid) = Done p1 /\
    run (H := layout) pid scratch X86 (replicate 3 (ev_exit_step tid)) p1 = Done p4 /\
    threads p4 !! tid = Some th4 /\
    mutex p4 = Some tid /\
    g_num_refs p4 = wrap64 (g_num_refs running + final_num_refs th4) /\
    run (H := layout) pid scratch X86 (replicate 3 (ev_exit_step tid)) p4 = Done p7 /\
    threads p7 !! tid = Some th7 /\
    status th7 = Exited /\ buffer_live th7 = false /\ mutex p7 = None.
Proof.
  split; [exact packed_layout_ok |].
  assert (Hlook : threads running !! tid = Some (the_thread running))
    by (vm_compute; reflexivity).
  assert (Hs : status (the_thread running) = Active) by (vm_compute; reflexivity).
  assert (Hcur : cursor_at (H := layout) (ctx (the_thread running)) 3)
    by (vm_compute; reflexivity).
  assert (Hmx : mutex running = None) by (vm_compute; reflexivity).
  assert (Hfull : all_full (returns (ipc_pipe running))
                    (flush_writes (H := layout) (ctx (the_thread running))) = true)
    by (vm_compute; reflexivity).
  destruct (event_thread_exit_flushes_and_folds (H := layout) pid scratch X86
              packed_layout_ok running tid (the_thread running) 3
              Hlook Hs Hcur ltac:(lia) Hmx Hfull)
    as (p1 & p4 & th4 & p7 & th7 & H1 & _ & H4 & Ht4 & _ & Hg & Hm4 & _ & _
        & H7 & Ht7 & Hs7 & Hb7 & Hm7 & _).
  exists p1, p4, th4, p7, th7. repeat split; assumption.
Defined.

(** The thread of the example stays under the bound, and its run does not
    fault. *)
Lemma appends_stay_in_buffer_witness :
  layout_ok layout /\
  (forall t, bounded_appends X86 t whole 0 = true) /\
  run (H := layout) pid scratch X86 whole (dr_init []) <> Fault.
Proof.
  assert (Hb : forall t, bounded_appends X86 t whole 0 = true).
  { intros t. unfold whole, start. cbn [app replicate bounded_appends].
    destruct (tid =? t); reflexivity. }
  split; [exact packed_layout_ok |]. split; [exact Hb |].
  destruct (appends_stay_in_buffer (H := layout) pid scratch X86 packed_layout_ok)
    as (_ & _ & Hrun).
  exact (Hrun whole [] Hb).
Defined.

(** C10 as stated fails: a thread on ARM whose 4096 loads are all
    predicated executes no clean call, so nothing it appends lies between
    two flush checks; yet its last load finds the buffer full and stores
    outside it.  The bound on every stretch without a clean call does not
    hold of this thread. *)
Lemma appends_between_flush_checks_fault :
  (forall t, appends_between_flush_checks ARM t predicated_loads None = true) /\
  bounded_appends ARM tid predicated_loads 0 = false /\
  run (H := layout) pid scratch ARM predicated_loads (dr_init []) = Fault.
Proof.
  assert (Hn : forall (n : nat) t,
            appends_between_flush_checks ARM t
              (ev_thread_init tid 500 1000 app_regs no_slots blank
               :: replicate n (ev_instr tid ldrne (mk_user_data false) app_regs))
              None = true).
  { intros n t. cbn [appends_between_flush_checks].
    induction n as [| n IH]; [reflexivity |].
    cbn [replicate appends_between_flush_checks].
    destruct (tid =? t); exact IH. }
  split; [| split].
  - intros t. exact (Hn 4096%nat t).
  - vm_compute. reflexivity.
  - vm_compute. reflexivity.
Qed.

(** The flush of the thread of [dc] leaves its registers and spill slots
    alone. *)
Lemma memtrace_keeps_thread_state_witness :
  layout_ok layout /\
  exists dc' pipe',
    memtrace (H := layout) pid dc pipe false = Done (dc', pipe') /\
    (forall r, regs dc' r = regs dc r) /\
    (forall s, spill dc' s = spill dc s).
Proof.
  split; [exact packed_layout_ok |].
  pose proof (memtrace_flush (H := layout) pid packed_layout_ok dc pipe false 3
                eq_refl ltac:(lia) eq_refl eq_refl) as Hm.
  eexists. eexists. split; [exact Hm |].
  destruct (memtrace_keeps_thread_state (H := layout) pid packed_layout_ok
              dc pipe false _ _ Hm) as (Hr & Hs & _).
  split; assumption.
Defined.

(** After that flush a clean call does nothing. *)
Lemma memtrace_after_flush_witness :
  layout_ok layout /\
  cursor_at (H := layout) dc 3 /\ 1 <= 3 /\
  deferred (H := layout) dc false = false /\
  exists dc' pipe',
    memtrace (H := layout) pid dc pipe false = Done (dc', pipe') /\
    clean_call (H := layout) pid dc' pipe' = Done (dc', pipe').
Proof.
  assert (Hcur : cursor_at (H := layout) dc 3) by reflexivity.
  assert (Hk : 1 <= 3) by lia.
  assert (Hdef : deferred (H := layout) dc false = false) by reflexivity.
  repeat (split; [assumption || exact packed_layout_ok |]).
  pose proof (memtrace_flush (H := layout) pid packed_layout_ok dc pipe false 3
                Hcur Hk Hdef eq_refl) as Hm.
  eexists. eexists. split; [exact Hm |].
  destruct (memtrace_after_flush (H := layout) pid packed_layout_ok
              dc pipe false 3 _ _ Hcur Hk Hdef Hm) as (Hcc & _).
  exact Hcc.
Defined.

(** The entry of [mov] itself, were it written: opcode 56, three bytes,
    at 0x401000. *)
Lemma instrument_instr_entry_witness :
  layout_ok layout /\
  DR_REG_XCX <> DR_REG_XBX /\
  regs dc_inside DR_REG_XCX + 0
  = buf_base (tls_field dc_inside) + 3 * sizeof_trace_entry_t (trace_entry_h := layout) /\
  exists dc',
    exec_code (H := layout) pid scratch
      (instrument_instr (H := layout) mov DR_REG_XCX DR_REG_XBX 0) (dc_inside, pipe)
    = Done (dc', pipe) /\
    load_entry (H := layout) (mem dc') 1036 = mk_entry 56 3 4198400.
Proof.
  assert (Hne : DR_REG_XCX <> DR_REG_XBX) by discriminate.
  assert (Ha : regs dc_inside DR_REG_XCX + 0
               = buf_base (tls_field dc_inside)
                 + 3 * sizeof_trace_entry_t (trace_entry_h := layout))
    by reflexivity.
  split; [exact packed_layout_ok |]. split; [exact Hne |]. split; [exact Ha |].
  destruct (instrument_instr_entry (H := layout) pid scratch packed_layout_ok
              mov DR_REG_XCX DR_REG_XBX 0 dc_inside pipe 3 Hne Ha) as (Hdone & _).
  destruct (Hdone ltac:(unfold MAX_NUM_MEM_REFS; lia)) as (dc' & Hex & Hload & _).
  exists dc'. split; [exact Hex | exact Hload].
Defined.

Lemma exec_mov :
  exec_code (H := layout) pid scratch
    (fst (event_app_instruction (H := layout) X86 mov (mk_user_data false)))
    (dc, pipe)
  = Done (after_mov, pipe_after_mov).
Proof. vm_compute. reflexivity. Defined.

(** The code in front of [mov] gives the registers back, [%rcx] and [%rbx]
    among them. *)
Lemma event_app_instruction_transparent_witness :
  layout_ok layout /\
  cursor_at (H := layout) dc 3 /\ 0 <= 3 <= MAX_NUM_MEM_REFS /\
  (forall r, regs after_mov r = regs dc r) /\
  spill after_mov SPILL_SLOT_1 = spill dc SPILL_SLOT_1.
Proof.
  assert (Hcur : cursor_at (H := layout) dc 3) by reflexivity.
  assert (Hk : 0 <= 3 <= MAX_NUM_MEM_REFS) by (unfold MAX_NUM_MEM_REFS; lia).
  split; [exact packed_layout_ok |]. split; [exact Hcur |]. split; [exact Hk |].
  destruct (event_app_instruction_transparent (H := layout) pid scratch X86
              packed_layout_ok mov (mk_user_data false) dc pipe 3
              after_mov pipe_after_mov Hcur Hk exec_mov)
    as (Hr & Hs & _).
  split; [exact Hr |]. apply Hs; discriminate.
Defined.

(** What the thread of the example has sent when it has left: the two
    entries of [mov]. *)
Lemma trace_faithful_witness :
  layout_ok layout /\ enum_ok layout /\
  run (H := layout) pid scratch X86 whole (dr_init []) = Done finished /\
  sent_refs (H := layout) tid (written (ipc_pipe finished))
  = issued (H := layout) tid Unborn whole /\
  issued (H := layout) tid Unborn whole = [mk_entry 0 4 8204; mk_entry 1 8 4104].
Proof.
  split; [exact packed_layout_ok |]. split; [exact packed_enum_ok |].
  split; [exact run_whole |].
  destruct (trace_faithful (H := layout) pid scratch X86 packed_layout_ok
              packed_enum_ok whole [] finished tid run_whole) as (_ & Hleft).
  assert (Hlook : threads finished !! tid = Some (the_thread finished))
    by (vm_compute; reflexivity).
  assert (Hs : status (the_thread finished) <> Active)
    by (vm_compute; discriminate).
  destruct (Hleft (the_thread finished) Hlook Hs) as (_ & Hsent).
  split; [exact Hsent | vm_compute; reflexivity].
Defined.

(** The buffer the thread of the example has sent. *)
Lemma messages_start_with_thread_header_witness :
  layout_ok layout /\
  (tid, [mk_entry 2 4 7; mk_entry 0 4 8204; mk_entry 1 8 4104])
    ∈ written (ipc_pipe finished) /\
  Forall (fun e => is_memref_entry (H := layout) e = true)
    [mk_entry 0 4 8204; mk_entry 1 8 4104].
Proof.
  assert (Hin : (tid, [mk_entry 2 4 7; mk_entry 0 4 8204; mk_entry 1 8 4104])
                  ∈ written (ipc_pipe finished)).
  { apply list_elem_of_In. vm_compute. right. left. reflexivity. }
  split; [exact packed_layout_ok |]. split; [exact Hin |].
  destruct (messages_start_with_thread_header (H := layout) pid scratch X86
              packed_layout_ok whole [] finished tid _ run_whole Hin)
    as (_ & [Hreg | (Hall & _)]).
  - discriminate Hreg.
  - exact Hall.
Defined.


Lemma run_crowded :
  run (H := layout) pid scratch X86 crowded (dr_init []) = Done finished_crowded.
Proof. vm_compute. reflexivity. Defined.

(** Thread 7 delivers the same messages, and is left with the same
    context, with thread 8 in between. *)
Lemma thread_stream_independent_witness :
  layout_ok layout /\
  List.filter (fun e => event_tid e =? tid) whole
  = List.filter (fun e => event_tid e =? tid) crowded /\
  msgs_of tid (written (ipc_pipe finished))
  = msgs_of tid (written (ipc_pipe finished_crowded)) /\
  ctx <$> threads finished !! tid = ctx <$> threads finished_crowded !! tid /\
  is_active <$> threads finished !! tid
  = is_active <$> threads finished_crowded !! tid /\
  sent_refs (H := layout) tid (written (ipc_pipe finished))
  = sent_refs (H := layout) tid (written (ipc_pipe finished_crowded)) /\
  pending (H := layout) finished tid = pending (H := layout) finished_crowded tid.
Proof.
  assert (Hsame : List.filter (fun e => event_tid e =? tid) whole
                  = List.filter (fun e => event_tid e =? tid) crowded)
    by reflexivity.
  split; [exact packed_layout_ok |]. split; [exact Hsame |].
  exact (thread_stream_independent (H := layout) pid scratch X86 packed_layout_ok
           whole crowded [] [] finished finished_crowded tid
           run_whole run_crowded Hsame).
Defined.

(** The thread of the example, once it has executed [mov], can leave. *)
Lemma threads_can_all_leave_witness :
  layout_ok layout /\
  run (H := layout) pid scratch X86 start (dr_init []) = Done running /\
  returns (ipc_pipe running) = [] /\
  exists es' p',
    run (H := layout) pid scratch X86 es' running = Done p' /\
    (forall t th, threads p' !! t = Some th -> status th = Exited) /\
    mutex p' = None.
Proof.
  assert (Hr : returns (ipc_pipe running) = []) by (vm_compute; reflexivity).
  split; [exact packed_layout_ok |]. split; [exact run_start |]. split; [exact Hr |].
  destruct (threads_can_all_leave (H := layout) pid scratch X86 packed_layout_ok
              start [] running run_start Hr)
    as (es' & p' & _ & Hrun & _ & Hall & Hmx & _).
  exists es', p'. split; [exact Hrun |]. split; [exact Hall | exact Hmx].
Defined.

(** The options [-ipc first -ipc drpipe] name the pipe [drpipe]. *)
Lemma options_init_accepts_witness :
  options_init ["-ipc"; "first"; "-ipc"; "drpipe"]%string
  = ([], Done (mk_options "drpipe")).
Proof.
  apply (options_init_accepts ["-ipc"; "first"; "-ipc"; "drpipe"]%string []
           (mk_options "drpipe")).
  exists ["first"; "drpipe"]%string.
  split; [reflexivity |]. split; [reflexivity |]. split; [discriminate | reflexivity].
Defined.

(** An option the client does not know, behind the name of the pipe. *)
Lemma options_init_rejects_witness :
  "-verbose"%string <> "-ipc"%string /\
  options_init ["-ipc"; "drpipe"; "-verbose"; "3"]%string
  = ([dr_fprintf_STDERR (unrecognized_option "-verbose");
      DR_ASSERT_MSG "invalid option"], Aborted).
Proof.
  assert (Hne : "-verbose"%string <> "-ipc"%string) by discriminate.
  split; [exact Hne |].
  destruct options_init_rejects as (Hinvalid & _).
  exact (Hinvalid ["drpipe"%string] "-verbose"%string ["3"%string] Hne).
Defined.

End ExampleRun.
